(** * Relativistic jet inflow boundary (pgen/srjet_aphi_rhoper_no_bphi.cpp)

    A shallow embedding of the problem generator's boundary code and the
    proofs of its specification.

    Number model.  The source computes with [Real] (IEEE double).  Here [Real]
    is the field [R] of the Standard Library, so every statement below is a
    statement of exact real arithmetic: rounding, overflow and NaN are outside
    the model.  Comparisons are the decidable comparisons of [R]
    ([Rlt_dec], [Rle_dec]); [std::min]/[std::max] are [Rmin]/[Rmax];
    [sqrt], [exp], [log], [atan], [cos] are the functions of the same name
    of the Standard Library ([log] is [ln]).  The literals [1e-4] and [1e-5]
    are the rationals [1/10000] and [1/100000].  Division is the total
    division of [R], which gives a number where the source gives an
    infinity or a NaN: at [vz_amb = 0] or [vz_jet = 0] in the opening and
    rotation rates, at [z_0 = 0] in the residual [f], at a zero radius in
    [A2], at a zero density in the Bernoulli values.  A statement that
    asserts a value computed through such a quotient says that the divisor
    is nonzero ([well_formed], [nonzero_divisors], hypotheses on face radii
    and areas); a statement without such a hypothesis relates values that
    both pass through the same quotient, or is guarded by a premise on [f].

    Loops.  The root-solve [while] loop of [r0_r_z] has no iteration counter;
    it is embedded with a fuel argument and returns [None] when the fuel runs
    out before the loop exits.  The [for] loops of the boundary function are
    folds over their index ranges, and a pass whose root-solve does not
    return ends the fold with [None].

    Scope.  Embedded are the file-scope parameters with the combinations
    [InitUserMeshData] derives from them, the helper functions of the
    anonymous namespace and the boundary function [JetInnerX3] (whose [time]
    and [dt] arguments it never reads), and further down
    [MeshBlock::ProblemGenerator] and [RefinementCondition] over the members
    of the mesh block they touch.  Routines of the framework that the file
    calls and does not define are section variables. *)

From Stdlib Require Import Reals Lra Lia ZArith List Bool Psatz.
Import ListNotations.
Open Scope R_scope.

Module Jet.

(** ** File-scope parameters (the anonymous namespace of the source) *)

(** The values [Mesh::InitUserMeshData] reads from the input file and from
    the mesh size ([x1min], [x1rat]).  The ambient and jet field components
    [bx_amb] ... [bz_jet] are left out: the boundary function does not read
    them. *)
Record Params : Type := mkParams {
  d_amb : R; p_amb : R; vx_amb : R; vy_amb : R; vz_amb : R;
  d_jet : R; p_jet : R; vx_jet : R; vy_jet : R; vz_jet : R;
  b_0 : R; z_0 : R;
  r_jet : R; dr_jet : R;
  mang : R; dang : R;
  gad : R;
  x1min : R; x1rat : R
}.

(** ** Mesh data seen by the boundary function *)

Inductive PrimVar : Type := IDN | IVX | IVY | IVZ | IPR.
Inductive FieldVar : Type := IB1 | IB2 | IB3.

Definition PrimVar_eq_dec (m n : PrimVar) : {m = n} + {m <> n}.
Proof. decide equality. Defined.

(** [AthenaArray<Real>] indexed (n,k,j,i), and the three face arrays of a
    [FaceField], indexed (k,j,i). *)
Definition PrimArray : Type := PrimVar -> Z -> Z -> Z -> R.
Definition FaceArray : Type := Z -> Z -> Z -> R.
Definition FieldArray : Type := FieldVar -> Z -> Z -> Z -> R.

Record FaceField : Type := mkFaceField {
  b_x1f : FaceArray; b_x2f : FaceArray; b_x3f : FaceArray
}.

(** Cell-centre and face positions, [pco->x1v(i)] and so on. *)
Record Coordinates : Type := mkCoordinates {
  x1v : Z -> R; x2v : Z -> R; x3v : Z -> R;
  x1f : Z -> R; x3f : Z -> R
}.

Definition same_cell (k j i k' j' i' : Z) : bool :=
  ((k' =? k) && (j' =? j) && (i' =? i))%Z%bool.

Definition prim_set (prim : PrimArray) (n : PrimVar) (k j i : Z) (v : R) : PrimArray :=
  fun n' k' j' i' =>
    if PrimVar_eq_dec n' n then
      if same_cell k j i k' j' i' then v else prim n' k' j' i'
    else prim n' k' j' i'.

Definition face_set (arr : FaceArray) (k j i : Z) (v : R) : FaceArray :=
  fun k' j' i' => if same_cell k j i k' j' i' then v else arr k' j' i'.

Definition set_x1f (b : FaceField) (k j i : Z) (v : R) : FaceField :=
  mkFaceField (face_set (b_x1f b) k j i v) (b_x2f b) (b_x3f b).
Definition set_x2f (b : FaceField) (k j i : Z) (v : R) : FaceField :=
  mkFaceField (b_x1f b) (face_set (b_x2f b) k j i v) (b_x3f b).
Definition set_x3f (b : FaceField) (k j i : Z) (v : R) : FaceField :=
  mkFaceField (b_x1f b) (b_x2f b) (face_set (b_x3f b) k j i v).

(** [for (int i = lo; i <= hi; ++i) body], threading the state and stopping
    at the first pass that does not return. *)
Definition index_range (lo hi : Z) : list Z :=
  map (fun n => (lo + Z.of_nat n)%Z) (seq 0 (Z.to_nat (hi - lo + 1))).

Fixpoint for_each {S : Type} (idx : list Z) (body : Z -> S -> option S) (s : S)
  : option S :=
  match idx with
  | [] => Some s
  | i :: rest =>
      match body i s with
      | Some s' => for_each rest body s'
      | None => None
      end
  end.

Definition for_loop {S : Type} (lo hi : Z) (body : Z -> S -> option S) (s : S)
  : option S :=
  for_each (index_range lo hi) body s.

Definition SQR (x : R) : R := x * x.

Section Globals.

Variable p : Params.

(** The parameter combinations computed once by [InitUserMeshData].  In the
    source they are stored file-scope variables; here they are functions of
    the parameter record the boundary function runs with, which therefore
    stands for the values [InitUserMeshData] read. *)
Definition gam_add : R := gad p / (gad p - 1).
Definition gamma_amb : R :=
  sqrt (1 + vx_amb p * vx_amb p + vy_amb p * vy_amb p + vz_amb p * vz_amb p).
Definition atw_amb : R := gamma_amb * gamma_amb * (d_amb p + gad p / (gad p - 1) * p_amb p).
Definition hg_amb : R := (1 + gad p / (gad p - 1) * p_amb p / d_amb p) * gamma_amb.
Definition rang_amb : R := vx_amb p / vz_amb p.
Definition phang_amb : R := vy_amb p / vz_amb p.
Definition gamma_jet : R :=
  sqrt (1 + vx_jet p * vx_jet p + vy_jet p * vy_jet p + vz_jet p * vz_jet p).
Definition atw_jet : R := gamma_jet * gamma_jet * (d_jet p + gad p / (gad p - 1) * p_jet p).
Definition hg_jet : R := (1 + gad p / (gad p - 1) * p_jet p / d_jet p) * gamma_jet.
Definition rang_jet : R := vx_jet p / vz_jet p.
Definition phang_jet : R := vy_jet p / vz_jet p.
Definition a : R := r_jet p / 2.
Definition d : R := 1 / (4 * dr_jet p * dr_jet p * dr_jet p).

(** ** SmoothStep *)

Definition SmoothStep (x : R) : R :=
  let modx := Rmax (Rmin x 1) (-1) in
  1 / 2 - modx * (3 - modx * modx) / 4.

(** ** Flux function *)

Definition fintg1 (x1 : R) : R :=
  b_0 p * ((a * a) / 2) * ln (a * a + x1 * x1).

Definition fintg2 (x1 : R) : R :=
  b_0 p * ((d * a * a) / 6) *
  (x1 * (-6 * a * a - 18 * dr_jet p * dr_jet p + 18 * r_jet p * r_jet p
         - 9 * r_jet p * x1 + 2 * x1 * x1)
   + 6 * a * (a * a + 3 * dr_jet p * dr_jet p - 3 * r_jet p * r_jet p) * atan (x1 / a)
   + (9 * r_jet p * a * a + 6 * dr_jet p * dr_jet p * dr_jet p
      + 9 * r_jet p * dr_jet p * dr_jet p - 3 * r_jet p * r_jet p * r_jet p)
     * ln (a * a + x1 * x1)).

(** The three branches of [flux_intg], named after the regions of the
    source radius they cover. *)
Definition flux_A (x1 : R) : R := fintg1 x1 - fintg1 (x1min p).
Definition flux_B (x1 : R) : R :=
  fintg2 x1 - fintg2 (r_jet p - dr_jet p) + fintg1 (r_jet p - dr_jet p) - fintg1 (x1min p).
Definition flux_C : R :=
  fintg2 (r_jet p + dr_jet p) - fintg2 (r_jet p - dr_jet p)
  + fintg1 (r_jet p - dr_jet p) - fintg1 (x1min p).

Definition flux_intg (x1 : R) : R :=
  if Rlt_dec x1 (r_jet p - dr_jet p) then flux_A x1
  else if Rge_dec x1 (r_jet p - dr_jet p) then
         if Rlt_dec x1 (r_jet p + dr_jet p) then flux_B x1 else flux_C
       else flux_C.

(** ** Field-line mapping *)

Definition rang (x1 : R) : R :=
  ((rang_jet - rang_amb) * SmoothStep ((x1 - r_jet p) / dr_jet p) + rang_amb)
  * (x1 - x1min p) / r_jet p.

Definition f (r_0 x1 x3 : R) : R :=
  r_0 + rang r_0 * z_0 p * (1 - exp (- x3 / z_0 p)) - x1.

(** The locals of [r0_r_z] that live across iterations of its loop. *)
Record loop_state : Type := mkLoop {
  ls_r1 : R; ls_r2 : R; ls_r3 : R; ls_diff : R
}.

Definition eps : R := 1 / 10000.
Definition tol : R := 1 / 100000.

(** One pass through the body of the [while] loop: either the [break] is
    taken with the current candidate, or the bracket is updated. *)
Inductive iter : Type :=
| Break (r3 : R)
| Continue (s : loop_state).

Definition secant (r1 r2 x1 x3 : R) : R :=
  r1 - f r1 x1 x3 * (r2 - r1) / (f r2 x1 x3 - f r1 x1 x3).

Definition loop_body (x1 x3 : R) (s : loop_state) : iter :=
  let r1 := ls_r1 s in
  let r2 := ls_r2 s in
  let r3 := secant r1 r2 x1 x3 in
  let diff := Rabs (r1 - r2) in
  let f_mul := f r1 x1 x3 * f r3 x1 x3 in
  if Rlt_dec (Rabs (f r3 x1 x3)) tol then Break r3
  else if Rlt_dec f_mul 0 then Continue (mkLoop r1 r3 r3 diff)
  else Continue (mkLoop r3 r2 r3 diff).

Fixpoint while_loop (fuel : nat) (x1 x3 : R) (s : loop_state) : option R :=
  if Rgt_dec (ls_diff s) eps then
    match fuel with
    | O => None
    | S n =>
        match loop_body x1 x3 s with
        | Break r3 => Some r3
        | Continue s' => while_loop n x1 x3 s'
        end
    end
  else Some (ls_r3 s).

(** The state on entry to the loop.  The source declares [r3] without an
    initialiser; [diff = 1 > eps] makes the first pass run and assign it
    before it is read, so the model's starting value [0] is never
    observed (lemma [while_loop_entry_r3]). *)
Definition loop_entry (r3 : R) : loop_state :=
  mkLoop (x1min p) (r_jet p + dr_jet p) r3 1.

Definition r0_r_z (fuel : nat) (x1 x3 : R) : option R :=
  if Rlt_dec x1 (r_jet p + dr_jet p) then
    if Rgt_dec x1 (x1min p) then
      let r1 := x1min p in
      let r2 := r_jet p + dr_jet p in
      if Rlt_dec (Rabs (f r1 x1 x3)) tol then Some r1
      else if Rlt_dec (Rabs (f r2 x1 x3)) tol then Some r2
      else while_loop fuel x1 x3 (loop_entry 0)
    else if Rle_dec x1 (x1min p) then Some (x1min p) else Some x1
  else if Rle_dec x1 (x1min p) then Some (x1min p) else Some x1.

Definition A2 (fuel : nat) (x1 x3 : R) : option R :=
  match r0_r_z fuel x1 x3 with
  | Some r0 => Some (flux_intg r0 / x1)
  | None => None
  end.

(** ** The boundary function [JetInnerX3] *)

(** Compile-time switch and the field routine of the framework, neither of
    which is defined in this file. *)
Variable MAGNETIC_FIELDS_ENABLED : bool.
Variable CalculateCellCenteredField :
  FaceField -> Coordinates -> Z -> Z -> Z -> Z -> Z -> Z -> FieldArray.

(** The locals of the innermost loop body of the primitive fill that the
    stored values are built from. *)
Record cell_locals : Type := mkLocals {
  smfnc : R; step : R; phang : R; Bphi_const : R;
  bern_sm : R; bern_sm_np : R; atwd_sm : R;
  Psi : R; Psi_np : R; gamma : R; gamma_np : R
}.

Definition ghost_locals (r_0 phi : R) : cell_locals :=
  let rad := r_0 in
  let pert := 1 + dang p * cos (phi * mang p) in
  let rad := rad * pert in
  let smfnc := SmoothStep ((r_0 - r_jet p) / dr_jet p) in
  let step := SmoothStep ((rad - r_jet p) / dr_jet p) in
  let atw := (atw_jet - atw_amb) * smfnc + atw_amb in
  let hg := (hg_jet - hg_amb) * smfnc + hg_amb in
  let phang := (phang_jet - phang_amb) * smfnc + phang_amb in
  let phang := phang * ((r_0 - x1min p) / r_jet p) in
  let p_ := p_amb p in
  let gamma_amb :=
    sqrt (1 + vx_amb p * vx_amb p + vy_amb p * vy_amb p + vz_amb p * vz_amb p) in
  let gamma_jet :=
    sqrt (1 + vx_jet p * vx_jet p + vy_jet p * vy_jet p + vz_jet p * vz_jet p) in
  let Bphi_const := (b_0 p * a * r_jet p / (a * a + r_jet p * r_jet p)) * smfnc in
  let smfnc_c := SmoothStep ((x1min p - r_jet p) / dr_jet p) in
  let b_phi_cen := (b_0 p * a * x1min p / (a * a + x1min p * x1min p)) * smfnc_c in
  let p_cen := p_amb p in
  let bern_jet :=
    (1 + (gam_add * p_cen / d_jet p)) * gamma_jet
    + (1 / (gamma_jet * d_jet p)) * (b_phi_cen * b_phi_cen) in
  let bern_amb := (1 + (gam_add * p_amb p / d_amb p)) * gamma_amb in
  let bern_sm := (bern_jet - bern_amb) * step + bern_amb in
  let bern_sm_np := (bern_jet - bern_amb) * smfnc + bern_amb in
  let atwd_jet := gamma_jet * gamma_jet * (d_jet p + gam_add * p_cen) in
  let atwd_amb := gamma_amb * gamma_amb * (d_amb p + gam_add * p_amb p) in
  let atwd_sm := (atwd_jet - atwd_amb) * smfnc + atwd_amb in
  let Psi := (atwd_sm + Bphi_const * Bphi_const) / bern_sm in
  let Psi_np := (atwd_sm + Bphi_const * Bphi_const) / bern_sm_np in
  let gamma :=
    (Psi / (2 * gam_add * p_))
    * (sqrt (1 + (4 * gam_add * p_ * atwd_sm) / (Psi * Psi)) - 1) in
  let gamma_np :=
    (Psi_np / (2 * gam_add * p_))
    * (sqrt (1 + (4 * gam_add * p_ * atwd_sm) / (Psi_np * Psi_np)) - 1) in
  mkLocals smfnc step phang Bphi_const bern_sm bern_sm_np atwd_sm
           Psi Psi_np gamma gamma_np.

(** Body of the innermost loop of the primitive fill, for the ghost cell
    [(kk,j,i)] with [kk = kl-k]. *)
Definition prim_cell (pco : Coordinates) (kk j i : Z) (r_0 z : R) (prim : PrimArray)
  : PrimArray :=
  let prim := prim_set prim IPR kk j i (p_amb p) in
  let c := ghost_locals r_0 (x2v pco j) in
  let prim :=
    prim_set prim IVZ kk j i
      (sqrt ((gamma_np c * gamma_np c - 1)
             / (1 + SQR (rang r_0) * exp (-2 * z / z_0 p) + phang c * phang c))) in
  let prim := prim_set prim IVX kk j i (prim IVZ kk j i * rang r_0 * exp (- z / z_0 p)) in
  let prim := prim_set prim IVY kk j i (prim IVZ kk j i * phang c) in
  let prim := prim_set prim IDN kk j i (Psi c / gamma c) in
  prim.

Definition prim_fill (fuel : nat) (pco : Coordinates) (il iu jl ju kl ngh : Z) (prim : PrimArray)
  : option PrimArray :=
  for_loop 1 ngh (fun k prim =>
    let z := x3v pco (kl - k)%Z in
    for_loop il iu (fun i prim =>
      let r := x1v pco i in
      match r0_r_z fuel r z with
      | None => None
      | Some r_0 =>
          for_loop jl ju (fun j prim =>
            Some (prim_cell pco (kl - k)%Z j i r_0 z prim)) prim
      end) prim) prim.

Definition x1f_fill (fuel : nat) (pco : Coordinates) (il iu jl ju kl ngh : Z) (b : FaceField)
  : option FaceField :=
  for_loop 1 ngh (fun k b =>
    for_loop jl ju (fun j b =>
      for_loop il (iu + 1)%Z (fun i b =>
        let rf := x1f pco i in
        let zf := x3f pco (kl - k)%Z in
        let zf_p1 := x3f pco (kl - k + 1)%Z in
        let delz := x3v pco (k + 1)%Z - x3v pco k in
        if Rlt_dec rf (x1min p) then
          let mir_r := 2 * x1min p - rf in
          match A2 fuel mir_r zf, A2 fuel mir_r zf_p1 with
          | Some A, Some A_p1 => Some (set_x1f b (kl - k)%Z j i (- (A - A_p1) / delz))
          | _, _ => None
          end
        else
          match A2 fuel rf zf, A2 fuel rf zf_p1 with
          | Some A, Some A_p1 => Some (set_x1f b (kl - k)%Z j i ((A - A_p1) / delz))
          | _, _ => None
          end) b) b) b.

Definition x2f_fill (fuel : nat) (pco : Coordinates) (il iu jl ju kl ngh : Z) (b : FaceField)
  : option FaceField :=
  for_loop 1 ngh (fun k b =>
    for_loop jl (ju + 1)%Z (fun j b =>
      for_loop il iu (fun i b =>
        let r := x1v pco i in
        let z := x3v pco (kl - k)%Z in
        match r0_r_z fuel r z with
        | None => None
        | Some r_0 =>
            let smfnc := SmoothStep ((r_0 - r_jet p) / dr_jet p) in
            Some (set_x2f b (kl - k)%Z j i 0)
        end) b) b) b.

Definition x3f_fill (fuel : nat) (pco : Coordinates) (il iu jl ju kl ngh : Z) (b : FaceField)
  : option FaceField :=
  for_loop 1 ngh (fun k b =>
    for_loop jl ju (fun j b =>
      for_loop il iu (fun i b =>
        let rf := x1f pco i in
        let rf_p1 := x1f pco (i + 1)%Z in
        let zf := x3f pco (kl - k)%Z in
        if Rlt_dec rf (x1min p) then
          let r_sym := x1v pco (il + 1)%Z in
          let mir_r := 2 * r_sym - rf in
          let mir_r_p1 :=
            if Rgt_dec (x1rat p) 1 then x1rat p * mir_r else mir_r + rf_p1 - rf in
          match A2 fuel mir_r_p1 zf, A2 fuel mir_r zf with
          | Some A_p1, Some A =>
              Some (set_x3f b (kl - k)%Z j i
                      (2 * (mir_r_p1 * A_p1 - mir_r * A) / (SQR mir_r_p1 - SQR mir_r)))
          | _, _ => None
          end
        else
          match A2 fuel rf_p1 zf, A2 fuel rf zf with
          | Some A_p1, Some A =>
              Some (set_x3f b (kl - k)%Z j i
                      (2 * (rf_p1 * A_p1 - rf * A) / (SQR rf_p1 - SQR rf)))
          | _, _ => None
          end) b) b) b.

Definition vx_from_field (pco : Coordinates) (il iu jl ju kl ngh : Z)
    (bc : FieldArray) (prim : PrimArray) : option PrimArray :=
  for_loop 1 ngh (fun k prim =>
    for_loop il iu (fun i prim =>
      let r := x1v pco i in
      if Rle_dec r (r_jet p + dr_jet p) then
        for_loop jl ju (fun j prim =>
          Some (prim_set prim IVX (kl - k)%Z j i
                  (prim IVZ (kl - k)%Z j i * bc IB1 (kl - k)%Z j i / bc IB3 (kl - k)%Z j i)))
          prim
      else Some prim) prim) prim.

Definition JetInnerX3 (fuel : nat) (pco : Coordinates) (prim : PrimArray) (b : FaceField)
    (il iu jl ju kl ku ngh : Z) : option (PrimArray * FaceField) :=
  match prim_fill fuel pco il iu jl ju kl ngh prim with
  | None => None
  | Some prim =>
      if MAGNETIC_FIELDS_ENABLED then
        match x1f_fill fuel pco il iu jl ju kl ngh b with
        | None => None
        | Some b =>
        match x2f_fill fuel pco il iu jl ju kl ngh b with
        | None => None
        | Some b =>
        match x3f_fill fuel pco il iu jl ju kl ngh b with
        | None => None
        | Some b =>
            let bc := CalculateCellCenteredField b pco il iu jl ju (kl - ngh)%Z ku in
            match vx_from_field pco il iu jl ju kl ngh bc prim with
            | None => None
            | Some prim => Some (prim, b)
            end
        end end end
      else Some (prim, b)
  end.

End Globals.

(** ** Mesh block data *)

(** The members of [MeshBlock] that [ProblemGenerator] and
    [RefinementCondition] read or write: the index bounds of the block
    ([is_] stands for [is]), [block_size.nx2] and [block_size.nx3], the
    coordinates, the hydro arrays [phydro->w], [phydro->w1], [phydro->u] and
    the field arrays [pfield->b], [pfield->bcc]. *)
Record MeshBlock : Type := mkMeshBlock {
  is_ : Z; ie : Z; js : Z; je : Z; ks : Z; ke : Z;
  nx2 : Z; nx3 : Z;
  pcoord : Coordinates;
  phydro_w : PrimArray; phydro_w1 : PrimArray; phydro_u : PrimArray;
  pfield_b : FaceField; pfield_bcc : FieldArray
}.

(** The index enumerators [IM1], [IM2], [IM3] of the framework have the
    values of [IVX], [IVY], [IVZ]. *)
Definition IM1 : PrimVar := IVX.
Definition IM2 : PrimVar := IVY.
Definition IM3 : PrimVar := IVZ.

(** [for (int i = lo; i <= hi; i++) body] for a body that always returns. *)
Definition fold_loop {S : Type} (lo hi : Z) (body : Z -> S -> S) (s : S) : S :=
  fold_left (fun s i => body i s) (index_range lo hi) s.

(** ** The refinement condition *)

Definition RefinementCondition (pmb : MeshBlock) : Z :=
  let w := phydro_w pmb in
  let bcc := pfield_bcc pmb in
  let maxsig := 0 in
  let maxsig :=
    fold_loop (ks pmb) (ke pmb) (fun k maxsig =>
      fold_loop (js pmb) (je pmb) (fun j maxsig =>
        fold_loop (is_ pmb) (ie pmb) (fun i maxsig =>
          let Bsqc := bcc IB1 k j i * bcc IB1 k j i + bcc IB2 k j i * bcc IB2 k j i
                      + bcc IB3 k j i * bcc IB3 k j i in
          let sigma_M := Bsqc / w IDN k j i in
          if Rlt_dec maxsig sigma_M then sigma_M else maxsig) maxsig) maxsig) maxsig in
  if Rgt_dec maxsig (1 / 100) then 1%Z else 0%Z.

(** ** The problem generator *)

(** [gad = peos->GetGamma()]: the one file-scope parameter
    [ProblemGenerator] assigns.  ([gm1], assigned beside it, is read nowhere
    in the file.)  The source does not recompute the stored combinations
    ([gam_add] and the Atwood and Bernoulli values) after this assignment,
    whereas here they follow [gad]: the record after [set_gad] stands for the
    source's parameters in everything that does not read them, which is the
    flux function, the solver and the face fields. *)
Definition set_gad (p : Params) (g : R) : Params :=
  mkParams (d_amb p) (p_amb p) (vx_amb p) (vy_amb p) (vz_amb p)
           (d_jet p) (p_jet p) (vx_jet p) (vy_jet p) (vz_jet p)
           (b_0 p) (z_0 p) (r_jet p) (dr_jet p) (mang p) (dang p)
           g (x1min p) (x1rat p).

Section GeneratorLoops.

Variable p : Params.

(** The ambient azimuthal field, a file-scope parameter that only
    [ProblemGenerator] reads. *)
Variable by_amb : R.

(** Compile-time configuration and the routines of the coordinates, none of
    which is defined in this file: whether [COORDINATE_SYSTEM] is the string
    [cylindrical], and the face areas and edge lengths
    ([Face1Area (k, j, il, iu, area)] stores [area (i)] for [il <= i <= iu],
    and so on). *)
Variable cylindrical : bool.
Variables Face1Area Edge2Length Face3Area : Coordinates -> Z -> Z -> Z -> R.

Definition ambient_fill (il iu jl ju kl ku : Z) (ww : PrimArray * PrimArray)
  : option (PrimArray * PrimArray) :=
  for_loop kl ku (fun k ww =>
    for_loop jl ju (fun j ww =>
      for_loop il iu (fun i '(w, w1) =>
        let w1 := prim_set w1 IDN k j i (d_amb p) in
        let w := prim_set w IDN k j i (d_amb p) in
        let '(w, w1) :=
          if cylindrical then
            let w1 := prim_set w1 IM1 k j i (vx_amb p) in
            let w := prim_set w IM1 k j i (vx_amb p) in
            let w1 := prim_set w1 IM2 k j i (vy_amb p) in
            let w := prim_set w IM2 k j i (vy_amb p) in
            let w1 := prim_set w1 IM3 k j i (vz_amb p) in
            let w := prim_set w IM3 k j i (vz_amb p) in
            (w, w1)
          else
            let w1 := prim_set w1 IM1 k j i (vx_amb p) in
            let w := prim_set w IM1 k j i (vx_amb p) in
            let w1 := prim_set w1 IM2 k j i (vy_amb p) in
            let w := prim_set w IM2 k j i (vy_amb p) in
            let w1 := prim_set w1 IM3 k j i (vz_amb p) in
            let w := prim_set w IM3 k j i (vz_amb p) in
            (w, w1) in
        let w1 := prim_set w1 IPR k j i (p_amb p) in
        let w := prim_set w IPR k j i (p_amb p) in
        Some (w, w1)) ww) ww) ww.

Definition init_x1f (fuel : nat) (pco : Coordinates) (il iu jl ju kl ku : Z) (b : FaceField)
  : option FaceField :=
  for_loop kl ku (fun k b =>
    for_loop jl ju (fun j b =>
      let area := Face1Area pco k j in
      let len := Edge2Length pco k j in
      let len_p1 := Edge2Length pco (k + 1)%Z j in
      for_loop il (iu + 1)%Z (fun i b =>
        let rf := x1f pco i in
        let zf := x3f pco k in
        let zf_p1 := x3f pco (k + 1)%Z in
        match A2 p fuel rf zf_p1, A2 p fuel rf zf with
        | Some A_p1, Some A =>
            Some (set_x1f b k j i (- (len_p1 i * A_p1 - len i * A) / area i))
        | _, _ => None
        end) b) b) b.

Definition init_x2f (il iu jl ju kl ku : Z) (b : FaceField) : option FaceField :=
  for_loop kl ku (fun k b =>
    for_loop jl (ju + 1)%Z (fun j b =>
      for_loop il iu (fun i b => Some (set_x2f b k j i by_amb)) b) b) b.

Definition init_x3f (fuel : nat) (pco : Coordinates) (il iu jl ju kl ku : Z) (b : FaceField)
  : option FaceField :=
  for_loop kl (ku + 1)%Z (fun k b =>
    for_loop jl ju (fun j b =>
      let area := Face3Area pco k j in
      let len := Edge2Length pco k j in
      for_loop il iu (fun i b =>
        let rf := x1f pco i in
        let rf_p1 := x1f pco (i + 1)%Z in
        let zf := x3f pco k in
        match A2 p fuel rf_p1 zf, A2 p fuel rf zf with
        | Some A_p1, Some A =>
            Some (set_x3f b k j i ((len (i + 1)%Z * A_p1 - len i * A) / area i))
        | _, _ => None
        end) b) b) b.

End GeneratorLoops.

Section Generator.

Variable p : Params.
Variable by_amb : R.

(** The switch for magnetic fields, the ghost zone width, the adiabatic
    index of the equation of state, and the routines of the framework that
    compute the cell-centred field and the conserved variables into their
    output arrays. *)
Variable MAGNETIC_FIELDS_ENABLED : bool.
Variable NGHOST : Z.
Variable cylindrical : bool.
Variable GetGamma : R.
Variables Face1Area Edge2Length Face3Area : Coordinates -> Z -> Z -> Z -> R.
Variable CalculateCellCenteredField :
  FaceField -> FieldArray -> Coordinates -> Z -> Z -> Z -> Z -> Z -> Z -> FieldArray.
Variable PrimitiveToConserved :
  PrimArray -> FieldArray -> PrimArray -> Coordinates -> Z -> Z -> Z -> Z -> Z -> Z
  -> PrimArray.

(** The index bounds [ProblemGenerator] prepares: the block extended by the
    ghost zones, in the second and third direction only where the block has
    more than one cell. *)
Definition generator_bounds (pmb : MeshBlock) : Z * Z * Z * Z * Z * Z :=
  let il := (is_ pmb - NGHOST)%Z in
  let iu := (ie pmb + NGHOST)%Z in
  let jl := js pmb in
  let ju := je pmb in
  let '(jl, ju) :=
    if (1 <? nx2 pmb)%Z then ((jl - NGHOST)%Z, (ju + NGHOST)%Z) else (jl, ju) in
  let kl := ks pmb in
  let ku := ke pmb in
  let '(kl, ku) :=
    if (1 <? nx3 pmb)%Z then ((kl - NGHOST)%Z, (ku + NGHOST)%Z) else (kl, ku) in
  (il, iu, jl, ju, kl, ku).

(** The result is the parameter set after the assignment of [gad], which the
    rest of the function runs with, and the mesh block with its arrays as
    the function leaves them. *)
Definition ProblemGenerator (fuel : nat) (pmb : MeshBlock) : option (Params * MeshBlock) :=
  let gm1 := GetGamma - 1 in
  let p := set_gad p GetGamma in
  let '(il, iu, jl, ju, kl, ku) := generator_bounds pmb in
  let pco := pcoord pmb in
  match ambient_fill p cylindrical il iu jl ju kl ku (phydro_w pmb, phydro_w1 pmb) with
  | None => None
  | Some (w, w1) =>
      if MAGNETIC_FIELDS_ENABLED then
        match init_x1f p Face1Area Edge2Length fuel pco il iu jl ju kl ku (pfield_b pmb) with
        | None => None
        | Some b =>
        match init_x2f by_amb il iu jl ju kl ku b with
        | None => None
        | Some b =>
        match init_x3f p Edge2Length Face3Area fuel pco il iu jl ju kl ku b with
        | None => None
        | Some b =>
            let bcc :=
              CalculateCellCenteredField b (pfield_bcc pmb) pco il iu jl ju kl ku in
            let u :=
              PrimitiveToConserved w bcc (phydro_u pmb) pco il iu jl ju kl ku in
            Some (p, mkMeshBlock (is_ pmb) (ie pmb) (js pmb) (je pmb) (ks pmb) (ke pmb)
                        (nx2 pmb) (nx3 pmb) pco w w1 u b bcc)
        end end end
      else
        Some (p, mkMeshBlock (is_ pmb) (ie pmb) (js pmb) (je pmb) (ks pmb) (ke pmb)
                    (nx2 pmb) (nx3 pmb) pco w w1 (phydro_u pmb)
                    (pfield_b pmb) (pfield_bcc pmb))
  end.

End Generator.

(** * Vocabulary of the specification *)

(** The invariant the specification puts on the physical parameters:
    jet radius and transition half-width are positive. *)
Definition well_formed (p : Params) : Prop := 0 < r_jet p /\ 0 < dr_jet p.

(** The argument of [SmoothStep] after clamping ([modx] in the source). *)
Definition clamp (x : R) : R := Rmax (Rmin x 1) (-1).

Section SolverVocabulary.

Variable p : Params.
Variables x1 x3 : R.

(** States the loop of [r0_r_z] can be in at the top of an iteration,
    starting from [s]. *)
Inductive reaches (s : loop_state) : loop_state -> Prop :=
| reaches_here : reaches s s
| reaches_next s' s'' :
    reaches s s' -> ls_diff s' > eps -> loop_body p x1 x3 s' = Continue s'' ->
    reaches s s''.

(** A sign-changing bracket inside [[lo, hi]] whose ends both miss the
    residual tolerance, with a candidate that is either not yet readable
    (the loop guard still holds) or inside the interval. *)
Definition bracket_inv (lo hi : R) (s : loop_state) : Prop :=
  lo <= ls_r1 s /\ ls_r1 s < ls_r2 s /\ ls_r2 s <= hi
  /\ f p (ls_r1 s) x1 x3 * f p (ls_r2 s) x1 x3 < 0
  /\ tol <= Rabs (f p (ls_r1 s) x1 x3) /\ tol <= Rabs (f p (ls_r2 s) x1 x3)
  /\ (ls_diff s > eps \/ lo <= ls_r3 s <= hi).

End SolverVocabulary.

Section LipschitzConstants.

Variable p : Params.

(** The blended opening-angle ratio, first factor of [rang]. *)
Definition rang_weight (x : R) : R :=
  (rang_jet p - rang_amb p) * SmoothStep ((x - r_jet p) / dr_jet p) + rang_amb p.

(** Lipschitz constants of [rang] and of the residual [f] on the initial
    bracket [[x1min, r_jet + dr_jet]]. *)
Definition lipschitz_rang : R :=
  ((Rabs (rang_jet p - rang_amb p) + Rabs (rang_amb p))
   + (r_jet p + dr_jet p - x1min p)
     * (Rabs (rang_jet p - rang_amb p) * (3 / 4 / dr_jet p)))
  / r_jet p.

Definition lipschitz_f (x3 : R) : R :=
  1 + lipschitz_rang * Rabs (z_0 p * (1 - exp (- x3 / z_0 p))).

(** Enough fuel for the loop of [r0_r_z] at axial position [x3]: the
    initial bracket width over the least shrink [tol / lipschitz_f] of a
    pass. *)
Definition iter_bound (x3 : R) : nat :=
  Z.to_nat (up ((r_jet p + dr_jet p - x1min p) * lipschitz_f x3 / tol)).

End LipschitzConstants.

Section FluxVocabulary.

Variable p : Params.

(** Slope of the Region A profile: the azimuthal-field profile
    [b_0 a^2 x / (a^2 + x^2)]. *)
Definition slope_A (x : R) : R := b_0 p * (a p * a p) * x / (a p * a p + x * x).

(** The cubic that the Region B profile multiplies that slope by; it is the
    unclamped [SmoothStep] polynomial in [(x - r_jet) / dr_jet]. *)
Definition blend_B (x : R) : R :=
  d p * ((x - r_jet p) * (x - r_jet p) * (x - r_jet p)
         - 3 * dr_jet p * dr_jet p * (x - r_jet p)
         + 2 * dr_jet p * dr_jet p * dr_jet p).

End FluxVocabulary.

Definition in_range (lo hi k : Z) : bool := ((lo <=? k) && (k <=? hi))%Z%bool.

Section LoopVocabulary.

Context {S X V : Type}.
Variable obs : X -> S -> V.
Variable Inv : S -> Prop.
Variable post : X -> V -> Prop.

(** What one pass, or a whole loop, does to the observations [obs x] of
    its state: the points marked by [w] satisfy [post] afterwards, the
    others are left as they were, and [Inv] is kept. *)
Definition writes (w : X -> bool) (s s' : S) : Prop :=
  Inv s' /\ forall x, if w x then post x (obs x s') else obs x s' = obs x s.

End LoopVocabulary.

(** Arrays observed at one index tuple. *)
Definition prim_at (x : PrimVar * Z * Z * Z) (prim : PrimArray) : R :=
  let '(n, k, j, i) := x in prim n k j i.

Definition face_at (x : FieldVar * Z * Z * Z) (b : FaceField) : R :=
  let '(c, k, j, i) := x in
  match c with
  | IB1 => b_x1f b k j i
  | IB2 => b_x2f b k j i
  | IB3 => b_x3f b k j i
  end.

Section BoundaryVocabulary.

Variable p : Params.
Variable fuel : nat.
Variable pco : Coordinates.

(** The value the primitive fill stores for variable [n] in a ghost cell
    with mapped radius [r_0], axial position [z] and azimuth [phi]. *)
Definition cell_value (n : PrimVar) (r_0 z phi : R) : R :=
  let c := ghost_locals p r_0 phi in
  let vz :=
    sqrt ((gamma_np c * gamma_np c - 1)
          / (1 + SQR (rang p r_0) * exp (-2 * z / z_0 p) + phang c * phang c)) in
  match n with
  | IDN => Psi c / gamma c
  | IVX => vz * rang p r_0 * exp (- z / z_0 p)
  | IVY => vz * phang c
  | IVZ => vz
  | IPR => p_amb p
  end.

(** The values the face fills store at radial face [i] of ghost row
    [kl - k]; [None] when a call of [A2] does not return. *)
Definition x1f_value (kl k i : Z) : option R :=
  let rf := x1f pco i in
  let zf := x3f pco (kl - k)%Z in
  let zf_p1 := x3f pco (kl - k + 1)%Z in
  let delz := x3v pco (k + 1)%Z - x3v pco k in
  if Rlt_dec rf (x1min p) then
    let mir_r := 2 * x1min p - rf in
    match A2 p fuel mir_r zf, A2 p fuel mir_r zf_p1 with
    | Some A, Some A_p1 => Some (- (A - A_p1) / delz)
    | _, _ => None
    end
  else
    match A2 p fuel rf zf, A2 p fuel rf zf_p1 with
    | Some A, Some A_p1 => Some ((A - A_p1) / delz)
    | _, _ => None
    end.

Definition x3f_value (il kl k i : Z) : option R :=
  let rf := x1f pco i in
  let rf_p1 := x1f pco (i + 1)%Z in
  let zf := x3f pco (kl - k)%Z in
  if Rlt_dec rf (x1min p) then
    let r_sym := x1v pco (il + 1)%Z in
    let mir_r := 2 * r_sym - rf in
    let mir_r_p1 :=
      if Rgt_dec (x1rat p) 1 then x1rat p * mir_r else mir_r + rf_p1 - rf in
    match A2 p fuel mir_r_p1 zf, A2 p fuel mir_r zf with
    | Some A_p1, Some A =>
        Some (2 * (mir_r_p1 * A_p1 - mir_r * A) / (SQR mir_r_p1 - SQR mir_r))
    | _, _ => None
    end
  else
    match A2 p fuel rf_p1 zf, A2 p fuel rf zf with
    | Some A_p1, Some A => Some (2 * (rf_p1 * A_p1 - rf * A) / (SQR rf_p1 - SQR rf))
    | _, _ => None
    end.

(** Ghost rows are the rows [kl - k] with [1 <= k <= ngh]. *)
Definition ghost_row (kl ngh kk : Z) : bool := in_range 1 ngh (kl - kk).

(** Index boxes of the four loop nests. *)
Definition cell_box (il iu jl ju kl ngh : Z) (kk j i : Z) : bool :=
  ghost_row kl ngh kk && in_range jl ju j && in_range il iu i.

Definition prim_box (il iu jl ju kl ngh : Z) (x : PrimVar * Z * Z * Z) : bool :=
  let '(_, kk, j, i) := x in cell_box il iu jl ju kl ngh kk j i.

Definition face_box (c0 : FieldVar) (il iu jl ju kl ngh : Z)
    (x : FieldVar * Z * Z * Z) : bool :=
  let '(c, kk, j, i) := x in
  match c0, c with
  | IB1, IB1 | IB2, IB2 | IB3, IB3 => cell_box il iu jl ju kl ngh kk j i
  | _, _ => false
  end.

(** What the loop nests leave at an index they write. *)
Definition prim_written (x : PrimVar * Z * Z * Z) (v : R) : Prop :=
  let '(n, kk, j, i) := x in
  exists r_0, r0_r_z p fuel (x1v pco i) (x3v pco kk) = Some r_0
              /\ v = cell_value n r_0 (x3v pco kk) (x2v pco j).

Definition x1f_written (kl : Z) (x : FieldVar * Z * Z * Z) (v : R) : Prop :=
  let '(_, kk, _, i) := x in x1f_value kl (kl - kk) i = Some v.

Definition x2f_written (x : FieldVar * Z * Z * Z) (v : R) : Prop := v = 0.

Definition x3f_written (il kl : Z) (x : FieldVar * Z * Z * Z) (v : R) : Prop :=
  let '(_, kk, _, i) := x in x3f_value il kl (kl - kk) i = Some v.

(** The near-core cells whose radial velocity the field override rewrites. *)
Definition near_core (i : Z) : bool :=
  if Rle_dec (x1v pco i) (r_jet p + dr_jet p) then true else false.

Definition vx_box (il iu jl ju kl ngh : Z) (x : PrimVar * Z * Z * Z) : bool :=
  let '(n, kk, j, i) := x in
  match n with
  | IVX => cell_box il iu jl ju kl ngh kk j i && near_core i
  | _ => false
  end.

Definition vx_written (bc : FieldArray) (prim0 : PrimArray)
    (x : PrimVar * Z * Z * Z) (v : R) : Prop :=
  let '(_, kk, j, i) := x in
  v = prim0 IVZ kk j i * bc IB1 kk j i / bc IB3 kk j i.

Definition keeps_vz (prim0 prim : PrimArray) : Prop :=
  forall kk j i, prim IVZ kk j i = prim0 IVZ kk j i.

(** Every call of the root-solve that a boundary fill over the given index
    ranges makes returns within the fuel. *)
Definition samples_solved (mhd : bool) (il iu kl ngh : Z) : Prop :=
  (forall k i, (1 <= k <= ngh)%Z -> (il <= i <= iu)%Z ->
               r0_r_z p fuel (x1v pco i) (x3v pco (kl - k)) <> None)
  /\ (mhd = true ->
      (forall k i, (1 <= k <= ngh)%Z -> (il <= i <= iu + 1)%Z ->
                   x1f_value kl k i <> None)
      /\ (forall k i, (1 <= k <= ngh)%Z -> (il <= i <= iu)%Z ->
                      x3f_value il kl k i <> None)).

End BoundaryVocabulary.

(** ** The boundary state in the words of the specification *)

(** Closed-form inversion for the bulk Lorentz factor, with [k] the adiabatic
    exponent ratio and [pr] the pressure. *)
Definition lorentz_factor (Psi k pr atwoodMixed : R) : R :=
  Psi / (2 * k * pr) * (sqrt (1 + 4 * k * pr * atwoodMixed / Psi ^ 2) - 1).

Definition bernoulli_invariant (atwoodMixed Bphi bernoulliMixed : R) : R :=
  (atwoodMixed + Bphi ^ 2) / bernoulliMixed.

(** A jet value and an ambient value blended with weight [w]. *)
Definition blend (jet amb w : R) : R := (jet - amb) * w + amb.

Section StateVocabulary.

Variable p : Params.

(** Smoothing weight at a mapped radius, and the radius rippled by the
    azimuthal perturbation. *)
Definition weight (r : R) : R := SmoothStep ((r - r_jet p) / dr_jet p).

Definition perturbed_radius (r_0 phi : R) : R :=
  r_0 * (1 + dang p * cos (mang p * phi)).

Definition adiabatic_ratio : R := gad p / (gad p - 1).

(** Jet and ambient invariants that the synthesizer blends; the pressure is
    the ambient one on both sides. *)
Definition atwood_jet : R :=
  gamma_jet p * gamma_jet p * (d_jet p + adiabatic_ratio * p_amb p).
Definition atwood_amb : R :=
  gamma_amb p * gamma_amb p * (d_amb p + adiabatic_ratio * p_amb p).
Definition bernoulli_jet : R :=
  (1 + adiabatic_ratio * p_amb p / d_jet p) * gamma_jet p
  + 1 / (gamma_jet p * d_jet p)
    * (b_0 p * a p * x1min p / (a p * a p + x1min p * x1min p) * weight (x1min p)) ^ 2.
Definition bernoulli_amb : R :=
  (1 + adiabatic_ratio * p_amb p / d_amb p) * gamma_amb p.

Definition atwoodMixed (w : R) : R := blend atwood_jet atwood_amb w.
Definition bernoulliMixed (w : R) : R := blend bernoulli_jet bernoulli_amb w.
Definition Bphi (w : R) : R := b_0 p * a p * r_jet p / (a p * a p + r_jet p * r_jet p) * w.

(** [Psi] and the Lorentz factor when the Atwood blend and the azimuthal
    field use weight [w] and the Bernoulli blend uses weight [wb]. *)
Definition Psi_of (w wb : R) : R :=
  bernoulli_invariant (atwoodMixed w) (Bphi w) (bernoulliMixed wb).

Definition lorentz_of (w wb : R) : R :=
  lorentz_factor (Psi_of w wb) adiabatic_ratio (p_amb p) (atwoodMixed w).

(** Density with the Bernoulli blend weighted by [wb]. *)
Definition density_of (r_0 wb : R) : R :=
  Psi_of (weight r_0) wb / lorentz_of (weight r_0) wb.

(** Velocities, all weights taken at the unperturbed mapped radius. *)
Definition azimuthalRatio (r_0 : R) : R :=
  blend (phang_jet p) (phang_amb p) (weight r_0) * ((r_0 - x1min p) / r_jet p).

Definition vz_of (r_0 z : R) : R :=
  sqrt ((lorentz_of (weight r_0) (weight r_0) ^ 2 - 1)
        / (1 + rang p r_0 ^ 2 * exp (-2 * z / z_0 p) + azimuthalRatio r_0 ^ 2)).

Definition vx_of (r_0 z : R) : R := vz_of r_0 z * rang p r_0 * exp (- z / z_0 p).

Definition vy_of (r_0 z : R) : R := vz_of r_0 z * azimuthalRatio r_0.

End StateVocabulary.

(** ** A sample configuration

    A jet without opening angle (no radial velocity on either side) in a
    one-cell ghost zone; used to exhibit inputs that meet the hypotheses of
    the theorems. *)

Definition straight_jet : Params :=
  {| d_amb := 1; p_amb := 1 / 100; vx_amb := 0; vy_amb := 0; vz_amb := 1;
     d_jet := 1 / 10; p_jet := 1 / 100; vx_jet := 0; vy_jet := 0; vz_jet := 5;
     b_0 := 1; z_0 := 1; r_jet := 1; dr_jet := 1 / 10;
     mang := 2; dang := 1 / 10; gad := 4 / 3; x1min := 0; x1rat := 1 |}.

Definition flat_jet : Params :=
  {| d_amb := 1; p_amb := 1 / 100; vx_amb := 0; vy_amb := 0; vz_amb := 1;
     d_jet := 1 / 10; p_jet := 1 / 100; vx_jet := 0; vy_jet := 0; vz_jet := 5;
     b_0 := 1; z_0 := 1; r_jet := 1; dr_jet := 1 / 10;
     mang := 2; dang := 0; gad := 4 / 3; x1min := 0; x1rat := 1 |}.

Definition sample_mesh : Coordinates :=
  {| x1v := fun i => IZR i / 2 + 1 / 4;
     x2v := fun j => IZR j;
     x3v := fun k => IZR k / 10 + 1 / 20;
     x1f := fun i => IZR i / 2;
     x3f := fun k => IZR k / 10 |}.

Definition sample_prim : PrimArray := fun _ _ _ _ => 0.

Definition sample_faces : FaceField :=
  {| b_x1f := fun _ _ _ => 1; b_x2f := fun _ _ _ => 1; b_x3f := fun _ _ _ => 1 |}.

Definition sample_centred
  : FaceField -> Coordinates -> Z -> Z -> Z -> Z -> Z -> Z -> FieldArray :=
  fun _ _ _ _ _ _ _ _ _ _ _ _ => 1.

(** ** Vocabulary of the further properties *)

(** The parameters that the opening rates [rang_amb], [rang_jet], the
    smoothing weight, [rang] and the residual [f] divide by are nonzero.
    The source computes an infinity or a NaN where one of them is zero; the
    total division of the model gives a number there, so a statement about a
    value that passes through these quotients assumes this. *)
Definition nonzero_divisors (p : Params) : Prop :=
  vz_amb p <> 0 /\ vz_jet p <> 0 /\ r_jet p <> 0 /\ dr_jet p <> 0 /\ z_0 p <> 0.

Section SolverAccuracy.

Variable p : Params.
Variables x1 x3 : R.

(** [r0] lies strictly inside a bracket no wider than the width tolerance
    [eps] across which the residual changes sign. *)
Definition narrow_bracket (lo hi r0 : R) : Prop :=
  exists r1 r2,
    lo <= r1 /\ r1 < r0 < r2 /\ r2 <= hi
    /\ r2 - r1 <= eps
    /\ f p r1 x1 x3 * f p r2 x1 x3 < 0.

(** The candidate of a loop state is either not yet readable or the secant
    point of a sign-changing bracket whose width is the recorded [diff]. *)
Definition candidate_inv (lo hi : R) (s : loop_state) : Prop :=
  ls_diff s > eps
  \/ exists r1 r2,
       lo <= r1 /\ r1 < ls_r3 s < r2 /\ r2 <= hi
       /\ r2 - r1 = ls_diff s
       /\ f p r1 x1 x3 * f p r2 x1 x3 < 0.

End SolverAccuracy.


(** A straight jet without azimuthal field and without density
    perturbation. *)
Definition hydro_jet : Params :=
  {| d_amb := 1; p_amb := 1 / 100; vx_amb := 0; vy_amb := 0; vz_amb := 1;
     d_jet := 1 / 10; p_jet := 1 / 100; vx_jet := 0; vy_jet := 0; vz_jet := 5;
     b_0 := 0; z_0 := 1; r_jet := 1; dr_jet := 1 / 10;
     mang := 2; dang := 0; gad := 4 / 3; x1min := 0; x1rat := 1 |}.

(** ** Vocabulary of the mesh block functions *)

(** The cells [(k, j, i)] of an index box. *)
Definition block_box (il iu jl ju kl ku : Z) (k j i : Z) : bool :=
  in_range kl ku k && in_range jl ju j && in_range il iu i.

(** The cells of the block proper, over which [RefinementCondition] runs. *)
Definition in_block (pmb : MeshBlock) (k j i : Z) : bool :=
  block_box (is_ pmb) (ie pmb) (js pmb) (je pmb) (ks pmb) (ke pmb) k j i.

(** The magnetisation [sigma_M] of a cell as [RefinementCondition] forms it. *)
Definition magnetisation (pmb : MeshBlock) (k j i : Z) : R :=
  (pfield_bcc pmb IB1 k j i * pfield_bcc pmb IB1 k j i
   + pfield_bcc pmb IB2 k j i * pfield_bcc pmb IB2 k j i
   + pfield_bcc pmb IB3 k j i * pfield_bcc pmb IB3 k j i)
  / phydro_w pmb IDN k j i.

(** A pass of a running maximum over values marked by [Q]: it does not
    lower the maximum, raises it to at least every marked value, and leaves
    it either unchanged or at a marked value. *)
Definition max_pass (Q : Z -> R -> Prop) (body : Z -> R -> R) (i : Z) : Prop :=
  forall m, m <= body i m
            /\ (forall v, Q i v -> v <= body i m)
            /\ (body i m = m \/ Q i (body i m)).

(** The three loops of [RefinementCondition], innermost first. *)
Definition row_max (pmb : MeshBlock) (k j : Z) (m : R) : R :=
  fold_loop (is_ pmb) (ie pmb)
    (fun i maxsig =>
       if Rlt_dec maxsig (magnetisation pmb k j i) then magnetisation pmb k j i
       else maxsig) m.

Definition plane_max (pmb : MeshBlock) (k : Z) (m : R) : R :=
  fold_loop (js pmb) (je pmb) (fun j maxsig => row_max pmb k j maxsig) m.

Definition block_max (pmb : MeshBlock) (m : R) : R :=
  fold_loop (ks pmb) (ke pmb) (fun k maxsig => plane_max pmb k maxsig) m.

(** The uniform ambient state. *)
Definition ambient_value (p : Params) (n : PrimVar) : R :=
  match n with
  | IDN => d_amb p
  | IVX => vx_amb p
  | IVY => vy_amb p
  | IVZ => vz_amb p
  | IPR => p_amb p
  end.

(** The two primitive arrays of the block observed together, and the three
    face arrays restricted to one component. *)
Definition prim_pair_at (x : (bool * PrimVar) * Z * Z * Z) (ww : PrimArray * PrimArray) : R :=
  let '((first, n), k, j, i) := x in
  if first then fst ww n k j i else snd ww n k j i.

Definition is_component (c0 c : FieldVar) : bool :=
  match c0, c with
  | IB1, IB1 | IB2, IB2 | IB3, IB3 => true
  | _, _ => false
  end.

(** The vector potential is sampled by [ProblemGenerator] at the radial
    faces [il .. iu + 1] and axial faces [kl .. ku + 1] of its index box;
    every call returns (nothing to ask without magnetic fields). *)
Definition generator_solved (p : Params) (fuel : nat) (pco : Coordinates) (mhd : bool)
    (il iu kl ku : Z) : Prop :=
  mhd = true ->
  forall k i, (kl <= k <= ku + 1)%Z -> (il <= i <= iu + 1)%Z ->
              A2 p fuel (x1f pco i) (x3f pco k) <> None.

(** A mesh block of two by one by two cells on the sample mesh, with a
    uniform field of strength [bz] along the axis and unit density. *)
Definition sample_block (bz : R) : MeshBlock :=
  {| is_ := 0; ie := 1; js := 0; je := 0; ks := 0; ke := 1;
     nx2 := 1; nx3 := 2;
     pcoord := sample_mesh;
     phydro_w := fun _ _ _ _ => 1; phydro_w1 := fun _ _ _ _ => 0;
     phydro_u := fun _ _ _ _ => 0;
     pfield_b := sample_faces;
     pfield_bcc := fun c _ _ _ => match c with IB3 => bz | _ => 0 end |}.

(** The values [ProblemGenerator] stores at radial face [(k, j, i)] and at
    axial face [(k, j, i)]: the circulation of the vector potential around
    the face over its area; [None] when a call of [A2] does not return. *)
Definition init_x1f_value (p : Params) (Face1Area Edge2Length : Coordinates -> Z -> Z -> Z -> R)
    (fuel : nat) (pco : Coordinates) (k j i : Z) : option R :=
  match A2 p fuel (x1f pco i) (x3f pco (k + 1)%Z), A2 p fuel (x1f pco i) (x3f pco k) with
  | Some A_p1, Some A =>
      Some (- (Edge2Length pco (k + 1)%Z j i * A_p1 - Edge2Length pco k j i * A)
            / Face1Area pco k j i)
  | _, _ => None
  end.

Definition init_x3f_value (p : Params) (Edge2Length Face3Area : Coordinates -> Z -> Z -> Z -> R)
    (fuel : nat) (pco : Coordinates) (k j i : Z) : option R :=
  match A2 p fuel (x1f pco (i + 1)%Z) (x3f pco k), A2 p fuel (x1f pco i) (x3f pco k) with
  | Some A_p1, Some A =>
      Some ((Edge2Length pco k j (i + 1)%Z * A_p1 - Edge2Length pco k j i * A)
            / Face3Area pco k j i)
  | _, _ => None
  end.

(** The faces of one component inside an index box. *)
Definition component_box (c0 : FieldVar) (il iu jl ju kl ku : Z)
    (x : FieldVar * Z * Z * Z) : bool :=
  let '(c, k, j, i) := x in is_component c0 c && block_box il iu jl ju kl ku k j i.

(** ** Vocabulary of the corrected claims *)

(** The density of steps 1 to 7 of the specification read as written: one
    smoothing weight, taken at the perturbed radius, in every blend. *)
Definition density_perturbed (p : Params) (r_0 phi : R) : R :=
  let w := weight p (perturbed_radius p r_0 phi) in
  Psi_of p w w / lorentz_of p w w.

(** Modelled from the spec: the cell-centred field, "derived by local
    averaging of adjacent face values" (section 4.5), for the framework
    routine [CalculateCellCenteredField], which the source calls and does not
    define. *)
Definition face_average
  : FaceField -> Coordinates -> Z -> Z -> Z -> Z -> Z -> Z -> FieldArray :=
  fun b _ _ _ _ _ _ _ c k j i =>
    match c with
    | IB1 => (b_x1f b k j i + b_x1f b k j (i + 1)%Z) / 2
    | IB2 => (b_x2f b k j i + b_x2f b k (j + 1)%Z i) / 2
    | IB3 => (b_x3f b k j i + b_x3f b (k + 1)%Z j i) / 2
    end.

(** A straight jet with a rippled boundary, lighter than the ambient medium
    and moving with it, on a mesh whose azimuths are multiples of [PI]. *)
Definition ripple_jet : Params :=
  {| d_amb := 11; p_amb := 1 / 2; vx_amb := 0; vy_amb := 0; vz_amb := 3 / 4;
     d_jet := 1 / 2; p_jet := 1 / 2; vx_jet := 0; vy_jet := 0; vz_jet := 3 / 4;
     b_0 := 1; z_0 := 1; r_jet := 1; dr_jet := 1 / 8;
     mang := 1; dang := 1 / 2; gad := 2; x1min := 0; x1rat := 1 |}.

Definition ripple_mesh : Coordinates :=
  {| x1v := fun i => IZR i / 2 + 1 / 4;
     x2v := fun j => IZR j * PI;
     x3v := fun k => IZR k / 10 + 1 / 20;
     x1f := fun i => IZR i / 2;
     x3f := fun k => IZR k / 10 |}.

(** An unperturbed jet whose field lines open at the same rate inside and
    outside ([vx / vz = 1 / 10] on both sides), a mesh of wide radial cells
    with no face on the axis, and face fields whose axial component in the
    active zone depends on the azimuthal index. *)
Definition bent_jet : Params :=
  {| d_amb := 1; p_amb := 1 / 100; vx_amb := 1 / 10; vy_amb := 0; vz_amb := 1;
     d_jet := 1 / 10; p_jet := 1 / 100; vx_jet := 1 / 2; vy_jet := 0; vz_jet := 5;
     b_0 := 1; z_0 := 1; r_jet := 1; dr_jet := 1 / 4;
     mang := 2; dang := 0; gad := 4 / 3; x1min := 0; x1rat := 1 |}.

Definition wide_mesh : Coordinates :=
  {| x1v := fun i => IZR i * (3 / 2) + 5 / 4;
     x2v := fun j => IZR j;
     x3v := fun k => IZR k / 10 + 1 / 20;
     x1f := fun i => IZR i * (3 / 2) + 1 / 2;
     x3f := fun k => IZR k / 10 |}.

Definition skewed_faces : FaceField :=
  {| b_x1f := fun _ _ _ => 0; b_x2f := fun _ _ _ => 0;
     b_x3f := fun _ j _ => IZR j + 1 |}.

(** A mesh block of two by one by two cells on a mesh that has no radial
    face on the axis. *)
Definition offset_mesh : Coordinates :=
  {| x1v := fun i => IZR i / 2 + 1 / 2;
     x2v := fun j => IZR j;
     x3v := fun k => IZR k / 10 + 1 / 20;
     x1f := fun i => IZR i / 2 + 1 / 4;
     x3f := fun k => IZR k / 10 |}.

Definition offset_block : MeshBlock :=
  {| is_ := 0; ie := 1; js := 0; je := 0; ks := 0; ke := 1;
     nx2 := 1; nx3 := 2;
     pcoord := offset_mesh;
     phydro_w := fun _ _ _ _ => 1; phydro_w1 := fun _ _ _ _ => 0;
     phydro_u := fun _ _ _ _ => 0;
     pfield_b := sample_faces;
     pfield_bcc := fun _ _ _ _ => 0 |}.
(** * Proofs *)

(** ** SmoothStep: range, plateaus, monotonicity *)

Section SmoothStepFacts.

Lemma clamp_range x : -1 <= clamp x <= 1.
Proof.
  unfold clamp, Rmax, Rmin.
  destruct (Rle_dec x 1); destruct (Rle_dec _ (-1)); lra.
Qed.

Lemma clamp_low x : x <= -1 -> clamp x = -1.
Proof.
  intros H. unfold clamp, Rmax, Rmin.
  destruct (Rle_dec x 1); destruct (Rle_dec _ (-1)); lra.
Qed.

Lemma clamp_high x : 1 <= x -> clamp x = 1.
Proof.
  intros H. unfold clamp, Rmax, Rmin.
  destruct (Rle_dec x 1); destruct (Rle_dec _ (-1)); lra.
Qed.

Lemma clamp_mono x y : x <= y -> clamp x <= clamp y.
Proof.
  intros H. unfold clamp, Rmax, Rmin.
  destruct (Rle_dec x 1), (Rle_dec y 1);
    repeat match goal with |- context [Rle_dec ?u ?v] => destruct (Rle_dec u v) end; lra.
Qed.

Lemma clamp_lipschitz x y : Rabs (clamp x - clamp y) <= Rabs (x - y).
Proof.
  unfold clamp, Rmax, Rmin.
  destruct (Rle_dec x 1), (Rle_dec y 1);
    repeat match goal with |- context [Rle_dec ?u ?v] => destruct (Rle_dec u v) end;
    unfold Rabs;
    repeat match goal with |- context [Rcase_abs ?u] => destruct (Rcase_abs u) end; lra.
Qed.

Lemma SmoothStep_clamp x :
  SmoothStep x = 1 / 2 - clamp x * (3 - clamp x * clamp x) / 4.
Proof. reflexivity. Qed.

Lemma SmoothStep_range x : 0 <= SmoothStep x <= 1.
Proof.
  rewrite SmoothStep_clamp. pose proof (clamp_range x) as [Hl Hu].
  set (m := clamp x) in *.
  assert (H1 : 0 <= (m - 1) * (m - 1) * (m + 2)) by (apply Rmult_le_pos; nra).
  assert (H2 : 0 <= (m + 1) * (m + 1) * (2 - m)) by (apply Rmult_le_pos; nra).
  split; lra.
Qed.

Lemma SmoothStep_low x : x <= -1 -> SmoothStep x = 1.
Proof. intros H. rewrite SmoothStep_clamp, (clamp_low _ H). lra. Qed.

Lemma SmoothStep_high x : 1 <= x -> SmoothStep x = 0.
Proof. intros H. rewrite SmoothStep_clamp, (clamp_high _ H). lra. Qed.

(** The cubic difference factors through the difference of the clamped
    arguments; monotonicity and the Lipschitz bound both read off it. *)
Lemma SmoothStep_diff x y :
  SmoothStep x - SmoothStep y =
  (clamp y - clamp x)
  * (3 - (clamp x * clamp x + clamp x * clamp y + clamp y * clamp y)) / 4.
Proof. rewrite !SmoothStep_clamp. field. Qed.

Lemma clamp_quad_range x y :
  0 <= 3 - (clamp x * clamp x + clamp x * clamp y + clamp y * clamp y) <= 3.
Proof.
  pose proof (clamp_range x) as [? ?]. pose proof (clamp_range y) as [? ?].
  set (u := clamp x) in *. set (v := clamp y) in *. split; nra.
Qed.

Lemma SmoothStep_antitone x y : x <= y -> SmoothStep y <= SmoothStep x.
Proof.
  intros H. pose proof (SmoothStep_diff x y) as E.
  pose proof (clamp_mono _ _ H). pose proof (clamp_quad_range x y) as [? ?].
  set (q := 3 - _) in *. nra.
Qed.

Lemma SmoothStep_lipschitz x y :
  Rabs (SmoothStep x - SmoothStep y) <= 3 / 4 * Rabs (x - y).
Proof.
  rewrite SmoothStep_diff.
  pose proof (clamp_quad_range x y) as [Hq0 Hq3].
  pose proof (clamp_lipschitz y x) as Hc. rewrite (Rabs_minus_sym y x) in Hc.
  set (q := 3 - _) in *. set (m := clamp y - clamp x) in *.
  replace (m * q / 4) with (m * (q / 4)) by field.
  rewrite Rabs_mult, (Rabs_pos_eq (q / 4)) by lra.
  pose proof (Rabs_pos m). pose proof (Rabs_pos (x - y)). nra.
Qed.

End SmoothStepFacts.

(** ** The root-solve loop of [r0_r_z] *)

Section Solver.

Variable p : Params.
Variables x1 x3 : R.

Local Abbreviation g := (fun r : R => f p r x1 x3).
Local Abbreviation reaches := (reaches p x1 x3).

Lemma tol_pos : 0 < tol.
Proof. unfold tol. lra. Qed.

Lemma eps_lt_1 : eps < 1.
Proof. unfold eps. lra. Qed.

Lemma opposite_signs_cases u v :
  u * v < 0 -> (u < 0 /\ 0 < v) \/ (v < 0 /\ 0 < u).
Proof.
  intros H.
  destruct (Rtotal_order u 0) as [Hu | [Hu | Hu]];
    destruct (Rtotal_order v 0) as [Hv | [Hv | Hv]];
    try (subst; lra); try (left; split; lra); try (right; split; lra).
  - exfalso. assert (0 < u * v) by (apply Rmult_neg_neg; lra). lra.
  - exfalso. assert (0 < u * v) by (apply Rmult_lt_0_compat; lra). lra.
Qed.

(** One pass of the loop body keeps the signs at the bracket ends opposite. *)
Lemma loop_body_signs s s' :
  g (ls_r1 s) * g (ls_r2 s) < 0 ->
  loop_body p x1 x3 s = Continue s' ->
  g (ls_r1 s') * g (ls_r2 s') < 0.
Proof.
  intros Hs. unfold loop_body.
  set (r3 := secant p (ls_r1 s) (ls_r2 s) x1 x3).
  destruct (Rlt_dec (Rabs (g r3)) tol) as [Hb | Hb]; [discriminate |].
  assert (Hr3 : g r3 <> 0).
  { intros E. apply Hb. rewrite E, Rabs_R0. apply tol_pos. }
  destruct (Rlt_dec (g (ls_r1 s) * g r3) 0) as [Hm | Hm];
    intros E; injection E as <-; simpl.
  - exact Hm.
  - destruct (opposite_signs_cases _ _ Hs) as [[H1 H2] | [H2 H1]]; nra.
Qed.

Lemma reaches_signs s0 s :
  g (ls_r1 s0) * g (ls_r2 s0) < 0 ->
  reaches s0 s ->
  g (ls_r1 s) * g (ls_r2 s) < 0.
Proof.
  intros H0 Hr. induction Hr as [| s' s'' _ IH _ Hb].
  - exact H0.
  - eapply loop_body_signs; eassumption.
Qed.

(** The states of [reaches] are the states a run of [while_loop] passes
    through: a run from [s] continues as a run from any state reached. *)
Lemma reaches_run s s' :
  reaches s s' ->
  exists m, forall n, while_loop p (m + n) x1 x3 s = while_loop p n x1 x3 s'.
Proof.
  intros Hr. induction Hr as [| s' s'' _ [m IH] Hd Hb].
  - exists 0%nat. reflexivity.
  - exists (S m). intros n.
    replace (S m + n)%nat with (m + S n)%nat by lia.
    rewrite IH. simpl.
    destruct (Rgt_dec (ls_diff s') eps); [| contradiction].
    rewrite Hb. reflexivity.
Qed.

Lemma opposite_signs_denominator u v : u * v < 0 -> v - u <> 0.
Proof. intros H E. assert (v = u) by lra. subst v. nra. Qed.

(** The secant point of a sign-changing bracket lies strictly inside it. *)
Lemma secant_offset r1 r2 :
  g r1 * g r2 < 0 ->
  secant p r1 r2 x1 x3 - r1 = (- g r1 / (g r2 - g r1)) * (r2 - r1)
  /\ r2 - secant p r1 r2 x1 x3 = (g r2 / (g r2 - g r1)) * (r2 - r1).
Proof.
  intros Hs. pose proof (opposite_signs_denominator _ _ Hs) as Hd.
  unfold secant. split; field; exact Hd.
Qed.

Lemma opposite_signs_fractions u v :
  u * v < 0 -> 0 < - u / (v - u) /\ 0 < v / (v - u).
Proof.
  intros H. destruct (opposite_signs_cases _ _ H) as [[Hu Hv] | [Hv Hu]].
  - split; apply Rdiv_lt_0_compat; lra.
  - replace (- u / (v - u)) with (u / (u - v)) by (field; lra).
    replace (v / (v - u)) with (- v / (u - v)) by (field; lra).
    split; apply Rdiv_lt_0_compat; lra.
Qed.

Lemma secant_between r1 r2 :
  r1 < r2 -> g r1 * g r2 < 0 ->
  r1 < secant p r1 r2 x1 x3 < r2.
Proof.
  intros Hlt Hs. destruct (secant_offset r1 r2 Hs) as [E1 E2].
  destruct (opposite_signs_fractions _ _ Hs) as [F1 F2].
  assert (0 < (- g r1 / (g r2 - g r1)) * (r2 - r1)) by (apply Rmult_lt_0_compat; lra).
  assert (0 < (g r2 / (g r2 - g r1)) * (r2 - r1)) by (apply Rmult_lt_0_compat; lra).
  lra.
Qed.

(** *** Bracket invariant *)

Section Bracket.

Variables lo hi : R.

Local Abbreviation bracket_inv := (bracket_inv p x1 x3 lo hi).

Lemma loop_body_bracket s :
  bracket_inv s ->
  match loop_body p x1 x3 s with
  | Break r3 => ls_r1 s < r3 < ls_r2 s
  | Continue s' =>
      bracket_inv s'
      /\ ((ls_r1 s' = ls_r1 s /\ ls_r2 s' = secant p (ls_r1 s) (ls_r2 s) x1 x3)
          \/ (ls_r1 s' = secant p (ls_r1 s) (ls_r2 s) x1 x3 /\ ls_r2 s' = ls_r2 s))
  end.
Proof.
  intros (Hlo & Hlt & Hhi & Hs & Ht1 & Ht2 & _).
  pose proof (secant_between _ _ Hlt Hs) as [Hb1 Hb2].
  pose proof (loop_body_signs s) as Hsig.
  unfold loop_body in *.
  set (r3 := secant p (ls_r1 s) (ls_r2 s) x1 x3) in *.
  destruct (Rlt_dec (Rabs (g r3)) tol) as [Hb | Hb]; [split; assumption |].
  destruct (Rlt_dec (g (ls_r1 s) * g r3) 0) as [Hm | Hm].
  - specialize (Hsig _ Hs eq_refl). simpl in *.
    split; [| left; split; reflexivity].
    unfold bracket_inv; simpl. repeat split; lra.
  - specialize (Hsig _ Hs eq_refl). simpl in *.
    split; [| right; split; reflexivity].
    unfold bracket_inv; simpl. repeat split; lra.
Qed.

(** Whatever the loop returns from a state satisfying the invariant lies in
    the enclosing interval. *)
Lemma while_loop_in_bracket fuel :
  forall s r, bracket_inv s -> while_loop p fuel x1 x3 s = Some r -> lo <= r <= hi.
Proof.
  induction fuel as [| n IH]; intros s r Hinv; simpl.
  - destruct (Rgt_dec (ls_diff s) eps) as [Hd | Hd]; [discriminate |].
    intros E; injection E as <-.
    destruct Hinv as (_ & _ & _ & _ & _ & _ & [H | H]); [contradiction | exact H].
  - destruct (Rgt_dec (ls_diff s) eps) as [Hd | Hd].
    + pose proof (loop_body_bracket s Hinv) as Hb.
      destruct (loop_body p x1 x3 s) as [r3 | s'].
      * intros E; injection E as <-.
        destruct Hinv as (? & ? & ? & _). lra.
      * destruct Hb as [Hinv' _]. apply IH. exact Hinv'.
    + intros E; injection E as <-.
      destruct Hinv as (_ & _ & _ & _ & _ & _ & [H | H]); [contradiction | exact H].
Qed.

(** *** Termination from a Lipschitz bound

    While the residual at both bracket ends is at least [tol] and [g] is
    [L]-Lipschitz on the enclosing interval, the secant point is at least
    [tol / L] away from either end, so every pass that does not leave the
    loop shortens the bracket by at least that much. *)

Variable L : R.
Hypothesis L_pos : 0 < L.
Hypothesis g_lipschitz :
  forall x y, lo <= x <= hi -> lo <= y <= hi ->
              Rabs (g x - g y) <= L * Rabs (x - y).

Lemma fraction_lower_bound n D w :
  0 < D -> D <= L * w -> 0 < w -> tol <= n -> tol / L <= n / D * w.
Proof.
  intros HD HDL Hw Hn.
  assert (HL : tol / L * D <= n * w).
  { apply Rle_trans with (tol / L * (L * w)).
    - apply Rmult_le_compat_l; [| exact HDL].
      apply Rlt_le, Rdiv_lt_0_compat; [apply tol_pos | exact L_pos].
    - replace (tol / L * (L * w)) with (tol * w) by (field; lra).
      apply Rmult_le_compat_r; lra. }
  replace (n / D * w) with (n * w / D) by (field; lra).
  apply Rmult_le_reg_r with D; [exact HD |].
  replace (n * w / D * D) with (n * w) by (field; lra). exact HL.
Qed.

Lemma secant_margin r1 r2 :
  lo <= r1 -> r1 < r2 -> r2 <= hi ->
  g r1 * g r2 < 0 -> tol <= Rabs (g r1) -> tol <= Rabs (g r2) ->
  tol / L <= secant p r1 r2 x1 x3 - r1 /\ tol / L <= r2 - secant p r1 r2 x1 x3.
Proof.
  intros Hlo Hlt Hhi Hs Ht1 Ht2.
  destruct (secant_offset r1 r2 Hs) as [E1 E2]. rewrite E1, E2.
  pose proof (g_lipschitz r2 r1 ltac:(lra) ltac:(lra)) as HL.
  cbv beta in *.
  rewrite (Rabs_pos_eq (r2 - r1)) in HL by lra.
  destruct (opposite_signs_cases _ _ Hs) as [[H1 H2] | [H2 H1]].
  - rewrite (Rabs_left _ H1) in Ht1. rewrite (Rabs_pos_eq _ (Rlt_le _ _ H2)) in Ht2.
    rewrite Rabs_pos_eq in HL by lra.
    split; apply fraction_lower_bound; lra.
  - rewrite (Rabs_pos_eq _ (Rlt_le _ _ H1)) in Ht1. rewrite (Rabs_left _ H2) in Ht2.
    rewrite Rabs_left in HL by lra.
    replace (- g r1 / (g r2 - g r1)) with (g r1 / (g r1 - g r2)) by (field; lra).
    replace (g r2 / (g r2 - g r1)) with (- g r2 / (g r1 - g r2)) by (field; lra).
    split; apply fraction_lower_bound; lra.
Qed.

Lemma while_loop_terminates fuel :
  forall s, bracket_inv s ->
            ls_r2 s - ls_r1 s < INR fuel * (tol / L) ->
            exists r, while_loop p fuel x1 x3 s = Some r.
Proof.
  assert (Hq : 0 < tol / L) by (apply Rdiv_lt_0_compat; [apply tol_pos | exact L_pos]).
  induction fuel as [| n IH]; intros s Hinv Hw.
  - simpl in Hw. destruct Hinv as (_ & Hlt & _). lra.
  - simpl. destruct (Rgt_dec (ls_diff s) eps) as [Hd | Hd]; [| eauto].
    pose proof (loop_body_bracket s Hinv) as Hb.
    destruct (loop_body p x1 x3 s) as [r3 | s']; [eauto |].
    destruct Hb as [Hinv' Hends]. apply IH; [exact Hinv' |].
    destruct Hinv as (Hlo & Hlt & Hhi & Hs & Ht1 & Ht2 & _).
    destruct (secant_margin _ _ Hlo Hlt Hhi Hs Ht1 Ht2) as [M1 M2].
    rewrite S_INR in Hw.
    destruct Hends as [[-> ->] | [-> ->]]; lra.
Qed.

End Bracket.

End Solver.

(** ** A Lipschitz bound for the field-line residual [f] *)

Section Lipschitz.

Variable p : Params.

Hypothesis wf : well_formed p.

Local Abbreviation rang_weight := (rang_weight p).
Local Abbreviation lipschitz_rang := (lipschitz_rang p).
Local Abbreviation lipschitz_f := (lipschitz_f p).
Local Abbreviation iter_bound := (iter_bound p).

Local Abbreviation lo := (x1min p).
Local Abbreviation hi := (r_jet p + dr_jet p).

Lemma rang_unfold x : rang p x = rang_weight x * (x - lo) / r_jet p.
Proof. reflexivity. Qed.

Lemma rang_weight_bound x :
  Rabs (rang_weight x) <= Rabs (rang_jet p - rang_amb p) + Rabs (rang_amb p).
Proof.
  unfold rang_weight.
  eapply Rle_trans; [apply Rabs_triang |].
  apply Rplus_le_compat_r. rewrite Rabs_mult.
  pose proof (SmoothStep_range ((x - r_jet p) / dr_jet p)) as [H0 H1].
  rewrite (Rabs_pos_eq _ H0).
  pose proof (Rabs_pos (rang_jet p - rang_amb p)). nra.
Qed.

Lemma rang_weight_lipschitz x y :
  Rabs (rang_weight x - rang_weight y)
  <= Rabs (rang_jet p - rang_amb p) * (3 / 4 / dr_jet p) * Rabs (x - y).
Proof.
  destruct wf as [_ Hdr]. unfold rang_weight.
  replace (_ - _) with
    ((rang_jet p - rang_amb p)
     * (SmoothStep ((x - r_jet p) / dr_jet p) - SmoothStep ((y - r_jet p) / dr_jet p)))
    by ring.
  rewrite Rabs_mult, Rmult_assoc.
  apply Rmult_le_compat_l; [apply Rabs_pos |].
  eapply Rle_trans; [apply SmoothStep_lipschitz |].
  replace ((x - r_jet p) / dr_jet p - (y - r_jet p) / dr_jet p)
    with ((x - y) * / dr_jet p) by (field; lra).
  rewrite Rabs_mult, (Rabs_pos_eq (/ dr_jet p))
    by (apply Rlt_le, Rinv_0_lt_compat; exact Hdr).
  apply Req_le. field. lra.
Qed.

Lemma lipschitz_rang_nonneg : lo <= hi -> 0 <= lipschitz_rang.
Proof.
  intros Hw. destruct wf as [Hrj Hdr]. unfold lipschitz_rang.
  pose proof (Rabs_pos (rang_jet p - rang_amb p)) as HA.
  pose proof (Rabs_pos (rang_amb p)) as HB.
  apply Rmult_le_pos; [| apply Rlt_le, Rinv_0_lt_compat; exact Hrj].
  assert (0 <= 3 / 4 / dr_jet p) by (apply Rlt_le, Rdiv_lt_0_compat; lra).
  assert (0 <= (hi - lo) * (Rabs (rang_jet p - rang_amb p) * (3 / 4 / dr_jet p))).
  { apply Rmult_le_pos; [lra | apply Rmult_le_pos; assumption]. }
  lra.
Qed.

Lemma lipschitz_f_pos x3 : lo <= hi -> 1 <= lipschitz_f x3.
Proof.
  intros Hw. unfold lipschitz_f.
  pose proof (lipschitz_rang_nonneg Hw).
  pose proof (Rabs_pos (z_0 p * (1 - exp (- x3 / z_0 p)))).
  assert (0 <= lipschitz_rang * Rabs (z_0 p * (1 - exp (- x3 / z_0 p))))
    by (apply Rmult_le_pos; assumption).
  lra.
Qed.

Lemma rang_lipschitz x y :
  lo <= x <= hi -> lo <= y <= hi ->
  Rabs (rang p x - rang p y) <= lipschitz_rang * Rabs (x - y).
Proof.
  intros Hx Hy. destruct wf as [Hrj Hdr].
  rewrite !rang_unfold.
  replace (rang_weight x * (x - lo) / r_jet p - rang_weight y * (y - lo) / r_jet p)
    with ((rang_weight x * (x - y) + (rang_weight x - rang_weight y) * (y - lo))
          * / r_jet p) by (field; lra).
  rewrite Rabs_mult, (Rabs_pos_eq (/ r_jet p))
    by (apply Rlt_le, Rinv_0_lt_compat; exact Hrj).
  assert (Hmain :
    Rabs (rang_weight x * (x - y) + (rang_weight x - rang_weight y) * (y - lo))
    <= ((Rabs (rang_jet p - rang_amb p) + Rabs (rang_amb p))
        + (hi - lo) * (Rabs (rang_jet p - rang_amb p) * (3 / 4 / dr_jet p)))
       * Rabs (x - y)).
  { eapply Rle_trans; [apply Rabs_triang |].
    rewrite !Rabs_mult.
    pose proof (rang_weight_bound x) as Hb.
    pose proof (rang_weight_lipschitz x y) as Hl.
    pose proof (Rabs_pos (x - y)) as Hxy.
    pose proof (Rabs_pos (rang_weight x - rang_weight y)) as Hd.
    rewrite (Rabs_pos_eq (y - lo)) by lra.
    set (A := Rabs (rang_jet p - rang_amb p)) in *.
    set (B := Rabs (rang_amb p)) in *.
    set (U := Rabs (rang_weight x)) in *.
    set (V := Rabs (rang_weight x - rang_weight y)) in *.
    set (T := Rabs (x - y)) in *.
    set (c := 3 / 4 / dr_jet p) in *.
    assert (H1 : U * T <= (A + B) * T) by (apply Rmult_le_compat_r; lra).
    assert (H2 : V * (y - lo) <= A * c * T * (hi - lo))
      by (apply Rmult_le_compat; lra).
    lra. }
  unfold lipschitz_rang.
  match goal with |- _ <= ?K / _ * ?T =>
    replace (K / r_jet p * T) with (K * T * / r_jet p) by (field; lra) end.
  apply Rmult_le_compat_r; [apply Rlt_le, Rinv_0_lt_compat; exact Hrj | exact Hmain].
Qed.

Lemma f_lipschitz x1 x3 x y :
  lo <= x <= hi -> lo <= y <= hi ->
  Rabs (f p x x1 x3 - f p y x1 x3) <= lipschitz_f x3 * Rabs (x - y).
Proof.
  intros Hx Hy. unfold f, lipschitz_f.
  set (c := 1 - exp (- x3 / z_0 p)).
  replace (x + rang p x * z_0 p * c - x1 - (y + rang p y * z_0 p * c - x1))
    with ((x - y) + (rang p x - rang p y) * (z_0 p * c)) by ring.
  eapply Rle_trans; [apply Rabs_triang |].
  rewrite Rabs_mult.
  pose proof (rang_lipschitz x y Hx Hy) as Hr.
  pose proof (Rabs_pos (z_0 p * c)) as Hc.
  assert (Rabs (rang p x - rang p y) * Rabs (z_0 p * c)
          <= lipschitz_rang * Rabs (x - y) * Rabs (z_0 p * c))
    by (apply Rmult_le_compat_r; assumption).
  lra.
Qed.

Lemma fuel_above (r : R) (fuel : nat) :
  (Z.to_nat (up r) <= fuel)%nat -> r < INR fuel.
Proof.
  intros H. destruct (archimed r) as [Hup _].
  destruct (Z_lt_le_dec (up r) 0) as [Hneg | Hpos].
  - apply Rlt_le_trans with (IZR (up r)); [lra |].
    apply Rle_trans with 0; [apply IZR_le; lia | apply pos_INR].
  - apply Rlt_le_trans with (IZR (up r)); [lra |].
    rewrite <- (Z2Nat.id (up r)) by exact Hpos.
    rewrite <- INR_IZR_INZ. apply le_INR. exact H.
Qed.

Lemma iter_bound_enough x3 fuel :
  lo < hi -> (iter_bound x3 <= fuel)%nat ->
  hi - lo < INR fuel * (tol / lipschitz_f x3).
Proof.
  intros Hw Hf. apply fuel_above in Hf.
  pose proof (lipschitz_f_pos x3 (Rlt_le _ _ Hw)) as HL.
  pose proof tol_pos as Ht.
  replace (INR fuel * (tol / lipschitz_f x3))
    with (INR fuel * tol / lipschitz_f x3) by (field; lra).
  apply Rmult_lt_reg_r with (lipschitz_f x3 / tol).
  - apply Rdiv_lt_0_compat; lra.
  - replace (INR fuel * tol / lipschitz_f x3 * (lipschitz_f x3 / tol))
      with (INR fuel) by (field; lra).
    replace ((hi - lo) * (lipschitz_f x3 / tol))
      with ((hi - lo) * lipschitz_f x3 / tol) by (field; lra).
    exact Hf.
Qed.

End Lipschitz.

(** ** Entry and exit of [r0_r_z] *)

Section SourceRadius.

Variable p : Params.

Local Abbreviation lo := (x1min p).
Local Abbreviation hi := (r_jet p + dr_jet p).

(** The first pass of the loop overwrites [r3] before anything reads it. *)
Lemma while_loop_entry_r3 fuel x1 x3 r3 r3' :
  while_loop p fuel x1 x3 (loop_entry p r3) = while_loop p fuel x1 x3 (loop_entry p r3').
Proof.
  pose proof eps_lt_1.
  destruct fuel as [| n]; simpl; destruct (Rgt_dec 1 eps); try lra; reflexivity.
Qed.

Lemma r0_r_z_enters_loop fuel x1 x3 :
  lo < x1 < hi ->
  ~ Rabs (f p lo x1 x3) < tol -> ~ Rabs (f p hi x1 x3) < tol ->
  r0_r_z p fuel x1 x3 = while_loop p fuel x1 x3 (loop_entry p 0).
Proof.
  intros [H1 H2] Ha Hb. unfold r0_r_z.
  destruct (Rlt_dec x1 hi); [| lra].
  destruct (Rgt_dec x1 lo); [| lra].
  destruct (Rlt_dec (Rabs (f p lo x1 x3)) tol); [contradiction |].
  destruct (Rlt_dec (Rabs (f p hi x1 x3)) tol); [contradiction |].
  reflexivity.
Qed.

Lemma loop_entry_bracket x1 x3 r3 :
  lo < hi ->
  f p lo x1 x3 * f p hi x1 x3 < 0 ->
  ~ Rabs (f p lo x1 x3) < tol -> ~ Rabs (f p hi x1 x3) < tol ->
  bracket_inv p x1 x3 lo hi (loop_entry p r3).
Proof.
  intros Hw Hs Ha Hb. pose proof eps_lt_1.
  unfold bracket_inv, loop_entry; simpl. repeat split; lra.
Qed.

(** Fuel only bounds the number of passes: once a run returns, more fuel
    returns the same value. *)
Lemma while_loop_more_fuel n m x1 x3 :
  forall s r, while_loop p n x1 x3 s = Some r -> while_loop p (n + m) x1 x3 s = Some r.
Proof.
  induction n as [| n IH]; intros s r; simpl.
  - destruct (Rgt_dec (ls_diff s) eps) as [Hd | Hd]; [discriminate |].
    intros E. destruct m; simpl; destruct (Rgt_dec (ls_diff s) eps); try contradiction;
      exact E.
  - destruct (Rgt_dec (ls_diff s) eps); [| auto].
    destruct (loop_body p x1 x3 s); [auto | apply IH].
Qed.

Lemma r0_r_z_more_fuel n m x1 x3 r0 :
  r0_r_z p n x1 x3 = Some r0 -> r0_r_z p (n + m) x1 x3 = Some r0.
Proof.
  unfold r0_r_z.
  destruct (Rlt_dec x1 hi); [| auto].
  destruct (Rgt_dec x1 lo); [| auto].
  cbv zeta.
  destruct (Rlt_dec (Rabs (f p lo x1 x3)) tol); [auto |].
  destruct (Rlt_dec (Rabs (f p hi x1 x3)) tol); [auto |].
  apply while_loop_more_fuel.
Qed.

(** In the mapping regime with a sign change across the initial bracket,
    whatever [r0_r_z] returns lies in the bracket. *)
Lemma r0_r_z_bracketed fuel x1 x3 r0 :
  lo < x1 < hi ->
  f p lo x1 x3 * f p hi x1 x3 < 0 ->
  r0_r_z p fuel x1 x3 = Some r0 ->
  lo <= r0 <= hi.
Proof.
  intros [H1 H2] Hs. unfold r0_r_z.
  destruct (Rlt_dec x1 hi); [| lra].
  destruct (Rgt_dec x1 lo); [| lra].
  destruct (Rlt_dec (Rabs (f p lo x1 x3)) tol) as [Ha | Ha];
    [intros E; injection E as <-; lra |].
  destruct (Rlt_dec (Rabs (f p hi x1 x3)) tol) as [Hb | Hb];
    [intros E; injection E as <-; lra |].
  apply while_loop_in_bracket.
  apply loop_entry_bracket; [lra | assumption ..].
Qed.

(** With [iter_bound] fuel the call returns. *)
Lemma r0_r_z_returns fuel x1 x3 :
  well_formed p ->
  lo < x1 < hi ->
  f p lo x1 x3 * f p hi x1 x3 < 0 ->
  (iter_bound p x3 <= fuel)%nat ->
  exists r0, r0_r_z p fuel x1 x3 = Some r0.
Proof.
  intros Hwf [H1 H2] Hs Hfuel. unfold r0_r_z.
  destruct (Rlt_dec x1 hi); [| lra].
  destruct (Rgt_dec x1 lo); [| lra].
  destruct (Rlt_dec (Rabs (f p lo x1 x3)) tol) as [Ha | Ha]; [eauto |].
  destruct (Rlt_dec (Rabs (f p hi x1 x3)) tol) as [Hb | Hb]; [eauto |].
  assert (Hw : lo < hi) by lra.
  apply (while_loop_terminates p x1 x3 lo hi (lipschitz_f p x3)).
  - pose proof (lipschitz_f_pos p Hwf x3 (Rlt_le _ _ Hw)). lra.
  - intros x y Hx Hy. apply f_lipschitz; assumption.
  - apply loop_entry_bracket; assumption.
  - simpl. apply iter_bound_enough; assumption.
Qed.

End SourceRadius.


(** ** Derivative of the flux function at the regime boundaries *)

Section DerivativeRules.

(** The differentiation rules of the Standard Library, restated for
    functions written as abstractions. *)

Lemma D_value f x l l' : derivable_pt_lim f x l -> l = l' -> derivable_pt_lim f x l'.
Proof. intros H <-. exact H. Qed.

Lemma D_const c x : derivable_pt_lim (fun _ => c) x 0.
Proof. exact (derivable_pt_lim_const c x). Qed.

Lemma D_id x : derivable_pt_lim (fun y => y) x 1.
Proof. exact (derivable_pt_lim_id x). Qed.

Lemma D_plus f g x l1 l2 :
  derivable_pt_lim f x l1 -> derivable_pt_lim g x l2 ->
  derivable_pt_lim (fun y => f y + g y) x (l1 + l2).
Proof. exact (derivable_pt_lim_plus f g x l1 l2). Qed.

Lemma D_minus f g x l1 l2 :
  derivable_pt_lim f x l1 -> derivable_pt_lim g x l2 ->
  derivable_pt_lim (fun y => f y - g y) x (l1 - l2).
Proof. exact (derivable_pt_lim_minus f g x l1 l2). Qed.

Lemma D_opp f x l :
  derivable_pt_lim f x l -> derivable_pt_lim (fun y => - f y) x (- l).
Proof. exact (derivable_pt_lim_opp f x l). Qed.

Lemma D_mult f g x l1 l2 :
  derivable_pt_lim f x l1 -> derivable_pt_lim g x l2 ->
  derivable_pt_lim (fun y => f y * g y) x (l1 * g x + f x * l2).
Proof. exact (derivable_pt_lim_mult f g x l1 l2). Qed.

Lemma D_div_const f c x l :
  derivable_pt_lim f x l -> derivable_pt_lim (fun y => f y / c) x (l / c).
Proof.
  intros Hf.
  eapply D_value; [exact (D_mult f (fun _ => / c) x l 0 Hf (D_const _ _)) |].
  unfold Rdiv. ring.
Qed.

Lemma D_ln f x l :
  0 < f x -> derivable_pt_lim f x l ->
  derivable_pt_lim (fun y => ln (f y)) x (/ f x * l).
Proof.
  intros H Hf.
  exact (derivable_pt_lim_comp f ln x l (/ f x) Hf (derivable_pt_lim_ln (f x) H)).
Qed.

Lemma D_atan f x l :
  derivable_pt_lim f x l ->
  derivable_pt_lim (fun y => atan (f y)) x (/ (1 + f x ^ 2) * l).
Proof.
  intros Hf.
  exact (derivable_pt_lim_comp f atan x l _ Hf (derivable_pt_lim_atan (f x))).
Qed.

(** A function that follows [g] to the left of [c] and [h] from [c] on, on a
    neighbourhood of [c], has at [c] the derivative the two share. *)
Lemma D_glue f g h c l (w : R) :
  0 < w ->
  (forall y, c - w < y < c -> f y = g y) ->
  (forall y, c <= y < c + w -> f y = h y) ->
  g c = h c ->
  derivable_pt_lim g c l -> derivable_pt_lim h c l ->
  derivable_pt_lim f c l.
Proof.
  intros Hw Hleft Hright Hc Dg Dh e He.
  destruct (Dg e He) as [dg Hg]. destruct (Dh e He) as [dh Hh].
  assert (Hm : 0 < Rmin w (Rmin dg dh)).
  { repeat apply Rmin_glb_lt; [exact Hw | apply cond_pos | apply cond_pos]. }
  exists (mkposreal _ Hm). intros t Ht Hlt. simpl in Hlt.
  assert (Htw : Rabs t < w) by (eapply Rlt_le_trans; [exact Hlt | apply Rmin_l]).
  assert (Htg : Rabs t < dg).
  { eapply Rlt_le_trans; [exact Hlt |].
    eapply Rle_trans; [apply Rmin_r | apply Rmin_l]. }
  assert (Hth : Rabs t < dh).
  { eapply Rlt_le_trans; [exact Hlt |].
    eapply Rle_trans; [apply Rmin_r | apply Rmin_r]. }
  assert (Hfc : f c = h c) by (apply Hright; lra).
  destruct (Rlt_dec t 0) as [Hneg | Hpos].
  - rewrite (Rabs_left _ Hneg) in Htw.
    rewrite (Hleft (c + t)) by lra. rewrite Hfc, <- Hc. apply Hg; assumption.
  - assert (0 < t) by lra. rewrite (Rabs_pos_eq t) in Htw by lra.
    rewrite (Hright (c + t)) by lra. rewrite Hfc. apply Hh; assumption.
Qed.

End DerivativeRules.

Ltac derive_step :=
  first [ apply D_const | apply D_id
        | eapply D_minus | eapply D_plus | eapply D_opp
        | eapply D_mult | eapply D_div_const | eapply D_atan ].

Ltac derive := repeat derive_step.

Section FluxDerivative.

Variable p : Params.
Hypothesis wf : well_formed p.

Local Abbreviation c1 := (r_jet p - dr_jet p).
Local Abbreviation c2 := (r_jet p + dr_jet p).

Lemma a_nonzero : a p <> 0.
Proof. destruct wf as [Hrj _]. unfold a. lra. Qed.

Lemma a2_x2_pos x : 0 < a p * a p + x * x.
Proof. pose proof a_nonzero. nra. Qed.

Local Abbreviation slope_A := (slope_A p).
Local Abbreviation blend_B := (blend_B p).

Lemma fintg1_derivative x : derivable_pt_lim (fintg1 p) x (slope_A x).
Proof.
  pose proof a_nonzero as Ha. pose proof (a2_x2_pos x) as Hpos.
  unfold fintg1, slope_A. eapply D_value.
  - eapply D_mult; [apply D_const |]. eapply D_ln; [exact Hpos |]. derive.
  - cbv beta. field. lra.
Qed.

Lemma fintg2_derivative x : derivable_pt_lim (fintg2 p) x (slope_A x * blend_B x).
Proof.
  pose proof a_nonzero as Ha. pose proof (a2_x2_pos x) as Hpos.
  destruct wf as [_ Hdr].
  unfold fintg2, slope_A, blend_B. eapply D_value.
  - eapply D_mult; [apply D_const |].
    eapply D_plus; [eapply D_plus |].
    + derive.
    + eapply D_mult; [apply D_const |]. derive.
    + eapply D_mult; [apply D_const |]. eapply D_ln; [exact Hpos |]. derive.
  - cbv beta. unfold d. field. repeat split; lra.
Qed.

Lemma blend_B_left : blend_B c1 = 1.
Proof. destruct wf as [_ Hdr]. unfold blend_B, d. field. lra. Qed.

Lemma blend_B_right : blend_B c2 = 0.
Proof. destruct wf as [_ Hdr]. unfold blend_B, d. field. lra. Qed.

Lemma flux_A_derivative x : derivable_pt_lim (flux_A p) x (slope_A x).
Proof.
  unfold flux_A. eapply D_value.
  - eapply D_minus; [apply fintg1_derivative | apply D_const].
  - ring.
Qed.

Lemma flux_B_derivative x : derivable_pt_lim (flux_B p) x (slope_A x * blend_B x).
Proof.
  unfold flux_B. eapply D_value.
  - eapply D_minus; [| apply D_const].
    eapply D_plus; [| apply D_const].
    eapply D_minus; [apply fintg2_derivative | apply D_const].
  - ring.
Qed.

Lemma flux_regions_meet_left : flux_A p c1 = flux_B p c1.
Proof. unfold flux_A, flux_B. ring. Qed.

Lemma flux_regions_meet_right : flux_B p c2 = flux_C p.
Proof. reflexivity. Qed.

Lemma flux_intg_A x : x < c1 -> flux_intg p x = flux_A p x.
Proof. intros H. unfold flux_intg. destruct (Rlt_dec x c1); [reflexivity | lra]. Qed.

Lemma flux_intg_B x : c1 <= x < c2 -> flux_intg p x = flux_B p x.
Proof.
  intros [H1 H2]. unfold flux_intg.
  destruct (Rlt_dec x c1); [lra |].
  destruct (Rge_dec x c1); [| lra].
  destruct (Rlt_dec x c2); [reflexivity | lra].
Qed.

Lemma flux_intg_C x : c2 <= x -> flux_intg p x = flux_C p.
Proof.
  intros H. destruct wf as [_ Hdr]. unfold flux_intg.
  destruct (Rlt_dec x c1); [lra |].
  destruct (Rge_dec x c1); [| reflexivity].
  destruct (Rlt_dec x c2); [lra | reflexivity].
Qed.

Lemma flux_intg_derivative_left : derivable_pt_lim (flux_intg p) c1 (slope_A c1).
Proof.
  destruct wf as [_ Hdr].
  apply (D_glue (flux_intg p) (flux_A p) (flux_B p) c1 (slope_A c1) (2 * dr_jet p)).
  - lra.
  - intros y Hy. apply flux_intg_A. lra.
  - intros y Hy. apply flux_intg_B. lra.
  - apply flux_regions_meet_left.
  - apply flux_A_derivative.
  - eapply D_value; [apply flux_B_derivative |]. rewrite blend_B_left. ring.
Qed.

Lemma flux_intg_derivative_right : derivable_pt_lim (flux_intg p) c2 0.
Proof.
  destruct wf as [_ Hdr].
  apply (D_glue (flux_intg p) (flux_B p) (fun _ => flux_C p) c2 0 (2 * dr_jet p)).
  - lra.
  - intros y Hy. apply flux_intg_B. lra.
  - intros y Hy. apply flux_intg_C. lra.
  - apply flux_regions_meet_right.
  - eapply D_value; [apply flux_B_derivative |]. rewrite blend_B_right. ring.
  - apply D_const.
Qed.

End FluxDerivative.

(** ** Counted loops *)

Section Loops.

Lemma in_index_range lo hi k : In k (index_range lo hi) <-> (lo <= k <= hi)%Z.
Proof.
  unfold index_range. rewrite in_map_iff. split.
  - intros (n & <- & Hn). apply in_seq in Hn. lia.
  - intros H. exists (Z.to_nat (k - lo)). split; [lia |].
    apply in_seq. lia.
Qed.

Lemma in_range_spec lo hi k : in_range lo hi k = true <-> (lo <= k <= hi)%Z.
Proof. unfold in_range. rewrite andb_true_iff, !Z.leb_le. tauto. Qed.

Lemma same_cell_spec k j i k' j' i' :
  same_cell k j i k' j' i' = true <-> k' = k /\ j' = j /\ i' = i.
Proof. unfold same_cell. rewrite !andb_true_iff, !Z.eqb_eq. tauto. Qed.

Lemma same_cell_refl k j i : same_cell k j i k j i = true.
Proof. apply same_cell_spec. auto. Qed.

Context {S X V : Type}.
Variable obs : X -> S -> V.
Variable Inv : S -> Prop.
Variable post : X -> V -> Prop.

Local Abbreviation writes := (writes obs Inv post).

Lemma writes_ext (w w' : X -> bool) s s' :
  (forall x, w x = w' x) -> writes w s s' -> writes w' s s'.
Proof.
  intros E [Hi H]. split; [exact Hi |]. intros x. rewrite <- E. apply H.
Qed.

Lemma writes_nothing s : Inv s -> writes (fun _ => false) s s.
Proof. intros H. split; [exact H | reflexivity]. Qed.

Lemma for_each_writes (w : Z -> X -> bool) (body : Z -> S -> option S) (l : list Z) :
  (forall i s s', In i l -> Inv s -> body i s = Some s' -> writes (w i) s s') ->
  forall s s', Inv s -> for_each l body s = Some s' ->
               writes (fun x => existsb (fun i => w i x) l) s s'.
Proof.
  induction l as [| i rest IH]; intros Hbody s s' Hinv; simpl.
  - intros E; injection E as <-. apply writes_nothing. exact Hinv.
  - destruct (body i s) as [s1 |] eqn:Eb; [| discriminate]. intros Hrest.
    destruct (Hbody i s s1 (or_introl eq_refl) Hinv Eb) as [Hinv1 H1].
    destruct (IH (fun i0 s0 s0' Hin => Hbody i0 s0 s0' (or_intror Hin)) s1 s' Hinv1 Hrest)
      as [Hinv' H'].
    split; [exact Hinv' |]. intros x. specialize (H1 x). specialize (H' x).
    destruct (existsb (fun i0 => w i0 x) rest).
    + rewrite orb_true_r. exact H'.
    + rewrite orb_false_r. destruct (w i x).
      * rewrite H'. exact H1.
      * rewrite H'. exact H1.
Qed.

Lemma for_loop_writes (w : Z -> X -> bool) (box : X -> bool)
    (body : Z -> S -> option S) (lo hi : Z) :
  (forall x, box x = true <-> exists i, (lo <= i <= hi)%Z /\ w i x = true) ->
  (forall i s s', (lo <= i <= hi)%Z -> Inv s -> body i s = Some s' -> writes (w i) s s') ->
  forall s s', Inv s -> for_loop lo hi body s = Some s' -> writes box s s'.
Proof.
  intros Hbox Hbody s s' Hinv Hloop.
  eapply writes_ext; [| eapply for_each_writes; [| exact Hinv | exact Hloop]].
  - intros x. apply eq_true_iff_eq. rewrite Hbox, existsb_exists.
    split; intros (i & Hi & Hw); exists i; (split; [apply in_index_range; exact Hi | exact Hw]).
  - intros i s0 s0' Hin. apply Hbody. apply in_index_range. exact Hin.
Qed.

Lemma for_each_returns (body : Z -> S -> option S) (l : list Z) :
  (forall i s, In i l -> exists s', body i s = Some s') ->
  forall s, exists s', for_each l body s = Some s'.
Proof.
  induction l as [| i rest IH]; intros Hbody s; simpl.
  - eauto.
  - destruct (Hbody i s (or_introl eq_refl)) as [s1 ->].
    apply IH. intros i0 s0 Hin. apply Hbody. right. exact Hin.
Qed.

Lemma for_loop_returns (body : Z -> S -> option S) (lo hi : Z) :
  (forall i s, (lo <= i <= hi)%Z -> exists s', body i s = Some s') ->
  forall s, exists s', for_loop lo hi body s = Some s'.
Proof.
  intros Hbody s. apply for_each_returns.
  intros i s0 Hin. apply Hbody. apply in_index_range. exact Hin.
Qed.

End Loops.

(** ** The loop nests of [JetInnerX3] *)

Ltac unbox :=
  repeat first [ rewrite andb_true_iff | rewrite in_range_spec
               | rewrite Z.eqb_eq | rewrite same_cell_spec ].

Ltac unbox_in H :=
  repeat first [ rewrite andb_true_iff in H | rewrite in_range_spec in H
               | rewrite Z.eqb_eq in H | rewrite same_cell_spec in H ].

Ltac box_iff :=
  let H := fresh "H" in
  split;
  [ intros H; unbox_in H
  | intros (? & ? & H); unbox_in H; unbox; repeat split; lia ].

Lemma cell_box_row il iu jl ju kl ngh kk j i :
  cell_box il iu jl ju kl ngh kk j i = true <->
  exists k, (1 <= k <= ngh)%Z
            /\ ((kk =? kl - k)%Z && in_range jl ju j && in_range il iu i)%bool = true.
Proof.
  unfold cell_box, ghost_row. box_iff.
  exists (kl - kk)%Z. unbox. repeat split; lia.
Qed.

Section BoundaryLoops.

Variable p : Params.
Variable fuel : nat.
Variable pco : Coordinates.
Variables il iu jl ju kl ngh : Z.

Local Abbreviation no_inv := (fun _ : PrimArray => True).

(** *** Primitive fill *)

Lemma prim_cell_at kk j i r_0 z prim n kk' j' i' :
  prim_cell p pco kk j i r_0 z prim n kk' j' i' =
  if same_cell kk j i kk' j' i' then cell_value p n r_0 z (x2v pco j)
  else prim n kk' j' i'.
Proof.
  unfold prim_cell, cell_value, prim_set.
  rewrite !same_cell_refl.
  destruct (same_cell kk j i kk' j' i'); destruct n; simpl; reflexivity.
Qed.

Lemma prim_fill_writes prim prim' :
  prim_fill p fuel pco il iu jl ju kl ngh prim = Some prim' ->
  writes prim_at no_inv (prim_written p fuel pco)
         (prim_box il iu jl ju kl ngh) prim prim'.
Proof.
  unfold prim_fill.
  apply (for_loop_writes prim_at no_inv (prim_written p fuel pco)
           (fun k '(_, kk, j, i) =>
              ((kk =? kl - k)%Z && in_range jl ju j && in_range il iu i)%bool));
    [| | exact I].
  { intros [[[n kk] j] i]. apply cell_box_row. }
  intros k s s' Hk _.
  apply (for_loop_writes prim_at no_inv (prim_written p fuel pco)
           (fun i0 '(_, kk, j, i) =>
              ((kk =? kl - k)%Z && in_range jl ju j && (i =? i0)%Z)%bool));
    [| | exact I].
  { intros [[[n kk] j] i]. box_iff. exists i. unbox. repeat split; lia. }
  intros i s1 s1' Hi _.
  destruct (r0_r_z p fuel (x1v pco i) (x3v pco (kl - k))) as [r_0 |] eqn:Er; [| discriminate].
  apply (for_loop_writes prim_at no_inv (prim_written p fuel pco)
           (fun j0 '(_, kk, j, i0) => same_cell (kl - k) j0 i kk j i0));
    [| | exact I].
  { intros [[[n kk] j] i0]. box_iff. exists j. unbox. repeat split; lia. }
  intros j s2 s2' Hj _ E. injection E as <-.
  split; [exact I |]. intros [[[n kk] j'] i0]. simpl.
  rewrite prim_cell_at.
  destruct (same_cell (kl - k) j i kk j' i0) eqn:Ec; [| reflexivity].
  apply same_cell_spec in Ec. destruct Ec as (-> & -> & ->).
  exists r_0. split; [exact Er | reflexivity].
Qed.

(** *** Face fills *)

Local Abbreviation no_finv := (fun _ : FaceField => True).

Lemma x1f_body k j i b :
  (let rf := x1f pco i in
   let zf := x3f pco (kl - k) in
   let zf_p1 := x3f pco (kl - k + 1) in
   let delz := x3v pco (k + 1) - x3v pco k in
   if Rlt_dec rf (x1min p) then
     let mir_r := 2 * x1min p - rf in
     match A2 p fuel mir_r zf, A2 p fuel mir_r zf_p1 with
     | Some A, Some A_p1 => Some (set_x1f b (kl - k) j i (- (A - A_p1) / delz))
     | _, _ => None
     end
   else
     match A2 p fuel rf zf, A2 p fuel rf zf_p1 with
     | Some A, Some A_p1 => Some (set_x1f b (kl - k) j i ((A - A_p1) / delz))
     | _, _ => None
     end)
  = match x1f_value p fuel pco kl k i with
    | Some v => Some (set_x1f b (kl - k) j i v)
    | None => None
    end.
Proof.
  unfold x1f_value. cbv zeta.
  destruct (Rlt_dec (x1f pco i) (x1min p));
    repeat match goal with |- context [A2 ?q ?n ?u ?v] => destruct (A2 q n u v) end;
    reflexivity.
Qed.

Lemma x3f_body k j i b :
  (let rf := x1f pco i in
   let rf_p1 := x1f pco (i + 1) in
   let zf := x3f pco (kl - k) in
   if Rlt_dec rf (x1min p) then
     let r_sym := x1v pco (il + 1) in
     let mir_r := 2 * r_sym - rf in
     let mir_r_p1 :=
       if Rgt_dec (x1rat p) 1 then x1rat p * mir_r else mir_r + rf_p1 - rf in
     match A2 p fuel mir_r_p1 zf, A2 p fuel mir_r zf with
     | Some A_p1, Some A =>
         Some (set_x3f b (kl - k) j i
                 (2 * (mir_r_p1 * A_p1 - mir_r * A) / (SQR mir_r_p1 - SQR mir_r)))
     | _, _ => None
     end
   else
     match A2 p fuel rf_p1 zf, A2 p fuel rf zf with
     | Some A_p1, Some A =>
         Some (set_x3f b (kl - k) j i
                 (2 * (rf_p1 * A_p1 - rf * A) / (SQR rf_p1 - SQR rf)))
     | _, _ => None
     end)
  = match x3f_value p fuel pco il kl k i with
    | Some v => Some (set_x3f b (kl - k) j i v)
    | None => None
    end.
Proof.
  unfold x3f_value. cbv zeta.
  destruct (Rlt_dec (x1f pco i) (x1min p));
    repeat match goal with |- context [A2 ?q ?n ?u ?v] => destruct (A2 q n u v) end;
    reflexivity.
Qed.

Lemma ghost_row_index k : (kl - (kl - k))%Z = k.
Proof. lia. Qed.

Lemma x1f_fill_writes b b' :
  x1f_fill p fuel pco il iu jl ju kl ngh b = Some b' ->
  writes face_at no_finv (x1f_written p fuel pco kl)
         (face_box IB1 il (iu + 1) jl ju kl ngh) b b'.
Proof.
  unfold x1f_fill.
  apply (for_loop_writes face_at no_finv (x1f_written p fuel pco kl)
           (fun k '(c, kk, j, i) =>
              match c with
              | IB1 => ((kk =? kl - k)%Z && in_range jl ju j && in_range il (iu + 1) i)%bool
              | _ => false
              end));
    [| | exact I].
  { intros [[[c kk] j] i]. destruct c; simpl;
      [apply cell_box_row | split; [discriminate | intros (? & _ & ?); discriminate] ..]. }
  intros k s s' Hk _.
  apply (for_loop_writes face_at no_finv (x1f_written p fuel pco kl)
           (fun j0 '(c, kk, j, i) =>
              match c with
              | IB1 => ((kk =? kl - k)%Z && (j =? j0)%Z && in_range il (iu + 1) i)%bool
              | _ => false
              end));
    [| | exact I].
  { intros [[[c kk] j] i]. destruct c;
      [| split; [discriminate | intros (? & _ & ?); discriminate] ..].
    box_iff. exists j. unbox. repeat split; lia. }
  intros j s1 s1' Hj _.
  apply (for_loop_writes face_at no_finv (x1f_written p fuel pco kl)
           (fun i0 '(c, kk, j0, i) =>
              match c with
              | IB1 => same_cell (kl - k) j i0 kk j0 i
              | _ => false
              end));
    [| | exact I].
  { intros [[[c kk] j0] i]. destruct c;
      [| split; [discriminate | intros (? & _ & ?); discriminate] ..].
    box_iff. exists i. unbox. repeat split; lia. }
  intros i s2 s2' Hi _. rewrite x1f_body.
  destruct (x1f_value p fuel pco kl k i) as [v |] eqn:Ev; [| discriminate].
  intros E; injection E as <-.
  split; [exact I |]. intros [[[c kk] j0] i0].
  destruct c; simpl; try reflexivity. unfold face_set.
  destruct (same_cell (kl - k) j i kk j0 i0) eqn:Ec; [| reflexivity].
  apply same_cell_spec in Ec. destruct Ec as (-> & -> & ->).
  rewrite ghost_row_index. exact Ev.
Qed.

Lemma x2f_fill_writes b b' :
  x2f_fill p fuel pco il iu jl ju kl ngh b = Some b' ->
  writes face_at no_finv x2f_written
         (face_box IB2 il iu jl (ju + 1) kl ngh) b b'.
Proof.
  unfold x2f_fill.
  apply (for_loop_writes face_at no_finv x2f_written
           (fun k '(c, kk, j, i) =>
              match c with
              | IB2 => ((kk =? kl - k)%Z && in_range jl (ju + 1) j && in_range il iu i)%bool
              | _ => false
              end));
    [| | exact I].
  { intros [[[c kk] j] i]. destruct c; simpl;
      [| apply cell_box_row |];
      (split; [discriminate | intros (? & _ & ?); discriminate]). }
  intros k s s' Hk _.
  apply (for_loop_writes face_at no_finv x2f_written
           (fun j0 '(c, kk, j, i) =>
              match c with
              | IB2 => ((kk =? kl - k)%Z && (j =? j0)%Z && in_range il iu i)%bool
              | _ => false
              end));
    [| | exact I].
  { intros [[[c kk] j] i]. destruct c;
      [split; [discriminate | intros (? & _ & ?); discriminate] | |
       split; [discriminate | intros (? & _ & ?); discriminate]].
    box_iff. exists j. unbox. repeat split; lia. }
  intros j s1 s1' Hj _.
  apply (for_loop_writes face_at no_finv x2f_written
           (fun i0 '(c, kk, j0, i) =>
              match c with
              | IB2 => same_cell (kl - k) j i0 kk j0 i
              | _ => false
              end));
    [| | exact I].
  { intros [[[c kk] j0] i]. destruct c;
      [split; [discriminate | intros (? & _ & ?); discriminate] | |
       split; [discriminate | intros (? & _ & ?); discriminate]].
    box_iff. exists i. unbox. repeat split; lia. }
  intros i s2 s2' Hi _.
  destruct (r0_r_z p fuel (x1v pco i) (x3v pco (kl - k))) as [r_0 |]; [| discriminate].
  cbv zeta. intros E; injection E as <-.
  split; [exact I |]. intros [[[c kk] j0] i0].
  destruct c; simpl; try reflexivity. unfold face_set.
  destruct (same_cell (kl - k) j i kk j0 i0); reflexivity.
Qed.

Lemma x3f_fill_writes b b' :
  x3f_fill p fuel pco il iu jl ju kl ngh b = Some b' ->
  writes face_at no_finv (x3f_written p fuel pco il kl)
         (face_box IB3 il iu jl ju kl ngh) b b'.
Proof.
  unfold x3f_fill.
  apply (for_loop_writes face_at no_finv (x3f_written p fuel pco il kl)
           (fun k '(c, kk, j, i) =>
              match c with
              | IB3 => ((kk =? kl - k)%Z && in_range jl ju j && in_range il iu i)%bool
              | _ => false
              end));
    [| | exact I].
  { intros [[[c kk] j] i]. destruct c; simpl;
      [split; [discriminate | intros (? & _ & ?); discriminate] ..
      | apply cell_box_row]. }
  intros k s s' Hk _.
  apply (for_loop_writes face_at no_finv (x3f_written p fuel pco il kl)
           (fun j0 '(c, kk, j, i) =>
              match c with
              | IB3 => ((kk =? kl - k)%Z && (j =? j0)%Z && in_range il iu i)%bool
              | _ => false
              end));
    [| | exact I].
  { intros [[[c kk] j] i]. destruct c;
      [split; [discriminate | intros (? & _ & ?); discriminate] .. |].
    box_iff. exists j. unbox. repeat split; lia. }
  intros j s1 s1' Hj _.
  apply (for_loop_writes face_at no_finv (x3f_written p fuel pco il kl)
           (fun i0 '(c, kk, j0, i) =>
              match c with
              | IB3 => same_cell (kl - k) j i0 kk j0 i
              | _ => false
              end));
    [| | exact I].
  { intros [[[c kk] j0] i]. destruct c;
      [split; [discriminate | intros (? & _ & ?); discriminate] .. |].
    box_iff. exists i. unbox. repeat split; lia. }
  intros i s2 s2' Hi _. rewrite x3f_body.
  destruct (x3f_value p fuel pco il kl k i) as [v |] eqn:Ev; [| discriminate].
  intros E; injection E as <-.
  split; [exact I |]. intros [[[c kk] j0] i0].
  destruct c; simpl; try reflexivity. unfold face_set.
  destruct (same_cell (kl - k) j i kk j0 i0) eqn:Ec; [| reflexivity].
  apply same_cell_spec in Ec. destruct Ec as (-> & -> & ->).
  rewrite ghost_row_index. exact Ev.
Qed.

(** *** Radial velocity from the cell-centred field *)

Lemma vx_from_field_writes bc prim0 prim' :
  vx_from_field p pco il iu jl ju kl ngh bc prim0 = Some prim' ->
  writes prim_at (keeps_vz prim0) (vx_written bc prim0)
         (vx_box p pco il iu jl ju kl ngh) prim0 prim'.
Proof.
  unfold vx_from_field.
  apply (for_loop_writes prim_at (keeps_vz prim0) (vx_written bc prim0)
           (fun k '(n, kk, j, i) =>
              match n with
              | IVX => ((kk =? kl - k)%Z && in_range jl ju j && in_range il iu i
                        && near_core p pco i)%bool
              | _ => false
              end));
    [| | intros kk j i; reflexivity].
  { intros [[[n kk] j] i].
    destruct n; simpl; try (split; [discriminate | intros (? & _ & ?); discriminate]).
    rewrite andb_true_iff, cell_box_row. split.
    - intros [(k & Hk & H) Hc]. exists k. rewrite H, Hc. auto.
    - intros (k & Hk & H). apply andb_true_iff in H. destruct H as [H Hc].
      split; [exists k; auto | exact Hc]. }
  intros k s s' Hk.
  apply (for_loop_writes prim_at (keeps_vz prim0) (vx_written bc prim0)
           (fun i0 '(n, kk, j, i) =>
              match n with
              | IVX => ((kk =? kl - k)%Z && in_range jl ju j && (i =? i0)%Z
                        && near_core p pco i)%bool
              | _ => false
              end)).
  { intros [[[n kk] j] i].
    destruct n; try (split; [discriminate | intros (? & _ & ?); discriminate]).
    rewrite !andb_true_iff. split.
    - intros [[[Hkk Hj] Hi] Hc]. exists i. apply in_range_spec in Hi.
      rewrite Hkk, Hj, Hc, Z.eqb_refl. auto.
    - intros (i0 & Hi0 & H). rewrite !andb_true_iff in H.
      destruct H as [[[Hkk Hj] Hi] Hc]. apply Z.eqb_eq in Hi. subst i0.
      apply in_range_spec in Hi0. auto. }
  intros i s1 s1' Hi Hinv. unfold near_core.
  destruct (Rle_dec (x1v pco i) (r_jet p + dr_jet p)) as [Hc | Hc].
  - apply (for_loop_writes prim_at (keeps_vz prim0) (vx_written bc prim0)
             (fun j0 '(n, kk, j, i0) =>
                match n with
                | IVX => same_cell (kl - k) j0 i kk j i0
                | _ => false
                end));
      [| | exact Hinv].
    { intros [[[n kk] j] i0].
      destruct n; try (split; [discriminate | intros (? & _ & ?); discriminate]).
      split.
      - rewrite !andb_true_iff. intros [[[Hkk Hj] Hi0] _].
        apply Z.eqb_eq in Hkk, Hi0. subst kk i0. apply in_range_spec in Hj.
        exists j. split; [exact Hj | apply same_cell_refl].
      - intros (j0 & Hj0 & H). apply same_cell_spec in H. destruct H as (-> & -> & ->).
        rewrite !Z.eqb_refl. apply in_range_spec in Hj0. rewrite Hj0. simpl.
        destruct (Rle_dec (x1v pco i) (r_jet p + dr_jet p)); [reflexivity | contradiction]. }
    intros j s2 s2' Hj Hinv2 E. injection E as <-. split.
    + intros kk j' i'. unfold prim_set. simpl. apply Hinv2.
    + intros [[[n kk] j'] i0]. simpl. unfold prim_set.
      destruct n; simpl; try reflexivity.
      destruct (same_cell (kl - k) j i kk j' i0) eqn:Ec; [| reflexivity].
      apply same_cell_spec in Ec. destruct Ec as (-> & -> & ->).
      rewrite Hinv2. reflexivity.
  - intros E. injection E as <-.
    eapply writes_ext; [| apply writes_nothing; exact Hinv].
    intros [[[n kk] j] i0]. destruct n; try reflexivity.
    destruct (Z.eqb_spec i0 i) as [-> | Hne].
    + destruct (Rle_dec (x1v pco i) (r_jet p + dr_jet p)); [contradiction |].
      rewrite andb_false_r. reflexivity.
    + rewrite andb_false_r. reflexivity.
Qed.

(** *** The loop nests return when the root-solve does *)

Lemma prim_fill_returns prim :
  (forall k i, (1 <= k <= ngh)%Z -> (il <= i <= iu)%Z ->
               r0_r_z p fuel (x1v pco i) (x3v pco (kl - k)) <> None) ->
  exists prim', prim_fill p fuel pco il iu jl ju kl ngh prim = Some prim'.
Proof.
  intros Hs. unfold prim_fill. apply for_loop_returns. intros k s Hk.
  apply for_loop_returns. intros i s1 Hi. specialize (Hs k i Hk Hi).
  destruct (r0_r_z p fuel (x1v pco i) (x3v pco (kl - k))) as [r_0 |]; [| contradiction].
  apply for_loop_returns. intros j s2 Hj. eauto.
Qed.

Lemma x1f_fill_returns b :
  (forall k i, (1 <= k <= ngh)%Z -> (il <= i <= iu + 1)%Z ->
               x1f_value p fuel pco kl k i <> None) ->
  exists b', x1f_fill p fuel pco il iu jl ju kl ngh b = Some b'.
Proof.
  intros Hs. unfold x1f_fill. apply for_loop_returns. intros k s Hk.
  apply for_loop_returns. intros j s1 Hj.
  apply for_loop_returns. intros i s2 Hi. specialize (Hs k i Hk Hi).
  rewrite x1f_body.
  destruct (x1f_value p fuel pco kl k i); [eauto | contradiction].
Qed.

Lemma x2f_fill_returns b :
  (forall k i, (1 <= k <= ngh)%Z -> (il <= i <= iu)%Z ->
               r0_r_z p fuel (x1v pco i) (x3v pco (kl - k)) <> None) ->
  exists b', x2f_fill p fuel pco il iu jl ju kl ngh b = Some b'.
Proof.
  intros Hs. unfold x2f_fill. apply for_loop_returns. intros k s Hk.
  apply for_loop_returns. intros j s1 Hj.
  apply for_loop_returns. intros i s2 Hi. specialize (Hs k i Hk Hi).
  destruct (r0_r_z p fuel (x1v pco i) (x3v pco (kl - k))); [eauto | contradiction].
Qed.

Lemma x3f_fill_returns b :
  (forall k i, (1 <= k <= ngh)%Z -> (il <= i <= iu)%Z ->
               x3f_value p fuel pco il kl k i <> None) ->
  exists b', x3f_fill p fuel pco il iu jl ju kl ngh b = Some b'.
Proof.
  intros Hs. unfold x3f_fill. apply for_loop_returns. intros k s Hk.
  apply for_loop_returns. intros j s1 Hj.
  apply for_loop_returns. intros i s2 Hi. specialize (Hs k i Hk Hi).
  rewrite x3f_body.
  destruct (x3f_value p fuel pco il kl k i); [eauto | contradiction].
Qed.

Lemma vx_from_field_returns bc prim :
  exists prim', vx_from_field p pco il iu jl ju kl ngh bc prim = Some prim'.
Proof.
  unfold vx_from_field. apply for_loop_returns. intros k s Hk.
  apply for_loop_returns. intros i s1 Hi.
  destruct (Rle_dec (x1v pco i) (r_jet p + dr_jet p)); [| eauto].
  apply for_loop_returns. intros j s2 Hj. eauto.
Qed.

Lemma cell_box_intro k j i :
  (1 <= k <= ngh)%Z -> (jl <= j <= ju)%Z -> (il <= i <= iu)%Z ->
  cell_box il iu jl ju kl ngh (kl - k) j i = true.
Proof.
  intros Hk Hj Hi. unfold cell_box, ghost_row. unbox. repeat split; lia.
Qed.

End BoundaryLoops.

(** ** The boundary function as a whole *)

Section BoundaryFunction.

Variable p : Params.
Variable mhd : bool.
Variable CCF : FaceField -> Coordinates -> Z -> Z -> Z -> Z -> Z -> Z -> FieldArray.
Variable fuel : nat.
Variable pco : Coordinates.
Variables il iu jl ju kl ku ngh : Z.

Local Abbreviation JetInnerX3 :=
  (JetInnerX3 p mhd CCF fuel pco).

Lemma JetInnerX3_returns prim b :
  samples_solved p fuel pco mhd il iu kl ngh ->
  exists prim' b', JetInnerX3 prim b il iu jl ju kl ku ngh = Some (prim', b').
Proof.
  intros [Hp Hf]. unfold Jet.JetInnerX3.
  destruct (prim_fill_returns p fuel pco il iu jl ju kl ngh prim Hp) as [prim1 ->].
  destruct mhd; [| eauto].
  destruct (Hf eq_refl) as [H1 H3].
  destruct (x1f_fill_returns p fuel pco il iu jl ju kl ngh b H1) as [b1 ->].
  destruct (x2f_fill_returns p fuel pco il iu jl ju kl ngh b1 Hp) as [b2 ->].
  destruct (x3f_fill_returns p fuel pco il iu jl ju kl ngh b2 H3) as [b3 ->].
  destruct (vx_from_field_returns p pco il iu jl ju kl ngh
              (CCF b3 pco il iu jl ju (kl - ngh)%Z ku) prim1) as [prim2 ->].
  eauto.
Qed.

Lemma vx_box_only_vx (flag : bool) n kk j i :
  n <> IVX -> (flag && vx_box p pco il iu jl ju kl ngh (n, kk, j, i))%bool = false.
Proof. intros H. destruct n; try contradiction; apply andb_false_r. Qed.

(** The primitive variables of a ghost cell after the primitive fill. *)
Lemma prim_fill_cell prim prim' k j i :
  prim_fill p fuel pco il iu jl ju kl ngh prim = Some prim' ->
  (1 <= k <= ngh)%Z -> (jl <= j <= ju)%Z -> (il <= i <= iu)%Z ->
  exists r_0,
    r0_r_z p fuel (x1v pco i) (x3v pco (kl - k)) = Some r_0
    /\ forall n, prim' n (kl - k)%Z j i
                 = cell_value p n r_0 (x3v pco (kl - k)) (x2v pco j).
Proof.
  intros E1 Hk Hj Hi.
  apply prim_fill_writes in E1. destruct E1 as [_ H1].
  pose proof (cell_box_intro il iu jl ju kl ngh k j i Hk Hj Hi) as Hbox.
  assert (Hcell : forall m, prim_written p fuel pco (m, (kl - k)%Z, j, i)
                                         (prim' m (kl - k)%Z j i)).
  { intros m. specialize (H1 (m, (kl - k)%Z, j, i)). simpl in H1.
    rewrite Hbox in H1. exact H1. }
  destruct (Hcell IDN) as (r_0 & Er & _).
  exists r_0. split; [exact Er |]. intros n.
  destruct (Hcell n) as (r_0' & Er' & En).
  rewrite Er in Er'. injection Er' as <-. exact En.
Qed.

(** The primitive variables of a ghost cell after the call: the values of
    the primitive fill, except that with magnetic fields the radial
    velocity of a near-core cell is rebuilt from the cell-centred field. *)
Lemma JetInnerX3_prim prim b prim' b' k j i :
  JetInnerX3 prim b il iu jl ju kl ku ngh = Some (prim', b') ->
  (1 <= k <= ngh)%Z -> (jl <= j <= ju)%Z -> (il <= i <= iu)%Z ->
  exists r_0,
    r0_r_z p fuel (x1v pco i) (x3v pco (kl - k)) = Some r_0
    /\ forall n,
         prim' n (kl - k)%Z j i =
         if (mhd && vx_box p pco il iu jl ju kl ngh (n, (kl - k)%Z, j, i))%bool then
           let bc := CCF b' pco il iu jl ju (kl - ngh)%Z ku in
           cell_value p IVZ r_0 (x3v pco (kl - k)) (x2v pco j)
           * bc IB1 (kl - k)%Z j i / bc IB3 (kl - k)%Z j i
         else cell_value p n r_0 (x3v pco (kl - k)) (x2v pco j).
Proof.
  intros Hrun Hk Hj Hi. unfold Jet.JetInnerX3 in Hrun.
  destruct (prim_fill p fuel pco il iu jl ju kl ngh prim) as [prim1 |] eqn:E1;
    [| discriminate].
  destruct (prim_fill_cell prim prim1 k j i E1 Hk Hj Hi) as (r_0 & Er & Hcell).
  exists r_0. split; [exact Er |]. intros n.
  destruct mhd; simpl.
  - destruct (x1f_fill p fuel pco il iu jl ju kl ngh b) as [b1 |]; [| discriminate].
    destruct (x2f_fill p fuel pco il iu jl ju kl ngh b1) as [b2 |]; [| discriminate].
    destruct (x3f_fill p fuel pco il iu jl ju kl ngh b2) as [b3 |]; [| discriminate].
    destruct (vx_from_field p pco il iu jl ju kl ngh
                (CCF b3 pco il iu jl ju (kl - ngh)%Z ku) prim1) as [prim2 |] eqn:E2;
      [| discriminate].
    injection Hrun as <- <-.
    apply vx_from_field_writes in E2. destruct E2 as [_ H2].
    specialize (H2 (n, (kl - k)%Z, j, i)). simpl in H2.
    destruct n; simpl; try (rewrite H2; apply Hcell).
    rewrite (cell_box_intro il iu jl ju kl ngh k j i Hk Hj Hi) in *. simpl in *.
    destruct (near_core p pco i).
    + rewrite H2, (Hcell IVZ). reflexivity.
    + rewrite H2. apply Hcell.
  - injection Hrun as <- <-. apply Hcell.
Qed.

(** The face fields after the call, with magnetic fields enabled. *)
Lemma JetInnerX3_faces prim b prim' b' :
  JetInnerX3 prim b il iu jl ju kl ku ngh = Some (prim', b') ->
  mhd = true ->
  forall k j i,
    (1 <= k <= ngh)%Z ->
    ((jl <= j <= ju)%Z -> (il <= i <= iu + 1)%Z ->
     x1f_value p fuel pco kl k i = Some (b_x1f b' (kl - k)%Z j i))
    /\ ((jl <= j <= ju + 1)%Z -> (il <= i <= iu)%Z ->
        b_x2f b' (kl - k)%Z j i = 0)
    /\ ((jl <= j <= ju)%Z -> (il <= i <= iu)%Z ->
        x3f_value p fuel pco il kl k i = Some (b_x3f b' (kl - k)%Z j i)).
Proof.
  intros Hrun -> k j i Hk. unfold Jet.JetInnerX3 in Hrun.
  destruct (prim_fill p fuel pco il iu jl ju kl ngh prim) as [prim1 |]; [| discriminate].
  destruct (x1f_fill p fuel pco il iu jl ju kl ngh b) as [b1 |] eqn:E1; [| discriminate].
  destruct (x2f_fill p fuel pco il iu jl ju kl ngh b1) as [b2 |] eqn:E2; [| discriminate].
  destruct (x3f_fill p fuel pco il iu jl ju kl ngh b2) as [b3 |] eqn:E3; [| discriminate].
  destruct (vx_from_field p pco il iu jl ju kl ngh
              (CCF b3 pco il iu jl ju (kl - ngh)%Z ku) prim1) as [prim2 |];
    [| discriminate].
  injection Hrun as <- <-.
  apply x1f_fill_writes in E1. destruct E1 as [_ H1].
  apply x2f_fill_writes in E2. destruct E2 as [_ H2].
  apply x3f_fill_writes in E3. destruct E3 as [_ H3].
  repeat split.
  - intros Hj Hi.
    pose proof (H3 (IB1, (kl - k)%Z, j, i)) as F3.
    pose proof (H2 (IB1, (kl - k)%Z, j, i)) as F2.
    pose proof (H1 (IB1, (kl - k)%Z, j, i)) as F1.
    simpl in F1, F2, F3.
    rewrite (cell_box_intro il (iu + 1) jl ju kl ngh k j i Hk Hj Hi) in F1.
    rewrite F3, F2. unfold x1f_written in F1. rewrite ghost_row_index in F1. exact F1.
  - intros Hj Hi.
    pose proof (H3 (IB2, (kl - k)%Z, j, i)) as F3.
    pose proof (H2 (IB2, (kl - k)%Z, j, i)) as F2.
    simpl in F2, F3.
    rewrite (cell_box_intro il iu jl (ju + 1) kl ngh k j i Hk Hj Hi) in F2.
    rewrite F3. exact F2.
  - intros Hj Hi.
    pose proof (H3 (IB3, (kl - k)%Z, j, i)) as F3. simpl in F3.
    rewrite (cell_box_intro il iu jl ju kl ngh k j i Hk Hj Hi) in F3.
    unfold x3f_written in F3. rewrite ghost_row_index in F3. exact F3.
Qed.

End BoundaryFunction.

(** ** The state of one ghost cell *)

Section CellState.

Variable p : Params.

Lemma lorentz_factor_unfold Psi k pr atw :
  lorentz_factor Psi k pr atw =
  Psi / (2 * k * pr) * (sqrt (1 + (4 * k * pr * atw) / (Psi * Psi)) - 1).
Proof. unfold lorentz_factor. replace (Psi ^ 2) with (Psi * Psi) by ring. reflexivity. Qed.

Lemma bernoulli_invariant_unfold atw B bern :
  bernoulli_invariant atw B bern = (atw + B * B) / bern.
Proof. unfold bernoulli_invariant. replace (B ^ 2) with (B * B) by ring. reflexivity. Qed.

Lemma smfnc_weight r_0 phi : smfnc (ghost_locals p r_0 phi) = weight p r_0.
Proof. reflexivity. Qed.

Lemma step_weight r_0 phi :
  step (ghost_locals p r_0 phi) = weight p (perturbed_radius p r_0 phi).
Proof.
  unfold perturbed_radius. rewrite (Rmult_comm (mang p) phi). reflexivity.
Qed.

Lemma atwd_sm_blend r_0 phi :
  atwd_sm (ghost_locals p r_0 phi) = atwoodMixed p (weight p r_0).
Proof. reflexivity. Qed.

Lemma Bphi_const_weight r_0 phi :
  Bphi_const (ghost_locals p r_0 phi) = Bphi p (weight p r_0).
Proof. reflexivity. Qed.

Lemma bernoulli_jet_unfold :
  bernoulli_jet p =
  (1 + gam_add p * p_amb p / d_jet p) * gamma_jet p
  + 1 / (gamma_jet p * d_jet p)
    * (b_0 p * a p * x1min p / (a p * a p + x1min p * x1min p)
       * SmoothStep ((x1min p - r_jet p) / dr_jet p)
       * (b_0 p * a p * x1min p / (a p * a p + x1min p * x1min p)
          * SmoothStep ((x1min p - r_jet p) / dr_jet p))).
Proof.
  unfold bernoulli_jet, weight, adiabatic_ratio, gam_add.
  set (B := b_0 p * a p * x1min p / _ * _).
  replace (B ^ 2) with (B * B) by ring. reflexivity.
Qed.

Lemma bern_sm_blend r_0 phi :
  bern_sm (ghost_locals p r_0 phi)
  = bernoulliMixed p (weight p (perturbed_radius p r_0 phi)).
Proof.
  unfold bernoulliMixed, blend. rewrite bernoulli_jet_unfold, <- step_weight. reflexivity.
Qed.

Lemma bern_sm_np_blend r_0 phi :
  bern_sm_np (ghost_locals p r_0 phi) = bernoulliMixed p (weight p r_0).
Proof.
  unfold bernoulliMixed, blend. rewrite bernoulli_jet_unfold. reflexivity.
Qed.

Lemma Psi_closed_form r_0 phi :
  let c := ghost_locals p r_0 phi in
  Psi c = bernoulli_invariant (atwd_sm c) (Bphi_const c) (bern_sm c).
Proof. cbv zeta. rewrite bernoulli_invariant_unfold. reflexivity. Qed.

Lemma Psi_np_closed_form r_0 phi :
  let c := ghost_locals p r_0 phi in
  Psi_np c = bernoulli_invariant (atwd_sm c) (Bphi_const c) (bern_sm_np c).
Proof. cbv zeta. rewrite bernoulli_invariant_unfold. reflexivity. Qed.

Lemma gamma_closed_form r_0 phi :
  let c := ghost_locals p r_0 phi in
  gamma c = lorentz_factor (Psi c) (gad p / (gad p - 1)) (p_amb p) (atwd_sm c).
Proof. cbv zeta. rewrite lorentz_factor_unfold. reflexivity. Qed.

Lemma gamma_np_closed_form r_0 phi :
  let c := ghost_locals p r_0 phi in
  gamma_np c = lorentz_factor (Psi_np c) (gad p / (gad p - 1)) (p_amb p) (atwd_sm c).
Proof. cbv zeta. rewrite lorentz_factor_unfold. reflexivity. Qed.

Lemma Psi_of_weights r_0 phi :
  Psi (ghost_locals p r_0 phi)
  = Psi_of p (weight p r_0) (weight p (perturbed_radius p r_0 phi)).
Proof.
  unfold Psi_of. rewrite <- bern_sm_blend, <- atwd_sm_blend with (phi := phi).
  rewrite <- Bphi_const_weight with (phi := phi). apply Psi_closed_form.
Qed.

Lemma Psi_np_of_weights r_0 phi :
  Psi_np (ghost_locals p r_0 phi) = Psi_of p (weight p r_0) (weight p r_0).
Proof.
  unfold Psi_of. rewrite <- bern_sm_np_blend with (phi := phi).
  rewrite <- atwd_sm_blend with (phi := phi).
  rewrite <- Bphi_const_weight with (phi := phi). apply Psi_np_closed_form.
Qed.

Lemma gamma_of_weights r_0 phi :
  gamma (ghost_locals p r_0 phi)
  = lorentz_of p (weight p r_0) (weight p (perturbed_radius p r_0 phi)).
Proof.
  unfold lorentz_of. rewrite <- Psi_of_weights, <- atwd_sm_blend with (phi := phi).
  apply gamma_closed_form.
Qed.

Lemma gamma_np_of_weights r_0 phi :
  gamma_np (ghost_locals p r_0 phi) = lorentz_of p (weight p r_0) (weight p r_0).
Proof.
  unfold lorentz_of. rewrite <- Psi_np_of_weights with (phi := phi).
  rewrite <- atwd_sm_blend with (phi := phi). apply gamma_np_closed_form.
Qed.

Lemma phang_ratio r_0 phi : phang (ghost_locals p r_0 phi) = azimuthalRatio p r_0.
Proof. reflexivity. Qed.

Lemma cell_density r_0 z phi :
  cell_value p IDN r_0 z phi
  = density_of p r_0 (weight p (perturbed_radius p r_0 phi)).
Proof.
  unfold density_of. rewrite <- Psi_of_weights, <- gamma_of_weights. reflexivity.
Qed.

Lemma cell_vz r_0 z phi : cell_value p IVZ r_0 z phi = vz_of p r_0 z.
Proof.
  unfold vz_of. rewrite <- gamma_np_of_weights with (phi := phi).
  rewrite <- phang_ratio with (phi := phi).
  unfold cell_value, SQR. f_equal. f_equal; [| f_equal]; ring.
Qed.

Lemma cell_vx r_0 z phi : cell_value p IVX r_0 z phi = vx_of p r_0 z.
Proof. unfold vx_of. rewrite <- cell_vz with (phi := phi). reflexivity. Qed.

Lemma cell_vy r_0 z phi : cell_value p IVY r_0 z phi = vy_of p r_0 z.
Proof.
  unfold vy_of. rewrite <- cell_vz with (phi := phi).
  rewrite <- phang_ratio with (phi := phi). reflexivity.
Qed.

Lemma cell_pressure r_0 z phi : cell_value p IPR r_0 z phi = p_amb p.
Proof. reflexivity. Qed.

(** Without perturbation the perturbed radius is the mapped radius. *)
Lemma perturbed_radius_flat r_0 phi : dang p = 0 -> perturbed_radius p r_0 phi = r_0.
Proof. intros H. unfold perturbed_radius. rewrite H. ring. Qed.

Lemma cell_value_flat n r_0 z phi phi' :
  dang p = 0 -> cell_value p n r_0 z phi = cell_value p n r_0 z phi'.
Proof.
  intros H. destruct n.
  - rewrite !cell_density, !perturbed_radius_flat by exact H. reflexivity.
  - rewrite !cell_vx. reflexivity.
  - rewrite !cell_vy. reflexivity.
  - rewrite !cell_vz. reflexivity.
  - reflexivity.
Qed.

End CellState.

(** ** Jets without opening angle

    With no radial velocity in the jet or the ambient medium the residual is
    [r_0 - x1]: the first secant point is the root and the loop of [r0_r_z]
    leaves at its first [break]. *)

Section StraightJet.

Variable p : Params.
Hypothesis no_vx_jet : vx_jet p = 0.
Hypothesis no_vx_amb : vx_amb p = 0.

Lemma rang_straight x : rang p x = 0.
Proof.
  unfold rang, rang_jet, rang_amb. rewrite no_vx_jet, no_vx_amb.
  unfold Rdiv. ring.
Qed.

Lemma f_straight r x1 x3 : f p r x1 x3 = r - x1.
Proof. unfold f. rewrite rang_straight. ring. Qed.

Lemma r0_r_z_straight n x1 x3 : exists r0, r0_r_z p (S n) x1 x3 = Some r0.
Proof.
  unfold r0_r_z.
  destruct (Rlt_dec x1 (r_jet p + dr_jet p)) as [Hhi |];
    [| destruct (Rle_dec x1 (x1min p)); eauto].
  destruct (Rgt_dec x1 (x1min p)) as [Hlo |];
    [| destruct (Rle_dec x1 (x1min p)); eauto].
  cbv zeta.
  destruct (Rlt_dec (Rabs (f p (x1min p) x1 x3)) tol); [eauto |].
  destruct (Rlt_dec (Rabs (f p (r_jet p + dr_jet p) x1 x3)) tol); [eauto |].
  simpl. pose proof eps_lt_1. destruct (Rgt_dec 1 eps); [| lra].
  unfold loop_body. simpl.
  assert (Hs : secant p (x1min p) (r_jet p + dr_jet p) x1 x3 = x1).
  { unfold secant. rewrite !f_straight. field. lra. }
  rewrite Hs, (f_straight x1), Rminus_diag, Rabs_R0.
  pose proof tol_pos. destruct (Rlt_dec 0 tol); [eauto | lra].
Qed.

Lemma A2_straight n x1 x3 : exists v, A2 p (S n) x1 x3 = Some v.
Proof.
  unfold A2. destruct (r0_r_z_straight n x1 x3) as [r0 ->]. eauto.
Qed.

Lemma straight_samples_solved n pco mhd il iu kl ngh :
  samples_solved p (S n) pco mhd il iu kl ngh.
Proof.
  split; [| intros _; split]; intros k i _ _.
  - destruct (r0_r_z_straight n (x1v pco i) (x3v pco (kl - k))) as [r0 ->]. discriminate.
  - unfold x1f_value. cbv zeta.
    destruct (Rlt_dec (x1f pco i) (x1min p));
      repeat match goal with
             | |- context [A2 p (S n) ?u ?v] =>
                 let E := fresh in destruct (A2_straight n u v) as [? E]; rewrite E
             end; discriminate.
  - unfold x3f_value. cbv zeta.
    destruct (Rlt_dec (x1f pco i) (x1min p));
      repeat match goal with
             | |- context [A2 p (S n) ?u ?v] =>
                 let E := fresh in destruct (A2_straight n u v) as [? E]; rewrite E
             end; discriminate.
Qed.

End StraightJet.

(** ** The definitions on concrete inputs *)

Section Examples.

Example SmoothStep_centre : SmoothStep 0 = 1 / 2.
Proof.
  rewrite SmoothStep_clamp. unfold clamp, Rmax, Rmin.
  destruct (Rle_dec 0 1); [| lra].
  destruct (Rle_dec 0 (-1)); lra.
Qed.

Example SmoothStep_quarter : SmoothStep (1 / 2) = 5 / 32.
Proof.
  rewrite SmoothStep_clamp. unfold clamp, Rmax, Rmin.
  destruct (Rle_dec (1 / 2) 1); [| lra].
  destruct (Rle_dec (1 / 2) (-1)); lra.
Qed.

(** A straight jet maps every radius of the mapping regime to itself: the
    first secant point is the query radius and meets the tolerance. *)
Example r0_r_z_straight_root : r0_r_z straight_jet 1 (1 / 2) 3 = Some (1 / 2).
Proof.
  unfold r0_r_z. simpl r_jet. simpl dr_jet. simpl x1min.
  destruct (Rlt_dec (1 / 2) (1 + 1 / 10)); [| lra].
  destruct (Rgt_dec (1 / 2) 0); [| lra].
  cbv zeta. rewrite !f_straight by reflexivity. unfold tol.
  destruct (Rlt_dec (Rabs (0 - 1 / 2)) (1 / 100000)) as [H | _].
  { rewrite Rabs_left in H by lra. lra. }
  destruct (Rlt_dec (Rabs (1 + 1 / 10 - 1 / 2)) (1 / 100000)) as [H | _].
  { rewrite Rabs_pos_eq in H by lra. lra. }
  simpl. pose proof eps_lt_1. destruct (Rgt_dec 1 eps); [| lra].
  unfold loop_body. simpl.
  assert (Hs : secant straight_jet 0 (1 + 1 / 10) (1 / 2) 3 = 1 / 2).
  { unfold secant. rewrite !f_straight by reflexivity. field. }
  rewrite Hs, f_straight, Rminus_diag, Rabs_R0 by reflexivity.
  pose proof tol_pos. destruct (Rlt_dec 0 tol); [reflexivity | lra].
Qed.

(** With no fuel the same call does not get through its first pass. *)
Example r0_r_z_straight_no_fuel : r0_r_z straight_jet 0 (1 / 2) 3 = None.
Proof.
  unfold r0_r_z. simpl r_jet. simpl dr_jet. simpl x1min.
  destruct (Rlt_dec (1 / 2) (1 + 1 / 10)); [| lra].
  destruct (Rgt_dec (1 / 2) 0); [| lra].
  cbv zeta. rewrite !f_straight by reflexivity. unfold tol.
  destruct (Rlt_dec (Rabs (0 - 1 / 2)) (1 / 100000)) as [H | _].
  { rewrite Rabs_left in H by lra. lra. }
  destruct (Rlt_dec (Rabs (1 + 1 / 10 - 1 / 2)) (1 / 100000)) as [H | _].
  { rewrite Rabs_pos_eq in H by lra. lra. }
  simpl. pose proof eps_lt_1. destruct (Rgt_dec 1 eps); [reflexivity | lra].
Qed.

End Examples.

(** ** What the root-solve returns *)

Section SolverAccuracyFacts.

Variable p : Params.
Variables x1 x3 : R.
Variables lo hi : R.

Lemma loop_body_break s r :
  loop_body p x1 x3 s = Break r -> Rabs (f p r x1 x3) < tol.
Proof.
  unfold loop_body.
  destruct (Rlt_dec (Rabs (f p (secant p (ls_r1 s) (ls_r2 s) x1 x3) x1 x3)) tol) as [H | H].
  - intros E. injection E as <-. exact H.
  - destruct (Rlt_dec _ 0); discriminate.
Qed.

Lemma loop_body_candidate s s' :
  bracket_inv p x1 x3 lo hi s ->
  loop_body p x1 x3 s = Continue s' ->
  candidate_inv p x1 x3 lo hi s'.
Proof.
  intros (Hlo & Hlt & Hhi & Hs & _) Hb.
  pose proof (secant_between p x1 x3 _ _ Hlt Hs) as Hbetween.
  right. exists (ls_r1 s), (ls_r2 s).
  unfold loop_body in Hb.
  destruct (Rlt_dec (Rabs (f p (secant p (ls_r1 s) (ls_r2 s) x1 x3) x1 x3)) tol);
    [discriminate |].
  destruct (Rlt_dec _ 0); injection Hb as <-; simpl;
    (repeat split; try lra; try exact Hs;
     rewrite Rabs_left by lra; lra).
Qed.

Lemma while_loop_accuracy fuel :
  forall s r,
    bracket_inv p x1 x3 lo hi s -> candidate_inv p x1 x3 lo hi s ->
    while_loop p fuel x1 x3 s = Some r ->
    Rabs (f p r x1 x3) < tol \/ narrow_bracket p x1 x3 lo hi r.
Proof.
  assert (Hexit : forall s, candidate_inv p x1 x3 lo hi s -> ~ ls_diff s > eps ->
                            narrow_bracket p x1 x3 lo hi (ls_r3 s)).
  { intros s [Hd | (r1 & r2 & H1 & H2 & H3 & Hw & Hs)] Hguard; [contradiction |].
    exists r1, r2. repeat split; try lra; try exact Hs. }
  induction fuel as [| n IH]; intros s r Hinv Hcand; simpl.
  - destruct (Rgt_dec (ls_diff s) eps) as [Hd | Hd]; [discriminate |].
    intros E. injection E as <-. right. apply Hexit; assumption.
  - destruct (Rgt_dec (ls_diff s) eps) as [Hd | Hd].
    + destruct (loop_body p x1 x3 s) as [r3 | s'] eqn:Eb.
      * intros E. injection E as <-. left. eapply loop_body_break. exact Eb.
      * pose proof (loop_body_bracket p x1 x3 lo hi s Hinv) as Hb.
        rewrite Eb in Hb. destruct Hb as [Hinv' _].
        apply IH; [exact Hinv' | exact (loop_body_candidate s s' Hinv Eb)].
    + intros E. injection E as <-. right. apply Hexit; assumption.
Qed.

End SolverAccuracyFacts.

Section SolverRegime.

Variable p : Params.

Local Abbreviation lo := (x1min p).
Local Abbreviation hi := (r_jet p + dr_jet p).

Lemma r0_r_z_accuracy fuel x1 x3 r0 :
  lo < x1 < hi ->
  f p lo x1 x3 * f p hi x1 x3 < 0 ->
  r0_r_z p fuel x1 x3 = Some r0 ->
  Rabs (f p r0 x1 x3) < tol \/ narrow_bracket p x1 x3 lo hi r0.
Proof.
  intros [H1 H2] Hs. unfold r0_r_z.
  destruct (Rlt_dec x1 hi); [| lra].
  destruct (Rgt_dec x1 lo); [| lra].
  cbv zeta.
  destruct (Rlt_dec (Rabs (f p lo x1 x3)) tol) as [Ha | Ha];
    [intros E; injection E as <-; left; exact Ha |].
  destruct (Rlt_dec (Rabs (f p hi x1 x3)) tol) as [Hb | Hb];
    [intros E; injection E as <-; left; exact Hb |].
  apply while_loop_accuracy.
  - apply loop_entry_bracket; [lra | assumption ..].
  - left. simpl. apply eps_lt_1.
Qed.

(** The residual at the inner edge is the distance to the query radius, and
    at the outer end of the bracket only the ambient opening rate enters. *)
Lemma rang_inner_edge : rang p lo = 0.
Proof. unfold rang. unfold Rdiv. ring. Qed.

Lemma f_inner_edge x1 x3 : f p lo x1 x3 = lo - x1.
Proof. unfold f. rewrite rang_inner_edge. ring. Qed.




(** A residual that is the plain distance [r - x1] is solved by the first
    secant point. *)
Lemma r0_r_z_linear n x1 x3 :
  (forall r, f p r x1 x3 = r - x1) ->
  lo < x1 < hi ->
  exists r0,
    r0_r_z p (S n) x1 x3 = Some r0
    /\ Rabs (r0 - x1) < tol
    /\ (tol <= x1 - lo -> tol <= hi - x1 -> r0 = x1).
Proof.
  intros Hlin [H1 H2]. unfold r0_r_z.
  destruct (Rlt_dec x1 hi); [| lra].
  destruct (Rgt_dec x1 lo); [| lra].
  cbv zeta. rewrite !Hlin.
  destruct (Rlt_dec (Rabs (lo - x1)) tol) as [Ha | Ha].
  { exists lo. split; [reflexivity |]. split; [exact Ha |].
    intros Hd _. rewrite Rabs_left in Ha by lra. lra. }
  destruct (Rlt_dec (Rabs (hi - x1)) tol) as [Hb | Hb].
  { exists hi. split; [reflexivity |]. split; [exact Hb |].
    intros _ Hd. rewrite Rabs_pos_eq in Hb by lra. lra. }
  exists x1. simpl. pose proof eps_lt_1. destruct (Rgt_dec 1 eps); [| lra].
  unfold loop_body. simpl.
  assert (Hs : secant p lo hi x1 x3 = x1).
  { unfold secant. rewrite !Hlin. field. lra. }
  rewrite Hs, Hlin, Rminus_diag, Rabs_R0.
  pose proof tol_pos. destruct (Rlt_dec 0 tol); [| lra].
  split; [reflexivity |]. split; [assumption | reflexivity].
Qed.

Lemma f_at_origin r x1 : f p r x1 0 = r - x1.
Proof.
  unfold f. replace (- 0 / z_0 p) with 0 by (unfold Rdiv; ring).
  rewrite exp_0. ring.
Qed.

End SolverRegime.

(** ** Uniqueness of the field-line foot *)

Section UniqueFoot.

Variable p : Params.
Hypothesis wf : well_formed p.
Variables x1 x3 : R.
Hypothesis contraction : lipschitz_f p x3 < 2.

Local Abbreviation lo := (x1min p).
Local Abbreviation hi := (r_jet p + dr_jet p).

Lemma f_increasing x y :
  lo <= y -> y <= x -> x <= hi ->
  (2 - lipschitz_f p x3) * (x - y) <= f p x x1 x3 - f p y x1 x3.
Proof.
  intros Hy Hyx Hx. unfold f, lipschitz_f.
  set (c := 1 - exp (- x3 / z_0 p)).
  replace (x + rang p x * z_0 p * c - x1 - (y + rang p y * z_0 p * c - x1))
    with ((x - y) + (rang p x - rang p y) * (z_0 p * c)) by ring.
  pose proof (rang_lipschitz p wf x y ltac:(lra) ltac:(lra)) as Hr.
  rewrite (Rabs_pos_eq (x - y)) in Hr by lra.
  pose proof (Rabs_pos (z_0 p * c)) as Hc.
  assert (Hprod : Rabs ((rang p x - rang p y) * (z_0 p * c))
                  <= lipschitz_rang p * (x - y) * Rabs (z_0 p * c)).
  { rewrite Rabs_mult. apply Rmult_le_compat_r; assumption. }
  pose proof (Rle_abs (- ((rang p x - rang p y) * (z_0 p * c)))) as Hneg.
  rewrite Rabs_Ropp in Hneg.
  fold c. lra.
Qed.

Lemma f_strictly_increasing x y :
  lo <= y -> y < x -> x <= hi -> f p y x1 x3 < f p x x1 x3.
Proof.
  intros Hy Hyx Hx.
  pose proof (f_increasing x y Hy (Rlt_le _ _ Hyx) Hx) as Hinc.
  assert (0 < (2 - lipschitz_f p x3) * (x - y)) by (apply Rmult_lt_0_compat; lra).
  lra.
Qed.

Lemma f_root_between r1 r2 r :
  lo <= r1 -> r1 <= r2 -> r2 <= hi -> lo <= r <= hi ->
  f p r1 x1 x3 * f p r2 x1 x3 < 0 -> f p r x1 x3 = 0 ->
  r1 < r < r2.
Proof.
  intros H1 H12 H2 Hr Hs Hroot.
  assert (Hne : r1 < r2).
  { destruct H12 as [H | ->]; [exact H |].
    pose proof (Rle_0_sqr (f p r2 x1 x3)) as Hsq. unfold Rsqr in Hsq. lra. }
  pose proof (f_strictly_increasing r2 r1 H1 Hne H2) as Hinc.
  assert (Hsign : f p r1 x1 x3 < 0 < f p r2 x1 x3) by (split; nra).
  split.
  - destruct (Rlt_le_dec r1 r) as [H | H]; [exact H | exfalso].
    destruct H as [H | ->]; [| lra].
    pose proof (f_strictly_increasing r1 r (proj1 Hr) H ltac:(lra)). lra.
  - destruct (Rlt_le_dec r r2) as [H | H]; [exact H | exfalso].
    destruct H as [H | <-]; [| lra].
    pose proof (f_strictly_increasing r r2 ltac:(lra) H (proj2 Hr)). lra.
Qed.

Lemma f_root_unique r r' :
  lo <= r <= hi -> lo <= r' <= hi ->
  f p r x1 x3 = 0 -> f p r' x1 x3 = 0 -> r' = r.
Proof.
  intros Hr Hr' E E'.
  destruct (Rtotal_order r r') as [H | [H | H]]; [exfalso | congruence | exfalso].
  - pose proof (f_strictly_increasing r' r (proj1 Hr) H (proj2 Hr')). lra.
  - pose proof (f_strictly_increasing r r' (proj1 Hr') H (proj2 Hr)). lra.
Qed.

Lemma f_small_near_root r r0 :
  lo <= r <= hi -> lo <= r0 <= hi ->
  f p r x1 x3 = 0 -> Rabs (f p r0 x1 x3) < tol ->
  (2 - lipschitz_f p x3) * Rabs (r0 - r) < tol.
Proof.
  intros Hr Hr0 E Hsmall.
  apply Rabs_def2 in Hsmall.
  destruct (Rle_lt_dec r r0) as [H | H].
  - rewrite Rabs_pos_eq by lra.
    pose proof (f_increasing r0 r (proj1 Hr) H (proj2 Hr0)). lra.
  - rewrite Rabs_left by lra.
    pose proof (f_increasing r r0 (proj1 Hr0) (Rlt_le _ _ H) (proj2 Hr)).
    replace (- (r0 - r)) with (r - r0) by ring. lra.
Qed.

(** A root in the bracket makes the bracket sign-changing, unless it is the
    outer end itself. *)
Lemma root_sign_change r :
  lo < x1 < hi -> lo <= r <= hi -> f p r x1 x3 = 0 ->
  f p lo x1 x3 < 0 /\ 0 <= f p hi x1 x3.
Proof.
  intros Hreg Hr E. rewrite f_inner_edge. split; [lra |].
  destruct (proj2 Hr) as [H | H]; [| rewrite <- H, E; lra].
  pose proof (f_strictly_increasing hi r (proj1 Hr) H (Rle_refl _)). lra.
Qed.

Lemma r0_r_z_outer_root fuel r0 :
  lo < x1 < hi -> f p hi x1 x3 = 0 ->
  r0_r_z p fuel x1 x3 = Some r0 ->
  lo <= r0 <= hi /\ Rabs (f p r0 x1 x3) < tol.
Proof.
  intros [H1 H2] E. unfold r0_r_z.
  destruct (Rlt_dec x1 hi); [| lra].
  destruct (Rgt_dec x1 lo); [| lra].
  cbv zeta.
  destruct (Rlt_dec (Rabs (f p lo x1 x3)) tol) as [Ha | Ha];
    [intros E'; injection E' as <-; split; [lra | exact Ha] |].
  destruct (Rlt_dec (Rabs (f p hi x1 x3)) tol) as [Hb | Hb];
    [intros E'; injection E' as <-; split; [lra | exact Hb] |].
  exfalso. apply Hb. rewrite E, Rabs_R0. apply tol_pos.
Qed.

Lemma r0_r_z_outer_root_returns fuel :
  lo < x1 < hi -> f p hi x1 x3 = 0 ->
  exists r0, r0_r_z p fuel x1 x3 = Some r0.
Proof.
  intros [H1 H2] E. unfold r0_r_z.
  destruct (Rlt_dec x1 hi); [| lra].
  destruct (Rgt_dec x1 lo); [| lra].
  cbv zeta.
  destruct (Rlt_dec (Rabs (f p lo x1 x3)) tol); [eauto |].
  destruct (Rlt_dec (Rabs (f p hi x1 x3)) tol) as [Hb | Hb]; [eauto |].
  exfalso. apply Hb. rewrite E, Rabs_R0. apply tol_pos.
Qed.

End UniqueFoot.

(** ** More on the boundary function: what it leaves alone, and its faces *)

Section BoundaryFrame.

Variable p : Params.
Variable mhd : bool.
Variable CCF : FaceField -> Coordinates -> Z -> Z -> Z -> Z -> Z -> Z -> FieldArray.
Variable fuel : nat.
Variable pco : Coordinates.
Variables il iu jl ju kl ku ngh : Z.

Lemma cell_box_outside il0 iu0 jl0 ju0 kk j i :
  ~ ((kl - ngh <= kk <= kl - 1)%Z /\ (jl0 <= j <= ju0)%Z /\ (il0 <= i <= iu0)%Z) ->
  cell_box il0 iu0 jl0 ju0 kl ngh kk j i = false.
Proof.
  intros H. apply not_true_is_false. intros Hbox. apply H.
  unfold cell_box, ghost_row in Hbox. unbox_in Hbox. lia.
Qed.

Lemma JetInnerX3_prim_frame prim b prim' b' n kk j i :
  JetInnerX3 p mhd CCF fuel pco prim b il iu jl ju kl ku ngh = Some (prim', b') ->
  cell_box il iu jl ju kl ngh kk j i = false ->
  prim' n kk j i = prim n kk j i.
Proof.
  intros Hrun Hbox. unfold JetInnerX3 in Hrun.
  destruct (prim_fill p fuel pco il iu jl ju kl ngh prim) as [prim1 |] eqn:E1;
    [| discriminate].
  apply prim_fill_writes in E1. destruct E1 as [_ H1].
  specialize (H1 (n, kk, j, i)). simpl in H1. rewrite Hbox in H1.
  destruct mhd.
  - destruct (x1f_fill p fuel pco il iu jl ju kl ngh b) as [b1 |]; [| discriminate].
    destruct (x2f_fill p fuel pco il iu jl ju kl ngh b1) as [b2 |]; [| discriminate].
    destruct (x3f_fill p fuel pco il iu jl ju kl ngh b2) as [b3 |]; [| discriminate].
    destruct (vx_from_field p pco il iu jl ju kl ngh
                (CCF b3 pco il iu jl ju (kl - ngh)%Z ku) prim1) as [prim2 |] eqn:E2;
      [| discriminate].
    injection Hrun as <- <-.
    apply vx_from_field_writes in E2. destruct E2 as [_ H2].
    specialize (H2 (n, kk, j, i)). simpl in H2.
    destruct n; try (rewrite H2; exact H1).
    rewrite Hbox in H2. simpl in H2. rewrite H2. exact H1.
  - injection Hrun as <- <-. exact H1.
Qed.

Lemma JetInnerX3_hydro_faces prim b prim' b' :
  mhd = false ->
  JetInnerX3 p mhd CCF fuel pco prim b il iu jl ju kl ku ngh = Some (prim', b') ->
  b' = b.
Proof.
  intros -> Hrun. unfold JetInnerX3 in Hrun.
  destruct (prim_fill p fuel pco il iu jl ju kl ngh prim); [| discriminate].
  injection Hrun as _ <-. reflexivity.
Qed.

Lemma JetInnerX3_face_frame prim b prim' b' kk j i :
  JetInnerX3 p mhd CCF fuel pco prim b il iu jl ju kl ku ngh = Some (prim', b') ->
  (cell_box il (iu + 1) jl ju kl ngh kk j i = false ->
   b_x1f b' kk j i = b_x1f b kk j i)
  /\ (cell_box il iu jl (ju + 1) kl ngh kk j i = false ->
      b_x2f b' kk j i = b_x2f b kk j i)
  /\ (cell_box il iu jl ju kl ngh kk j i = false ->
      b_x3f b' kk j i = b_x3f b kk j i).
Proof.
  intros Hrun. destruct mhd eqn:Em.
  - unfold JetInnerX3 in Hrun.
    destruct (prim_fill p fuel pco il iu jl ju kl ngh prim) as [prim1 |]; [| discriminate].
    destruct (x1f_fill p fuel pco il iu jl ju kl ngh b) as [b1 |] eqn:E1; [| discriminate].
    destruct (x2f_fill p fuel pco il iu jl ju kl ngh b1) as [b2 |] eqn:E2; [| discriminate].
    destruct (x3f_fill p fuel pco il iu jl ju kl ngh b2) as [b3 |] eqn:E3; [| discriminate].
    destruct (vx_from_field p pco il iu jl ju kl ngh
                (CCF b3 pco il iu jl ju (kl - ngh)%Z ku) prim1) as [prim2 |];
      [| discriminate].
    injection Hrun as <- <-.
    apply x1f_fill_writes in E1. destruct E1 as [_ H1].
    apply x2f_fill_writes in E2. destruct E2 as [_ H2].
    apply x3f_fill_writes in E3. destruct E3 as [_ H3].
    repeat split; intros Hbox.
    + pose proof (H3 (IB1, kk, j, i)) as F3. pose proof (H2 (IB1, kk, j, i)) as F2.
      pose proof (H1 (IB1, kk, j, i)) as F1. simpl in F1, F2, F3.
      rewrite Hbox in F1. rewrite F3, F2. exact F1.
    + pose proof (H3 (IB2, kk, j, i)) as F3. pose proof (H2 (IB2, kk, j, i)) as F2.
      pose proof (H1 (IB2, kk, j, i)) as F1. simpl in F1, F2, F3.
      rewrite Hbox in F2. rewrite F3, F2. exact F1.
    + pose proof (H3 (IB3, kk, j, i)) as F3. pose proof (H2 (IB3, kk, j, i)) as F2.
      pose proof (H1 (IB3, kk, j, i)) as F1. simpl in F1, F2, F3.
      rewrite Hbox in F3. rewrite F3, F2. exact F1.
  - unfold JetInnerX3 in Hrun.
    destruct (prim_fill p fuel pco il iu jl ju kl ngh prim); [| discriminate].
    injection Hrun as _ <-. auto.
Qed.

End BoundaryFrame.

Section FaceValues.

Variable p : Params.
Variable fuel : nat.
Variable pco : Coordinates.

(** Outside the transition band field lines are straight: the source radius
    is the radius itself and the potential is the frozen flux over the
    radius, whatever the axial position. *)
Lemma A2_outside x1 x3 :
  well_formed p ->
  r_jet p + dr_jet p <= x1 -> x1min p <= x1 ->
  A2 p fuel x1 x3 = Some (flux_C p / x1).
Proof.
  intros Hwf Hhi Hlo. unfold A2, r0_r_z.
  destruct (Rlt_dec x1 (r_jet p + dr_jet p)); [lra |].
  destruct (Rle_dec x1 (x1min p)) as [Hle | Hgt].
  - replace (x1min p) with x1 by lra.
    rewrite (flux_intg_C p Hwf x1) by lra. reflexivity.
  - rewrite (flux_intg_C p Hwf x1) by lra. reflexivity.
Qed.

Lemma x1f_value_plain kl k i v :
  ~ x1f pco i < x1min p ->
  x1f_value p fuel pco kl k i = Some v ->
  exists A A',
    A2 p fuel (x1f pco i) (x3f pco (kl - k)) = Some A
    /\ A2 p fuel (x1f pco i) (x3f pco (kl - k + 1)) = Some A'
    /\ v = (A - A') / (x3v pco (k + 1) - x3v pco k).
Proof.
  intros Hplain. unfold x1f_value. cbv zeta.
  destruct (Rlt_dec (x1f pco i) (x1min p)); [contradiction |].
  destruct (A2 p fuel (x1f pco i) (x3f pco (kl - k))) as [A |]; [| discriminate].
  destruct (A2 p fuel (x1f pco i) (x3f pco (kl - k + 1))) as [A' |]; [| discriminate].
  intros E. injection E as <-. eauto.
Qed.

Lemma x3f_value_plain il kl k i v :
  ~ x1f pco i < x1min p ->
  x3f_value p fuel pco il kl k i = Some v ->
  exists A_p1 A,
    A2 p fuel (x1f pco (i + 1)) (x3f pco (kl - k)) = Some A_p1
    /\ A2 p fuel (x1f pco i) (x3f pco (kl - k)) = Some A
    /\ v = 2 * (x1f pco (i + 1) * A_p1 - x1f pco i * A)
           / (SQR (x1f pco (i + 1)) - SQR (x1f pco i)).
Proof.
  intros Hplain. unfold x3f_value. cbv zeta.
  destruct (Rlt_dec (x1f pco i) (x1min p)); [contradiction |].
  destruct (A2 p fuel (x1f pco (i + 1)) (x3f pco (kl - k))) as [A_p1 |]; [| discriminate].
  destruct (A2 p fuel (x1f pco i) (x3f pco (kl - k))) as [A |]; [| discriminate].
  intros E. injection E as <-. eauto.
Qed.

End FaceValues.

(** ** The blended state at the two ends of the blend *)

Section BlendEnds.

Lemma lorentz_factor_inverts g dd k pr :
  0 < g -> 0 < dd -> 0 < k * pr ->
  lorentz_factor (g * dd) k pr (g * g * (dd + k * pr)) = g.
Proof.
  intros Hg Hd Hkp. unfold lorentz_factor.
  replace (1 + 4 * k * pr * (g * g * (dd + k * pr)) / (g * dd) ^ 2)
    with (Rsqr ((dd + 2 * (k * pr)) / dd)) by (unfold Rsqr; field; lra).
  rewrite sqrt_Rsqr.
  - field. repeat split; try lra.
    + intros E. rewrite E in Hkp. lra.
    + intros E. rewrite E in Hkp. lra.
  - apply Rlt_le, Rdiv_lt_0_compat; lra.
Qed.

Lemma blend_jet j a0 : blend j a0 1 = j.
Proof. unfold blend. ring. Qed.

Lemma blend_amb j a0 : blend j a0 0 = a0.
Proof. unfold blend. ring. Qed.

Variable p : Params.

Lemma gamma_amb_ge_1 : 1 <= gamma_amb p.
Proof.
  unfold gamma_amb. rewrite <- sqrt_1 at 1. apply sqrt_le_1_alt.
  pose proof (Rle_0_sqr (vx_amb p)). pose proof (Rle_0_sqr (vy_amb p)).
  pose proof (Rle_0_sqr (vz_amb p)). unfold Rsqr in *. lra.
Qed.

Lemma gamma_jet_ge_1 : 1 <= gamma_jet p.
Proof.
  unfold gamma_jet. rewrite <- sqrt_1 at 1. apply sqrt_le_1_alt.
  pose proof (Rle_0_sqr (vx_jet p)). pose proof (Rle_0_sqr (vy_jet p)).
  pose proof (Rle_0_sqr (vz_jet p)). unfold Rsqr in *. lra.
Qed.

Hypothesis pressure_pos : 0 < gad p / (gad p - 1) * p_amb p.

Lemma Psi_of_ambient : 0 < d_amb p -> Psi_of p 0 0 = gamma_amb p * d_amb p.
Proof.
  intros Hd. pose proof gamma_amb_ge_1 as Hg.
  unfold Psi_of. replace (Bphi p 0) with 0 by (unfold Bphi; ring).
  unfold bernoulli_invariant, atwoodMixed, bernoulliMixed, blend.
  set (aj := atwood_jet p). set (bj := bernoulli_jet p).
  unfold atwood_amb, bernoulli_amb, adiabatic_ratio.
  set (kp := gad p / (gad p - 1) * p_amb p) in *.
  replace (gad p / (gad p - 1) * p_amb p / d_amb p) with (kp / d_amb p) by reflexivity.
  field. repeat split; lra.
Qed.

Lemma lorentz_of_ambient : 0 < d_amb p -> lorentz_of p 0 0 = gamma_amb p.
Proof.
  intros Hd. pose proof gamma_amb_ge_1 as Hg.
  unfold lorentz_of. rewrite Psi_of_ambient by exact Hd.
  replace (atwoodMixed p 0)
    with (gamma_amb p * gamma_amb p * (d_amb p + adiabatic_ratio p * p_amb p))
    by (unfold atwoodMixed, blend, atwood_amb; ring).
  apply lorentz_factor_inverts; [lra | exact Hd | exact pressure_pos].
Qed.

Lemma density_of_ambient r_0 :
  0 < d_amb p -> weight p r_0 = 0 -> density_of p r_0 0 = d_amb p.
Proof.
  intros Hd Hw. pose proof gamma_amb_ge_1 as Hg.
  unfold density_of. rewrite Hw, Psi_of_ambient, lorentz_of_ambient by exact Hd.
  field. lra.
Qed.

Hypothesis no_field : b_0 p = 0.

Lemma Psi_of_core : 0 < d_jet p -> Psi_of p 1 1 = gamma_jet p * d_jet p.
Proof.
  intros Hd. pose proof gamma_jet_ge_1 as Hg.
  unfold Psi_of.
  replace (Bphi p 1) with 0 by (unfold Bphi; rewrite no_field; unfold Rdiv; ring).
  unfold bernoulli_invariant, atwoodMixed, bernoulliMixed. rewrite !blend_jet.
  unfold atwood_jet, bernoulli_jet, adiabatic_ratio. rewrite no_field.
  set (kp := gad p / (gad p - 1) * p_amb p) in *.
  replace (gad p / (gad p - 1) * p_amb p / d_jet p) with (kp / d_jet p) by reflexivity.
  set (w := weight p (x1min p)).
  set (q := a p * a p + x1min p * x1min p).
  replace (0 * a p * x1min p / q * w) with 0 by (unfold Rdiv; ring).
  field. repeat split; lra.
Qed.

Lemma lorentz_of_core : 0 < d_jet p -> lorentz_of p 1 1 = gamma_jet p.
Proof.
  intros Hd. pose proof gamma_jet_ge_1 as Hg.
  unfold lorentz_of. rewrite Psi_of_core by exact Hd.
  replace (atwoodMixed p 1)
    with (gamma_jet p * gamma_jet p * (d_jet p + adiabatic_ratio p * p_amb p))
    by (unfold atwoodMixed; rewrite blend_jet; reflexivity).
  apply lorentz_factor_inverts; [lra | exact Hd | exact pressure_pos].
Qed.

Lemma density_of_core r_0 :
  0 < d_jet p -> weight p r_0 = 1 -> density_of p r_0 1 = d_jet p.
Proof.
  intros Hd Hw. pose proof gamma_jet_ge_1 as Hg.
  unfold density_of. rewrite Hw, Psi_of_core, lorentz_of_core by exact Hd.
  field. lra.
Qed.

End BlendEnds.

Section AxialFlow.

Variable p : Params.

Lemma sqrt_axial v : 0 <= v -> sqrt (1 + 0 * 0 + 0 * 0 + v * v) ^ 2 - 1 = v * v.
Proof.
  intros Hv. simpl. rewrite Rmult_1_r, sqrt_sqrt; [ring |].
  pose proof (Rle_0_sqr v). unfold Rsqr in *. lra.
Qed.

(** With a purely axial flow on the side the weight selects, the blended
    rates vanish and the axial speed is that side's. *)
Lemma vz_of_axial r_0 z g v :
  0 <= v ->
  lorentz_of p (weight p r_0) (weight p r_0) = sqrt (1 + 0 * 0 + 0 * 0 + v * v) ->
  rang p r_0 = 0 -> azimuthalRatio p r_0 = 0 ->
  g = v -> vz_of p r_0 z = g.
Proof.
  intros Hv Hg Hr Ha ->. unfold vz_of.
  rewrite Hg, Hr, Ha, sqrt_axial by exact Hv.
  replace (v * v / (1 + 0 ^ 2 * exp (-2 * z / z_0 p) + 0 ^ 2)) with (Rsqr v)
    by (unfold Rsqr; field).
  apply sqrt_Rsqr. exact Hv.
Qed.

End AxialFlow.


(** ** Running maximum of [RefinementCondition] *)

Section RunningMaximum.

Variable Q : Z -> R -> Prop.
Variable body : Z -> R -> R.

Local Abbreviation max_pass := (max_pass Q body).

Lemma body_monotone i m m' : max_pass i -> m <= m' -> body i m <= body i m' .
Proof.
  intros Hi Hm. destruct (Hi m) as (_ & _ & [-> | Hq]).
  - destruct (Hi m') as (H & _). lra.
  - destruct (Hi m') as (_ & H & _). apply H. exact Hq.
Qed.

Lemma fold_left_max l :
  (forall i, In i l -> max_pass i) ->
  forall m,
    let m' := fold_left (fun s i => body i s) l m in
    m <= m'
    /\ (forall i v, In i l -> Q i v -> v <= m')
    /\ (m' = m \/ exists i, In i l /\ Q i m').
Proof.
  induction l as [| i rest IH]; intros Hl m; simpl.
  - split; [lra |]. split; [intros i v [] | left; reflexivity].
  - destruct (Hl i (or_introl eq_refl) m) as (H1 & H2 & H3).
    destruct (IH (fun i0 Hin => Hl i0 (or_intror Hin)) (body i m)) as (G1 & G2 & G3).
    split; [lra |]. split.
    + intros i0 v [<- | Hin] Hq.
      * specialize (H2 v Hq). lra.
      * exact (G2 i0 v Hin Hq).
    + destruct G3 as [E | (i0 & Hin & Hq)].
      * rewrite E. destruct H3 as [-> | Hq]; [left; reflexivity |].
        right. exists i. split; [left; reflexivity | exact Hq].
      * right. exists i0. split; [right; exact Hin | exact Hq].
Qed.

Lemma fold_loop_max lo hi :
  (forall i, (lo <= i <= hi)%Z -> max_pass i) ->
  forall m,
    let m' := fold_loop lo hi body m in
    m <= m'
    /\ (forall i v, (lo <= i <= hi)%Z -> Q i v -> v <= m')
    /\ (m' = m \/ exists i, (lo <= i <= hi)%Z /\ Q i m').
Proof.
  intros Hl m. unfold fold_loop.
  destruct (fold_left_max (index_range lo hi)
              (fun i Hin => Hl i (proj1 (in_index_range lo hi i) Hin)) m)
    as (H1 & H2 & H3).
  split; [exact H1 |]. split.
  - intros i v Hi. apply H2. apply in_index_range. exact Hi.
  - destruct H3 as [E | (i & Hin & Hq)]; [left; exact E |].
    right. exists i. split; [apply in_index_range; exact Hin | exact Hq].
Qed.

End RunningMaximum.

Lemma block_box_spec il iu jl ju kl ku k j i :
  block_box il iu jl ju kl ku k j i = true <->
  (kl <= k <= ku)%Z /\ (jl <= j <= ju)%Z /\ (il <= i <= iu)%Z.
Proof. unfold block_box. unbox. tauto. Qed.

Section MaxSigma.

Variable pmb : MeshBlock.

Local Abbreviation sigma := (magnetisation pmb).

Local Abbreviation row_max := (row_max pmb).
Local Abbreviation plane_max := (plane_max pmb).
Local Abbreviation block_max := (block_max pmb).

Lemma RefinementCondition_unfold :
  RefinementCondition pmb = if Rgt_dec (block_max 0) (1 / 100) then 1%Z else 0%Z.
Proof. reflexivity. Qed.

Lemma row_max_pass k j :
  max_pass (fun j0 v => exists i, ((is_ pmb <= i <= ie pmb)%Z) /\ v = sigma k j0 i)
           (row_max k) j.
Proof.
  intros m. unfold row_max.
  destruct (fold_loop_max (fun i v => v = sigma k j i)
              (fun i maxsig => if Rlt_dec maxsig (sigma k j i) then sigma k j i else maxsig)
              (is_ pmb) (ie pmb)) with (m := m) as (H1 & H2 & H3).
  - intros i _ m0. destruct (Rlt_dec m0 (sigma k j i)).
    + split; [lra |]. split; [intros v ->; lra | right; reflexivity].
    + split; [lra |]. split; [intros v ->; lra | left; reflexivity].
  - split; [exact H1 |]. split.
    + intros v (i & Hi & ->). apply (H2 i); [exact Hi | reflexivity].
    + destruct H3 as [E | (i & Hi & E)]; [left; exact E |].
      right. exists i. split; [exact Hi | exact E].
Qed.

Lemma plane_max_pass k :
  max_pass (fun k0 v => exists j i, (js pmb <= j <= je pmb)%Z
                                    /\ (is_ pmb <= i <= ie pmb)%Z /\ v = sigma k0 j i)
           plane_max k.
Proof.
  intros m. unfold plane_max.
  destruct (fold_loop_max
              (fun j0 v => exists i, ((is_ pmb <= i <= ie pmb)%Z) /\ v = sigma k j0 i)
              (row_max k) (js pmb) (je pmb)) with (m := m) as (H1 & H2 & H3).
  - intros j _. apply row_max_pass.
  - split; [exact H1 |]. split.
    + intros v (j & i & Hj & Hi & ->). apply (H2 j); [exact Hj |].
      exists i. split; [exact Hi | reflexivity].
    + destruct H3 as [E | (j & Hj & i & Hi & E)]; [left; exact E |].
      right. exists j, i. split; [exact Hj | split; [exact Hi | exact E]].
Qed.

Lemma block_max_spec :
  0 <= block_max 0
  /\ (forall k j i, in_block pmb k j i = true -> sigma k j i <= block_max 0)
  /\ (block_max 0 = 0
      \/ exists k j i, in_block pmb k j i = true /\ block_max 0 = sigma k j i).
Proof.
  unfold block_max.
  destruct (fold_loop_max
              (fun k0 v => exists j i, (js pmb <= j <= je pmb)%Z
                                       /\ (is_ pmb <= i <= ie pmb)%Z /\ v = sigma k0 j i)
              plane_max (ks pmb) (ke pmb)) with (m := 0) as (H1 & H2 & H3).
  - intros k _. apply plane_max_pass.
  - split; [exact H1 |]. split.
    + intros k j i Hin. apply block_box_spec in Hin. destruct Hin as (Hk & Hj & Hi).
      apply (H2 k); [exact Hk |]. exists j, i.
      split; [exact Hj | split; [exact Hi | reflexivity]].
    + destruct H3 as [E | (k & Hk & j & i & Hj & Hi & E)]; [left; exact E |].
      right. exists k, j, i. split; [| exact E].
      apply block_box_spec. split; [exact Hk | split; [exact Hj | exact Hi]].
Qed.

End MaxSigma.

(** ** Loop nests over an index box *)

Section LoopNest.

Context {S T V : Type}.
Variable obs : T * Z * Z * Z -> S -> V.
Variable post : T * Z * Z * Z -> V -> Prop.
Variable sel : T -> bool.
Variables kl ku jl ju il iu : Z.
Variable body : Z -> Z -> Z -> S -> option S.

Local Abbreviation no_inv := (fun _ : S => True).

Lemma nest_writes :
  (forall k j i s s',
     (kl <= k <= ku)%Z -> (jl <= j <= ju)%Z -> (il <= i <= iu)%Z ->
     body k j i s = Some s' ->
     writes obs no_inv post
            (fun '(t, k', j', i') => sel t && same_cell k j i k' j' i') s s') ->
  forall s s',
    for_loop kl ku (fun k s =>
      for_loop jl ju (fun j s =>
        for_loop il iu (fun i s => body k j i s) s) s) s = Some s' ->
    writes obs no_inv post
           (fun '(t, k, j, i) => sel t && block_box il iu jl ju kl ku k j i) s s'.
Proof.
  intros Hbody s s'.
  apply (for_loop_writes obs no_inv post
           (fun k '(t, k', j', i') =>
              sel t && ((k' =? k)%Z && in_range jl ju j' && in_range il iu i')));
    [| | exact I].
  { intros [[[t k'] j'] i']. unfold block_box. destruct (sel t); simpl.
    - box_iff. exists k'. unbox. repeat split; lia.
    - split; [discriminate | intros (? & _ & ?); discriminate]. }
  intros k s0 s0' Hk _.
  apply (for_loop_writes obs no_inv post
           (fun j '(t, k', j', i') =>
              sel t && ((k' =? k)%Z && (j' =? j)%Z && in_range il iu i')));
    [| | exact I].
  { intros [[[t k'] j'] i']. destruct (sel t); simpl.
    - box_iff. exists j'. unbox. repeat split; lia.
    - split; [discriminate | intros (? & _ & ?); discriminate]. }
  intros j s1 s1' Hj _.
  apply (for_loop_writes obs no_inv post
           (fun i '(t, k', j', i') => sel t && same_cell k j i k' j' i'));
    [| | exact I].
  { intros [[[t k'] j'] i']. unfold same_cell. destruct (sel t); simpl.
    - box_iff. exists i'. unbox. repeat split; lia.
    - split; [discriminate | intros (? & _ & ?); discriminate]. }
  intros i s2 s2' Hi _. apply Hbody; assumption.
Qed.

Lemma nest_returns :
  (forall k j i s,
     (kl <= k <= ku)%Z -> (jl <= j <= ju)%Z -> (il <= i <= iu)%Z ->
     exists s', body k j i s = Some s') ->
  forall s, exists s',
    for_loop kl ku (fun k s =>
      for_loop jl ju (fun j s =>
        for_loop il iu (fun i s => body k j i s) s) s) s = Some s'.
Proof.
  intros Hbody. apply for_loop_returns. intros k s0 Hk.
  apply for_loop_returns. intros j s1 Hj.
  apply for_loop_returns. intros i s2 Hi.
  apply Hbody; assumption.
Qed.

End LoopNest.

(** ** The loops of [ProblemGenerator] *)

Lemma A2_set_gad p g fuel x1 x3 : A2 (set_gad p g) fuel x1 x3 = A2 p fuel x1 x3.
Proof. reflexivity. Qed.

Lemma ambient_value_set_gad p g n : ambient_value (set_gad p g) n = ambient_value p n.
Proof. destruct n; reflexivity. Qed.

Section GeneratorLoopFacts.

Variable p : Params.
Variable by_amb : R.
Variable cylindrical : bool.
Variables Face1Area Edge2Length Face3Area : Coordinates -> Z -> Z -> Z -> R.
Variable fuel : nat.
Variable pco : Coordinates.
Variables il iu jl ju kl ku : Z.

Lemma ambient_fill_writes ww ww' :
  ambient_fill p cylindrical il iu jl ju kl ku ww = Some ww' ->
  writes prim_pair_at (fun _ => True)
         (fun '((_, n), _, _, _) v => v = ambient_value p n)
         (fun '(_, k, j, i) => block_box il iu jl ju kl ku k j i) ww ww'.
Proof.
  intros Hrun.
  apply (nest_writes prim_pair_at
           (fun '((_, n), _, _, _) v => v = ambient_value p n)
           (fun _ => true) kl ku jl ju il iu _ ) in Hrun; [exact Hrun |].
  clear. intros k j i [w w1] s' _ _ _ E.
  split; [exact I |]. intros [[[[first n] k'] j'] i'].
  cbn [andb].
  destruct cylindrical; cbv beta iota zeta in E; injection E as <-;
    unfold prim_pair_at, prim_set, IM1, IM2, IM3;
    destruct (same_cell k j i k' j' i') eqn:Ec;
    destruct first, n; simpl; rewrite ?Ec; reflexivity.
Qed.

Lemma ambient_fill_returns ww :
  exists ww', ambient_fill p cylindrical il iu jl ju kl ku ww = Some ww'.
Proof.
  apply nest_returns. intros k j i [w w1] _ _ _.
  destruct cylindrical; cbv beta iota zeta; eexists; reflexivity.
Qed.

End GeneratorLoopFacts.

Section GeneratorFaceFacts.

Variable p : Params.
Variable by_amb : R.
Variables Face1Area Edge2Length Face3Area : Coordinates -> Z -> Z -> Z -> R.
Variable fuel : nat.
Variable pco : Coordinates.
Variables il iu jl ju kl ku : Z.

Local Abbreviation no_finv := (fun _ : FaceField => True).

Lemma init_x1f_writes b b' :
  init_x1f p Face1Area Edge2Length fuel pco il iu jl ju kl ku b = Some b' ->
  writes face_at no_finv
         (fun '(_, k, j, i) v =>
            init_x1f_value p Face1Area Edge2Length fuel pco k j i = Some v)
         (component_box IB1 il (iu + 1) jl ju kl ku) b b'.
Proof.
  intros Hrun.
  apply (nest_writes face_at
           (fun '(_, k, j, i) v =>
              init_x1f_value p Face1Area Edge2Length fuel pco k j i = Some v)
           (is_component IB1) kl ku jl ju il (iu + 1)%Z _) in Hrun; [exact Hrun |].
  clear. intros k j i b b' _ _ _. cbv zeta.
  destruct (A2 p fuel (x1f pco i) (x3f pco (k + 1))) as [A_p1 |] eqn:E1; [| discriminate].
  destruct (A2 p fuel (x1f pco i) (x3f pco k)) as [A |] eqn:E0; [| discriminate].
  intros E; injection E as <-.
  split; [exact I |]. intros [[[c k'] j'] i'].
  destruct c; simpl; try reflexivity. unfold face_set.
  destruct (same_cell k j i k' j' i') eqn:Ec; [| reflexivity].
  apply same_cell_spec in Ec. destruct Ec as (-> & -> & ->).
  unfold init_x1f_value. rewrite E1, E0. reflexivity.
Qed.

Lemma init_x2f_writes b b' :
  init_x2f by_amb il iu jl ju kl ku b = Some b' ->
  writes face_at no_finv (fun _ v => v = by_amb)
         (component_box IB2 il iu jl (ju + 1) kl ku) b b'.
Proof.
  intros Hrun.
  apply (nest_writes face_at (fun _ v => v = by_amb)
           (is_component IB2) kl ku jl (ju + 1)%Z il iu _) in Hrun; [exact Hrun |].
  clear. intros k j i b b' _ _ _ E. injection E as <-.
  split; [exact I |]. intros [[[c k'] j'] i'].
  destruct c; simpl; try reflexivity. unfold face_set.
  destruct (same_cell k j i k' j' i'); reflexivity.
Qed.

Lemma init_x3f_writes b b' :
  init_x3f p Edge2Length Face3Area fuel pco il iu jl ju kl ku b = Some b' ->
  writes face_at no_finv
         (fun '(_, k, j, i) v =>
            init_x3f_value p Edge2Length Face3Area fuel pco k j i = Some v)
         (component_box IB3 il iu jl ju kl (ku + 1)) b b'.
Proof.
  intros Hrun.
  apply (nest_writes face_at
           (fun '(_, k, j, i) v =>
              init_x3f_value p Edge2Length Face3Area fuel pco k j i = Some v)
           (is_component IB3) kl (ku + 1)%Z jl ju il iu _) in Hrun; [exact Hrun |].
  clear. intros k j i b b' _ _ _. cbv zeta.
  destruct (A2 p fuel (x1f pco (i + 1)) (x3f pco k)) as [A_p1 |] eqn:E1; [| discriminate].
  destruct (A2 p fuel (x1f pco i) (x3f pco k)) as [A |] eqn:E0; [| discriminate].
  intros E; injection E as <-.
  split; [exact I |]. intros [[[c k'] j'] i'].
  destruct c; simpl; try reflexivity. unfold face_set.
  destruct (same_cell k j i k' j' i') eqn:Ec; [| reflexivity].
  apply same_cell_spec in Ec. destruct Ec as (-> & -> & ->).
  unfold init_x3f_value. rewrite E1, E0. reflexivity.
Qed.

Hypothesis solved :
  forall k i, (kl <= k <= ku + 1)%Z -> (il <= i <= iu + 1)%Z ->
              A2 p fuel (x1f pco i) (x3f pco k) <> None.

Lemma init_x1f_returns b :
  exists b', init_x1f p Face1Area Edge2Length fuel pco il iu jl ju kl ku b = Some b'.
Proof.
  apply nest_returns. intros k j i s Hk _ Hi.
  pose proof (solved (k + 1) i ltac:(lia) Hi) as H1.
  pose proof (solved k i ltac:(lia) Hi) as H0.
  destruct (A2 p fuel (x1f pco i) (x3f pco (k + 1))); [| congruence].
  destruct (A2 p fuel (x1f pco i) (x3f pco k)); [| congruence].
  eauto.
Qed.

Lemma init_x2f_returns b :
  exists b', init_x2f by_amb il iu jl ju kl ku b = Some b'.
Proof. apply nest_returns. eauto. Qed.

Lemma init_x3f_returns b :
  exists b', init_x3f p Edge2Length Face3Area fuel pco il iu jl ju kl ku b = Some b'.
Proof.
  apply nest_returns. intros k j i s Hk _ Hi.
  pose proof (solved k (i + 1) Hk ltac:(lia)) as H1.
  pose proof (solved k i Hk ltac:(lia)) as H0.
  destruct (A2 p fuel (x1f pco (i + 1)) (x3f pco k)); [| congruence].
  destruct (A2 p fuel (x1f pco i) (x3f pco k)); [| congruence].
  eauto.
Qed.

End GeneratorFaceFacts.

Section GeneratorFacts.

Variable p : Params.
Variable by_amb : R.
Variable mhd : bool.
Variable NGHOST : Z.
Variable cylindrical : bool.
Variable GetGamma : R.
Variables Face1Area Edge2Length Face3Area : Coordinates -> Z -> Z -> Z -> R.
Variable CCF :
  FaceField -> FieldArray -> Coordinates -> Z -> Z -> Z -> Z -> Z -> Z -> FieldArray.
Variable P2C :
  PrimArray -> FieldArray -> PrimArray -> Coordinates -> Z -> Z -> Z -> Z -> Z -> Z
  -> PrimArray.
Variable fuel : nat.
Variable pmb : MeshBlock.
Variables il iu jl ju kl ku : Z.

Hypothesis bounds : generator_bounds NGHOST pmb = (il, iu, jl, ju, kl, ku).

Local Abbreviation run :=
  (ProblemGenerator p by_amb mhd NGHOST cylindrical GetGamma
     Face1Area Edge2Length Face3Area CCF P2C fuel pmb).

Lemma ProblemGenerator_hydro w w1 :
  mhd = false ->
  ambient_fill (set_gad p GetGamma) cylindrical il iu jl ju kl ku
    (phydro_w pmb, phydro_w1 pmb) = Some (w, w1) ->
  run = Some (set_gad p GetGamma,
              mkMeshBlock (is_ pmb) (ie pmb) (js pmb) (je pmb) (ks pmb) (ke pmb)
                (nx2 pmb) (nx3 pmb) (pcoord pmb) w w1 (phydro_u pmb)
                (pfield_b pmb) (pfield_bcc pmb)).
Proof.
  intros -> Ea. unfold ProblemGenerator. rewrite bounds. cbv zeta. cbv beta iota.
  rewrite Ea. reflexivity.
Qed.

Lemma ProblemGenerator_mhd w w1 b1 b2 b3 :
  mhd = true ->
  ambient_fill (set_gad p GetGamma) cylindrical il iu jl ju kl ku
    (phydro_w pmb, phydro_w1 pmb) = Some (w, w1) ->
  init_x1f (set_gad p GetGamma) Face1Area Edge2Length fuel (pcoord pmb)
    il iu jl ju kl ku (pfield_b pmb) = Some b1 ->
  init_x2f by_amb il iu jl ju kl ku b1 = Some b2 ->
  init_x3f (set_gad p GetGamma) Edge2Length Face3Area fuel (pcoord pmb)
    il iu jl ju kl ku b2 = Some b3 ->
  run = Some (set_gad p GetGamma,
              mkMeshBlock (is_ pmb) (ie pmb) (js pmb) (je pmb) (ks pmb) (ke pmb)
                (nx2 pmb) (nx3 pmb) (pcoord pmb) w w1
                (P2C w (CCF b3 (pfield_bcc pmb) (pcoord pmb) il iu jl ju kl ku)
                     (phydro_u pmb) (pcoord pmb) il iu jl ju kl ku)
                b3 (CCF b3 (pfield_bcc pmb) (pcoord pmb) il iu jl ju kl ku)).
Proof.
  intros -> Ea E1 E2 E3. unfold ProblemGenerator. rewrite bounds. cbv zeta. cbv beta iota.
  rewrite Ea, E1, E2, E3. reflexivity.
Qed.

(** What the three face loops leave in the face arrays. *)
Lemma generator_faces b b1 b2 b3 :
  init_x1f p Face1Area Edge2Length fuel (pcoord pmb) il iu jl ju kl ku b = Some b1 ->
  init_x2f by_amb il iu jl ju kl ku b1 = Some b2 ->
  init_x3f p Edge2Length Face3Area fuel (pcoord pmb) il iu jl ju kl ku b2 = Some b3 ->
  forall k j i,
    (if block_box il (iu + 1) jl ju kl ku k j i
     then init_x1f_value p Face1Area Edge2Length fuel (pcoord pmb) k j i
          = Some (b_x1f b3 k j i)
     else b_x1f b3 k j i = b_x1f b k j i)
    /\ (if block_box il iu jl (ju + 1) kl ku k j i
        then b_x2f b3 k j i = by_amb
        else b_x2f b3 k j i = b_x2f b k j i)
    /\ (if block_box il iu jl ju kl (ku + 1) k j i
        then init_x3f_value p Edge2Length Face3Area fuel (pcoord pmb) k j i
             = Some (b_x3f b3 k j i)
        else b_x3f b3 k j i = b_x3f b k j i).
Proof.
  intros E1 E2 E3 k j i.
  destruct (init_x1f_writes _ _ _ _ _ _ _ _ _ _ _ _ _ E1) as [_ H1].
  destruct (init_x2f_writes _ _ _ _ _ _ _ _ _ E2) as [_ H2].
  destruct (init_x3f_writes _ _ _ _ _ _ _ _ _ _ _ _ _ E3) as [_ H3].
  split; [| split].
  - pose proof (H1 (IB1, k, j, i)) as G1. pose proof (H2 (IB1, k, j, i)) as G2.
    pose proof (H3 (IB1, k, j, i)) as G3. simpl in G1, G2, G3.
    rewrite G3, G2. exact G1.
  - pose proof (H1 (IB2, k, j, i)) as G1. pose proof (H2 (IB2, k, j, i)) as G2.
    pose proof (H3 (IB2, k, j, i)) as G3. simpl in G1, G2, G3.
    rewrite G3. destruct (block_box il iu jl (ju + 1) kl ku k j i); congruence.
  - pose proof (H1 (IB3, k, j, i)) as G1. pose proof (H2 (IB3, k, j, i)) as G2.
    pose proof (H3 (IB3, k, j, i)) as G3. simpl in G1, G2, G3.
    destruct (block_box il iu jl ju kl (ku + 1) k j i); congruence.
Qed.

End GeneratorFacts.

(** ** The generator's faces on a cylindrical mesh *)

Section CylindricalFaces.

Variable p : Params.
Variables Face1Area Edge2Length Face3Area : Coordinates -> Z -> Z -> Z -> R.
Variable fuel : nat.
Variable pco : Coordinates.
Variable dphi : Z -> R.

Hypothesis edge2 : forall k j i, Edge2Length pco k j i = x1f pco i * dphi j.
Hypothesis face1 :
  forall k j i, Face1Area pco k j i = x1f pco i * dphi j * (x3f pco (k + 1) - x3f pco k).
Hypothesis face3 :
  forall k j i,
    Face3Area pco k j i = (SQR (x1f pco (i + 1)) - SQR (x1f pco i)) / 2 * dphi j.

Lemma init_x1f_value_cylindrical kl k j i :
  x1min p <= x1f pco i ->
  x1f pco i <> 0 -> dphi j <> 0 ->
  x3f pco (kl - k + 1) - x3f pco (kl - k) <> 0 ->
  x3v pco (k + 1) - x3v pco k = x3f pco (kl - k + 1) - x3f pco (kl - k) ->
  init_x1f_value p Face1Area Edge2Length fuel pco (kl - k) j i
  = x1f_value p fuel pco kl k i.
Proof.
  intros Hin Hr Hphi Hdz Huni. unfold init_x1f_value, x1f_value. cbv zeta.
  destruct (Rlt_dec (x1f pco i) (x1min p)); [lra |].
  rewrite !edge2, face1, Huni.
  destruct (A2 p fuel (x1f pco i) (x3f pco (kl - k + 1))) as [A_p1 |],
           (A2 p fuel (x1f pco i) (x3f pco (kl - k))) as [A |]; try reflexivity.
  f_equal. field. repeat split; assumption.
Qed.

Lemma init_x3f_value_cylindrical il kl k j i :
  x1min p <= x1f pco i ->
  dphi j <> 0 ->
  SQR (x1f pco (i + 1)) - SQR (x1f pco i) <> 0 ->
  init_x3f_value p Edge2Length Face3Area fuel pco (kl - k) j i
  = x3f_value p fuel pco il kl k i.
Proof.
  intros Hin Hphi Hsq. unfold init_x3f_value, x3f_value. cbv zeta.
  destruct (Rlt_dec (x1f pco i) (x1min p)); [lra |].
  rewrite !edge2, face3.
  destruct (A2 p fuel (x1f pco (i + 1)) (x3f pco (kl - k))) as [A_p1 |],
           (A2 p fuel (x1f pco i) (x3f pco (kl - k))) as [A |]; try reflexivity.
  f_equal. field. split; assumption.
Qed.

End CylindricalFaces.

Section GeneratorReturns.

Variable p : Params.
Variable by_amb : R.
Variable NGHOST : Z.
Variable cylindrical : bool.
Variable GetGamma : R.
Variables Face1Area Edge2Length Face3Area : Coordinates -> Z -> Z -> Z -> R.
Variable CCF :
  FaceField -> FieldArray -> Coordinates -> Z -> Z -> Z -> Z -> Z -> Z -> FieldArray.
Variable P2C :
  PrimArray -> FieldArray -> PrimArray -> Coordinates -> Z -> Z -> Z -> Z -> Z -> Z
  -> PrimArray.
Variable fuel : nat.
Variable pmb : MeshBlock.
Variables il iu jl ju kl ku : Z.

Hypothesis bounds : generator_bounds NGHOST pmb = (il, iu, jl, ju, kl, ku).
Hypothesis solved : generator_solved p fuel (pcoord pmb) true il iu kl ku.

(** With magnetic fields the generator returns, and its face arrays are
    those of the three face loops run on the faces of the block. *)
Lemma ProblemGenerator_mhd_returns :
  exists pmb' b1 b2,
    ProblemGenerator p by_amb true NGHOST cylindrical GetGamma
      Face1Area Edge2Length Face3Area CCF P2C fuel pmb
    = Some (set_gad p GetGamma, pmb')
    /\ init_x1f p Face1Area Edge2Length fuel (pcoord pmb) il iu jl ju kl ku (pfield_b pmb)
       = Some b1
    /\ init_x2f by_amb il iu jl ju kl ku b1 = Some b2
    /\ init_x3f p Edge2Length Face3Area fuel (pcoord pmb) il iu jl ju kl ku b2
       = Some (pfield_b pmb').
Proof.
  pose proof (solved eq_refl) as Hs.
  destruct (ambient_fill_returns (set_gad p GetGamma) cylindrical il iu jl ju kl ku
              (phydro_w pmb, phydro_w1 pmb)) as [[w w1] Ea].
  destruct (init_x1f_returns p Face1Area Edge2Length fuel
              (pcoord pmb) il iu jl ju kl ku Hs (pfield_b pmb)) as [b1 E1].
  destruct (init_x2f_returns by_amb il iu jl ju kl ku b1) as [b2 E2].
  destruct (init_x3f_returns p Edge2Length Face3Area fuel
              (pcoord pmb) il iu jl ju kl ku Hs b2) as [b3 E3].
  eexists. exists b1, b2. split.
  - apply (ProblemGenerator_mhd p by_amb true NGHOST cylindrical GetGamma
             Face1Area Edge2Length Face3Area CCF P2C fuel pmb il iu jl ju kl ku
             bounds w w1 b1 b2 b3 eq_refl Ea E1 E2 E3).
  - cbn [pfield_b]. split; [exact E1 | split; [exact E2 | exact E3]].
Qed.

End GeneratorReturns.

(** At or inside the inner radial edge the source radius is the edge, where
    the flux integral starts: the potential is zero. *)
Lemma A2_inside p fuel x1 x3 :
  x1 <= x1min p -> x1min p < r_jet p - dr_jet p ->
  A2 p fuel x1 x3 = Some 0.
Proof.
  intros Hin Hedge. unfold A2, r0_r_z.
  assert (E : flux_intg p (x1min p) / x1 = 0).
  { rewrite flux_intg_A by exact Hedge. unfold flux_A, Rdiv. ring. }
  destruct (Rlt_dec x1 (r_jet p + dr_jet p));
    [destruct (Rgt_dec x1 (x1min p)); [lra |] |];
    (destruct (Rle_dec x1 (x1min p)); [rewrite E; reflexivity | lra]).
Qed.

(** * The claims of the specification *)

(** ** Field-line solver *)

(** C1. Outside the mapping regime the source radius is read off without a
    root-solve: a query at radius [x1 >= r_jet + dr_jet] above the inner
    edge returns [x1] itself, and a query at [x1 <= x1min] returns the inner
    edge [x1min]; both for every axial position and every fuel. *)
Theorem r0_r_z_identity_and_clamp (p : Params) (fuel : nat) (x1 x3 : R) :
  (x1 >= r_jet p + dr_jet p -> x1 > x1min p -> r0_r_z p fuel x1 x3 = Some x1)
  /\ (x1 <= x1min p -> r0_r_z p fuel x1 x3 = Some (x1min p)).
Proof.
  unfold r0_r_z. split.
  - intros Habove Hinner.
    destruct (Rlt_dec x1 (r_jet p + dr_jet p)); [lra |].
    destruct (Rle_dec x1 (x1min p)); [lra | reflexivity].
  - intros Hbelow.
    destruct (Rlt_dec x1 (r_jet p + dr_jet p)).
    + destruct (Rgt_dec x1 (x1min p)); [lra |].
      destruct (Rle_dec x1 (x1min p)); [reflexivity | lra].
    + destruct (Rle_dec x1 (x1min p)); [reflexivity | lra].
Qed.

Lemma r0_r_z_identity_and_clamp_witness :
  r0_r_z straight_jet 0 2 (1 / 2) = Some 2
  /\ r0_r_z straight_jet 0 (-1) (1 / 2) = Some (x1min straight_jet).
Proof.
  destruct (r0_r_z_identity_and_clamp straight_jet 0 2 (1 / 2)) as [Habove _].
  destruct (r0_r_z_identity_and_clamp straight_jet 0 (-1) (1 / 2)) as [_ Hbelow].
  split.
  - apply Habove; simpl; lra.
  - apply Hbelow; simpl; lra.
Defined.

(** C2. In the mapping regime [x1min < x1 < r_jet + dr_jet], for parameters
    with positive jet radius and half-width and a residual of opposite signs
    at the two ends of the initial bracket, the false-position loop leaves
    after at most [iter_bound p x3] passes: with that much fuel [r0_r_z]
    returns a value.  The bound comes from the residual tolerance [1e-5] and
    the Lipschitz constant of the residual. *)
Theorem r0_r_z_terminates (p : Params) (x1 x3 : R) (fuel : nat) :
  well_formed p ->
  x1min p < x1 < r_jet p + dr_jet p ->
  f p (x1min p) x1 x3 * f p (r_jet p + dr_jet p) x1 x3 < 0 ->
  (iter_bound p x3 <= fuel)%nat ->
  exists r0, r0_r_z p fuel x1 x3 = Some r0.
Proof.
  intros Hwf [Hlo Hhi] Hsigns Hfuel.
  assert (Hwidth : x1min p < r_jet p + dr_jet p) by lra.
  destruct (Rlt_dec (Rabs (f p (x1min p) x1 x3)) tol) as [Ha | Ha].
  { (* the residual at the inner edge already meets the tolerance *)
    exists (x1min p). unfold r0_r_z.
    destruct (Rlt_dec x1 (r_jet p + dr_jet p)); [| lra].
    destruct (Rgt_dec x1 (x1min p)); [| lra].
    cbv zeta. destruct (Rlt_dec (Rabs (f p (x1min p) x1 x3)) tol); [reflexivity | contradiction]. }
  destruct (Rlt_dec (Rabs (f p (r_jet p + dr_jet p) x1 x3)) tol) as [Hb | Hb].
  { (* so does the residual at the outer end of the bracket *)
    exists (r_jet p + dr_jet p). unfold r0_r_z.
    destruct (Rlt_dec x1 (r_jet p + dr_jet p)); [| lra].
    destruct (Rgt_dec x1 (x1min p)); [| lra].
    cbv zeta. destruct (Rlt_dec (Rabs (f p (x1min p) x1 x3)) tol); [contradiction |].
    destruct (Rlt_dec (Rabs (f p (r_jet p + dr_jet p) x1 x3)) tol);
      [reflexivity | contradiction]. }
  (* otherwise the loop runs, and the bracket shrinks by tol / L per pass *)
  rewrite (r0_r_z_enters_loop p fuel x1 x3 (conj Hlo Hhi) Ha Hb).
  apply (while_loop_terminates p x1 x3 (x1min p) (r_jet p + dr_jet p) (lipschitz_f p x3)).
  - pose proof (lipschitz_f_pos p Hwf x3 (Rlt_le _ _ Hwidth)). lra.
  - intros x y Hx Hy. apply f_lipschitz; assumption.
  - apply loop_entry_bracket; assumption.
  - simpl. apply iter_bound_enough; assumption.
Qed.

Lemma straight_jet_well_formed : well_formed straight_jet.
Proof. unfold well_formed. simpl. lra. Qed.

Lemma straight_jet_sign_change :
  f straight_jet (x1min straight_jet) (1 / 2) 0
  * f straight_jet (r_jet straight_jet + dr_jet straight_jet) (1 / 2) 0 < 0.
Proof. rewrite !f_straight by reflexivity. simpl. lra. Qed.

Lemma r0_r_z_terminates_witness :
  exists r0, r0_r_z straight_jet (iter_bound straight_jet 0) (1 / 2) 0 = Some r0.
Proof.
  apply (r0_r_z_terminates straight_jet (1 / 2) 0 (iter_bound straight_jet 0)).
  - exact straight_jet_well_formed.
  - simpl. lra.
  - exact straight_jet_sign_change.
  - apply Nat.le_refl.
Defined.

(** C3. In the mapping regime, when the residual has opposite signs at the
    two ends of the initial bracket, every value [r0_r_z] returns lies in
    [[x1min, r_jet + dr_jet]]; and for parameters with positive jet radius
    and half-width it does return one, with [iter_bound p x3] fuel. *)
Theorem r0_r_z_within_bracket (p : Params) (x1 x3 : R) :
  x1min p < x1 < r_jet p + dr_jet p ->
  f p (x1min p) x1 x3 * f p (r_jet p + dr_jet p) x1 x3 < 0 ->
  (forall fuel r0, r0_r_z p fuel x1 x3 = Some r0 ->
                   x1min p <= r0 <= r_jet p + dr_jet p)
  /\ (well_formed p ->
      forall fuel, (iter_bound p x3 <= fuel)%nat ->
                   exists r0, r0_r_z p fuel x1 x3 = Some r0
                              /\ x1min p <= r0 <= r_jet p + dr_jet p).
Proof.
  intros Hreg Hs. split.
  - intros fuel r0. apply r0_r_z_bracketed; assumption.
  - intros Hwf fuel Hfuel.
    destruct (r0_r_z_returns p fuel x1 x3 Hwf Hreg Hs Hfuel) as [r0 E].
    exists r0. split; [exact E |]. eapply r0_r_z_bracketed; eassumption.
Qed.

Lemma r0_r_z_within_bracket_witness :
  exists r0, r0_r_z straight_jet (iter_bound straight_jet 0) (1 / 2) 0 = Some r0
             /\ x1min straight_jet <= r0 <= r_jet straight_jet + dr_jet straight_jet.
Proof.
  assert (Hreg : x1min straight_jet < 1 / 2 < r_jet straight_jet + dr_jet straight_jet)
    by (simpl; lra).
  destruct (r0_r_z_within_bracket straight_jet (1 / 2) 0 Hreg straight_jet_sign_change)
    as [_ Hret].
  apply (Hret straight_jet_well_formed). apply Nat.le_refl.
Defined.

(** C10. When the residual has strictly opposite signs at the two ends of the
    initial bracket and neither end meets the tolerance [1e-5], the call
    enters the loop, and at the top of every pass the residual still has
    strictly opposite signs at the bracket ends; so the denominator
    [f(r2,x1,x3) - f(r1,x1,x3)] of the secant update is never zero. *)
Theorem secant_update_well_defined (p : Params) (x1 x3 : R) :
  x1min p < x1 < r_jet p + dr_jet p ->
  f p (x1min p) x1 x3 * f p (r_jet p + dr_jet p) x1 x3 < 0 ->
  ~ Rabs (f p (x1min p) x1 x3) < tol ->
  ~ Rabs (f p (r_jet p + dr_jet p) x1 x3) < tol ->
  (forall fuel, r0_r_z p fuel x1 x3 = while_loop p fuel x1 x3 (loop_entry p 0))
  /\ forall s, reaches p x1 x3 (loop_entry p 0) s ->
               f p (ls_r1 s) x1 x3 * f p (ls_r2 s) x1 x3 < 0
               /\ f p (ls_r2 s) x1 x3 - f p (ls_r1 s) x1 x3 <> 0.
Proof.
  intros Hreg Hs Ha Hb. split.
  - intros fuel. apply r0_r_z_enters_loop; assumption.
  - intros s Hr.
    assert (Hsigns : f p (ls_r1 s) x1 x3 * f p (ls_r2 s) x1 x3 < 0)
      by (apply (reaches_signs p x1 x3 (loop_entry p 0)); assumption).
    split; [exact Hsigns | apply opposite_signs_denominator; exact Hsigns].
Qed.

Lemma secant_update_well_defined_witness :
  f straight_jet (ls_r2 (loop_entry straight_jet 0)) (1 / 2) 0
  - f straight_jet (ls_r1 (loop_entry straight_jet 0)) (1 / 2) 0 <> 0.
Proof.
  assert (Hreg : x1min straight_jet < 1 / 2 < r_jet straight_jet + dr_jet straight_jet)
    by (simpl; lra).
  assert (Ha : ~ Rabs (f straight_jet (x1min straight_jet) (1 / 2) 0) < tol).
  { rewrite f_straight by reflexivity. simpl. unfold tol.
    rewrite Rabs_left by lra. lra. }
  assert (Hb : ~ Rabs (f straight_jet (r_jet straight_jet + dr_jet straight_jet)
                         (1 / 2) 0) < tol).
  { rewrite f_straight by reflexivity. simpl. unfold tol.
    rewrite Rabs_pos_eq by lra. lra. }
  destruct (secant_update_well_defined straight_jet (1 / 2) 0
              Hreg straight_jet_sign_change Ha Hb) as [_ Hinv].
  apply (Hinv (loop_entry straight_jet 0)). apply reaches_here.
Defined.

(** ** Flux function *)

(** C4. For parameters with positive jet radius and half-width the closed
    forms of adjacent regions agree at both regime boundaries (Region A and
    Region B at [r_jet - dr_jet], Region B and the Region C constant at
    [r_jet + dr_jet]), and there the two sides have the same derivative,
    which is the derivative of [flux_intg] itself: the Region A slope at the
    left boundary and zero at the right one.  So [flux_intg] is continuous
    and differentiable at both boundaries. *)
Theorem flux_intg_C1_at_regime_boundaries (p : Params) :
  well_formed p ->
  let c1 := r_jet p - dr_jet p in
  let c2 := r_jet p + dr_jet p in
  (flux_A p c1 = flux_B p c1 /\ flux_B p c2 = flux_C p)
  /\ (derivable_pt_lim (flux_A p) c1 (slope_A p c1)
      /\ derivable_pt_lim (flux_B p) c1 (slope_A p c1)
      /\ derivable_pt_lim (flux_intg p) c1 (slope_A p c1))
  /\ (derivable_pt_lim (flux_B p) c2 0
      /\ derivable_pt_lim (fun _ => flux_C p) c2 0
      /\ derivable_pt_lim (flux_intg p) c2 0)
  /\ (continuity_pt (flux_intg p) c1 /\ continuity_pt (flux_intg p) c2).
Proof.
  intros Hwf c1 c2.
  split; [split | split; [split; [| split] | split; [split; [| split] | split]]].
  - apply flux_regions_meet_left.
  - apply flux_regions_meet_right.
  - apply flux_A_derivative. exact Hwf.
  - eapply D_value; [apply flux_B_derivative; exact Hwf |].
    unfold c1. rewrite (blend_B_left p Hwf). ring.
  - apply flux_intg_derivative_left. exact Hwf.
  - eapply D_value; [apply flux_B_derivative; exact Hwf |].
    unfold c2. rewrite (blend_B_right p Hwf). ring.
  - apply D_const.
  - apply flux_intg_derivative_right. exact Hwf.
  - apply derivable_continuous_pt. exists (slope_A p c1).
    apply flux_intg_derivative_left. exact Hwf.
  - apply derivable_continuous_pt. exists 0.
    apply flux_intg_derivative_right. exact Hwf.
Qed.

Lemma flux_intg_C1_at_regime_boundaries_witness :
  flux_A straight_jet (r_jet straight_jet - dr_jet straight_jet)
  = flux_B straight_jet (r_jet straight_jet - dr_jet straight_jet)
  /\ derivable_pt_lim (flux_intg straight_jet)
       (r_jet straight_jet + dr_jet straight_jet) 0.
Proof.
  destruct (flux_intg_C1_at_regime_boundaries straight_jet straight_jet_well_formed)
    as ((Hleft & _) & _ & (_ & _ & Hright) & _).
  split; [exact Hleft | exact Hright].
Defined.

(** ** Smoothing weight *)

(** C9. [SmoothStep] takes values in [[0, 1]], is [1] up to [-1] and [0]
    from [1] on, and never increases; so for a positive half-width the
    blending weight [SmoothStep ((r0 - r_jet) / dr_jet)] is [1] for
    [r0 <= r_jet - dr_jet] and [0] for [r0 >= r_jet + dr_jet]. *)
Theorem SmoothStep_profile :
  (forall x, 0 <= SmoothStep x <= 1)
  /\ (forall x, x <= -1 -> SmoothStep x = 1)
  /\ (forall x, 1 <= x -> SmoothStep x = 0)
  /\ (forall x y, x <= y -> SmoothStep y <= SmoothStep x)
  /\ (forall p r0, 0 < dr_jet p ->
        (r0 <= r_jet p - dr_jet p -> SmoothStep ((r0 - r_jet p) / dr_jet p) = 1)
        /\ (r_jet p + dr_jet p <= r0 -> SmoothStep ((r0 - r_jet p) / dr_jet p) = 0)).
Proof.
  split; [exact SmoothStep_range |].
  split; [exact SmoothStep_low |].
  split; [exact SmoothStep_high |].
  split; [exact SmoothStep_antitone |].
  intros p r0 Hdr. split; intros H.
  - apply SmoothStep_low.
    apply Rmult_le_reg_r with (dr_jet p); [exact Hdr |].
    replace ((r0 - r_jet p) / dr_jet p * dr_jet p) with (r0 - r_jet p) by (field; lra).
    lra.
  - apply SmoothStep_high.
    apply Rmult_le_reg_r with (dr_jet p); [exact Hdr |].
    replace ((r0 - r_jet p) / dr_jet p * dr_jet p) with (r0 - r_jet p) by (field; lra).
    lra.
Qed.

Lemma SmoothStep_profile_witness :
  SmoothStep (-2) = 1 /\ SmoothStep 2 = 0 /\ SmoothStep 1 <= SmoothStep 0
  /\ SmoothStep ((1 / 2 - r_jet straight_jet) / dr_jet straight_jet) = 1
  /\ SmoothStep ((2 - r_jet straight_jet) / dr_jet straight_jet) = 0.
Proof.
  destruct SmoothStep_profile as (_ & Hlow & Hhigh & Hmono & Hweight).
  assert (Hdr : 0 < dr_jet straight_jet) by (simpl; lra).
  destruct (Hweight straight_jet (1 / 2) Hdr) as [Hjet _].
  destruct (Hweight straight_jet 2 Hdr) as [_ Hamb].
  repeat split.
  - apply Hlow. lra.
  - apply Hhigh. lra.
  - apply Hmono. lra.
  - apply Hjet. simpl. lra.
  - apply Hamb. simpl. lra.
Defined.

(** ** Boundary state synthesizer *)

(** C5. Whenever the root-solves of the fill return, [JetInnerX3] returns,
    and in every ghost cell, with [r_0] the mapped radius, [w] the smoothing
    weight at [r_0] and [wb] the weight at the perturbed radius, both Lorentz
    factors it computes are the closed form
    [lorentz_factor Psi k p atwoodMixed
     = Psi / (2 k p) * (sqrt (1 + 4 k p atwoodMixed / Psi^2) - 1)]
    with [Psi = (atwoodMixed + Bphi^2) / bernoulliMixed],
    [k = gad / (gad - 1)] and [p] the ambient pressure, where [atwoodMixed]
    and [Bphi] are the blends of the jet and ambient parameters at [w]: the
    Lorentz factor behind the stored density with the Bernoulli blend at
    [wb], the one behind the stored velocities with the Bernoulli blend at
    [w].  The stored density is [Psi] over the first, the stored axial
    velocity the velocity formula of the second; nothing is iterated. *)
Theorem lorentz_factor_closed_form
    (p : Params) (mhd : bool)
    (CCF : FaceField -> Coordinates -> Z -> Z -> Z -> Z -> Z -> Z -> FieldArray)
    (fuel : nat) (pco : Coordinates) (prim : PrimArray) (b : FaceField)
    (il iu jl ju kl ku ngh : Z) :
  samples_solved p fuel pco mhd il iu kl ngh ->
  exists prim' b',
    JetInnerX3 p mhd CCF fuel pco prim b il iu jl ju kl ku ngh = Some (prim', b')
    /\ forall k j i,
         (1 <= k <= ngh)%Z -> (jl <= j <= ju)%Z -> (il <= i <= iu)%Z ->
         exists r_0,
           r0_r_z p fuel (x1v pco i) (x3v pco (kl - k)) = Some r_0
           /\ let w := weight p r_0 in
              let wb := weight p (perturbed_radius p r_0 (x2v pco j)) in
              let k_ad := gad p / (gad p - 1) in
              let Psi_d :=
                bernoulli_invariant (atwoodMixed p w) (Bphi p w) (bernoulliMixed p wb) in
              let Psi_v :=
                bernoulli_invariant (atwoodMixed p w) (Bphi p w) (bernoulliMixed p w) in
              let gamma_d := lorentz_factor Psi_d k_ad (p_amb p) (atwoodMixed p w) in
              let gamma_v := lorentz_factor Psi_v k_ad (p_amb p) (atwoodMixed p w) in
              gamma (ghost_locals p r_0 (x2v pco j)) = gamma_d
              /\ gamma_np (ghost_locals p r_0 (x2v pco j)) = gamma_v
              /\ prim' IDN (kl - k)%Z j i = Psi_d / gamma_d
              /\ prim' IVZ (kl - k)%Z j i =
                 sqrt ((gamma_v ^ 2 - 1)
                       / (1 + rang p r_0 ^ 2 * exp (-2 * x3v pco (kl - k) / z_0 p)
                          + azimuthalRatio p r_0 ^ 2)).
Proof.
  intros Hsolved.
  destruct (JetInnerX3_returns p mhd CCF fuel pco il iu jl ju kl ku ngh prim b Hsolved)
    as (prim' & b' & Hrun).
  exists prim', b'. split; [exact Hrun |]. intros k j i Hk Hj Hi.
  destruct (JetInnerX3_prim p mhd CCF fuel pco il iu jl ju kl ku ngh
              prim b prim' b' k j i Hrun Hk Hj Hi) as (r_0 & Er & Hcell).
  exists r_0. split; [exact Er |]. cbv zeta.
  split; [rewrite gamma_of_weights; reflexivity |].
  split; [rewrite gamma_np_of_weights; reflexivity |].
  split.
  - rewrite (Hcell IDN), vx_box_only_vx by discriminate.
    rewrite cell_density. reflexivity.
  - rewrite (Hcell IVZ), vx_box_only_vx by discriminate.
    rewrite cell_vz. reflexivity.
Qed.

Lemma lorentz_factor_closed_form_witness :
  exists prim' b',
    JetInnerX3 straight_jet true sample_centred 1 sample_mesh
      sample_prim sample_faces 1 1 0 0 0 0 1 = Some (prim', b')
    /\ exists r_0,
         let w := weight straight_jet r_0 in
         let wb := weight straight_jet (perturbed_radius straight_jet r_0 (x2v sample_mesh 0)) in
         let Psi_d :=
           bernoulli_invariant (atwoodMixed straight_jet w) (Bphi straight_jet w)
             (bernoulliMixed straight_jet wb) in
         prim' IDN (0 - 1)%Z 0%Z 1%Z
         = Psi_d / lorentz_factor Psi_d (gad straight_jet / (gad straight_jet - 1))
                     (p_amb straight_jet) (atwoodMixed straight_jet w).
Proof.
  destruct (lorentz_factor_closed_form straight_jet true sample_centred 1 sample_mesh
              sample_prim sample_faces 1 1 0 0 0 0 1) as (prim' & b' & Hrun & Hcells).
  - apply straight_samples_solved; reflexivity.
  - exists prim', b'. split; [exact Hrun |].
    destruct (Hcells 1%Z 0%Z 1%Z) as (r_0 & _ & _ & _ & Hd & _); try lia.
    exists r_0. exact Hd.
Defined.

(** C6, as amended.  Whenever its root-solves return, the primitive fill
    returns, and in every ghost cell, with [w] the smoothing weight at the
    mapped radius [r_0] and [wb] the weight at the perturbed radius
    [r_0 * (1 + dang * cos (mang * phi))], the density it stores is
    [Psi / lorentz_factor Psi k p_amb (atwoodMixed w)] with
    [Psi = (atwoodMixed w + Bphi w ^ 2) / bernoulliMixed wb]: only the
    Bernoulli blend takes the perturbed weight, the Atwood blend and the
    azimuthal field take the unperturbed one.  The three velocity components
    it stores are the velocity formulas with every weight at [r_0]; the
    velocities of two cells that differ only in the azimuthal index are
    therefore equal. *)
Theorem density_perturbed_velocity_axisymmetric
    (p : Params) (fuel : nat) (pco : Coordinates) (prim : PrimArray)
    (il iu jl ju kl ngh : Z) :
  (forall k i, (1 <= k <= ngh)%Z -> (il <= i <= iu)%Z ->
               r0_r_z p fuel (x1v pco i) (x3v pco (kl - k)) <> None) ->
  exists prim',
    prim_fill p fuel pco il iu jl ju kl ngh prim = Some prim'
    /\ forall k j i,
         (1 <= k <= ngh)%Z -> (jl <= j <= ju)%Z -> (il <= i <= iu)%Z ->
         exists r_0,
           r0_r_z p fuel (x1v pco i) (x3v pco (kl - k)) = Some r_0
           /\ (let w := weight p r_0 in
               let wb := weight p (perturbed_radius p r_0 (x2v pco j)) in
               let Psi :=
                 bernoulli_invariant (atwoodMixed p w) (Bphi p w) (bernoulliMixed p wb) in
               prim' IDN (kl - k)%Z j i
               = Psi / lorentz_factor Psi (gad p / (gad p - 1)) (p_amb p) (atwoodMixed p w))
           /\ prim' IVX (kl - k)%Z j i = vx_of p r_0 (x3v pco (kl - k))
           /\ prim' IVY (kl - k)%Z j i = vy_of p r_0 (x3v pco (kl - k))
           /\ prim' IVZ (kl - k)%Z j i = vz_of p r_0 (x3v pco (kl - k))
           /\ forall j', (jl <= j' <= ju)%Z ->
                prim' IVX (kl - k)%Z j' i = prim' IVX (kl - k)%Z j i
                /\ prim' IVY (kl - k)%Z j' i = prim' IVY (kl - k)%Z j i
                /\ prim' IVZ (kl - k)%Z j' i = prim' IVZ (kl - k)%Z j i.
Proof.
  intros Hsolved.
  destruct (prim_fill_returns p fuel pco il iu jl ju kl ngh prim Hsolved) as [prim' Hrun].
  exists prim'. split; [exact Hrun |]. intros k j i Hk Hj Hi.
  destruct (prim_fill_cell p fuel pco il iu jl ju kl ngh prim prim' k j i Hrun Hk Hj Hi)
    as (r_0 & Er & Hcell).
  exists r_0. split; [exact Er |].
  split; [cbv zeta; rewrite Hcell, cell_density; reflexivity |].
  split; [rewrite Hcell; apply cell_vx |].
  split; [rewrite Hcell; apply cell_vy |].
  split; [rewrite Hcell; apply cell_vz |].
  intros j' Hj'.
  destruct (prim_fill_cell p fuel pco il iu jl ju kl ngh prim prim' k j' i Hrun Hk Hj' Hi)
    as (r_0' & Er' & Hcell').
  rewrite Er in Er'. injection Er' as <-.
  rewrite !Hcell, !Hcell', !cell_vx, !cell_vy, !cell_vz. auto.
Qed.

Lemma density_perturbed_velocity_axisymmetric_witness :
  exists prim',
    prim_fill straight_jet 1 sample_mesh 1 1 0 1 0 1 sample_prim = Some prim'
    /\ prim' IVZ (0 - 1)%Z 1%Z 1%Z = prim' IVZ (0 - 1)%Z 0%Z 1%Z.
Proof.
  destruct (density_perturbed_velocity_axisymmetric straight_jet 1 sample_mesh
              sample_prim 1 1 0 1 0 1) as (prim' & Hrun & Hcells).
  - intros k i _ _.
    destruct (r0_r_z_straight straight_jet eq_refl eq_refl 0
                (x1v sample_mesh i) (x3v sample_mesh (0 - k))) as [r0 E].
    rewrite E. discriminate.
  - exists prim'. split; [exact Hrun |].
    destruct (Hcells 1%Z 0%Z 1%Z) as (r_0 & _ & _ & _ & _ & _ & Hsame); try lia.
    apply (Hsame 1%Z). lia.
Defined.

(** C7, as amended.  With perturbation amplitude [dang = 0] (any mode [mang]), whenever
    the root-solves of the fill return, [JetInnerX3] returns a state in which
    two ghost cells of the same row and radial index that differ only in the
    azimuthal index hold the same density, pressure, azimuthal and axial
    velocity; the same radial velocity, where for a near-core cell with
    magnetic fields (whose radial velocity is rebuilt from the framework's
    cell-centred field) that field is taken to be the same in both cells;
    and with magnetic fields the same three face fields. *)
Theorem unperturbed_state_axisymmetric
    (p : Params) (mhd : bool)
    (CCF : FaceField -> Coordinates -> Z -> Z -> Z -> Z -> Z -> Z -> FieldArray)
    (fuel : nat) (pco : Coordinates) (prim : PrimArray) (b : FaceField)
    (il iu jl ju kl ku ngh : Z) :
  dang p = 0 ->
  samples_solved p fuel pco mhd il iu kl ngh ->
  exists prim' b',
    JetInnerX3 p mhd CCF fuel pco prim b il iu jl ju kl ku ngh = Some (prim', b')
    /\ forall k j1 j2 i,
         (1 <= k <= ngh)%Z ->
         ((jl <= j1 <= ju)%Z -> (jl <= j2 <= ju)%Z -> (il <= i <= iu)%Z ->
          prim' IDN (kl - k)%Z j1 i = prim' IDN (kl - k)%Z j2 i
          /\ prim' IPR (kl - k)%Z j1 i = prim' IPR (kl - k)%Z j2 i
          /\ prim' IVY (kl - k)%Z j1 i = prim' IVY (kl - k)%Z j2 i
          /\ prim' IVZ (kl - k)%Z j1 i = prim' IVZ (kl - k)%Z j2 i
          /\ (let bc := CCF b' pco il iu jl ju (kl - ngh)%Z ku in
              (mhd = true -> x1v pco i <= r_jet p + dr_jet p ->
               bc IB1 (kl - k)%Z j1 i = bc IB1 (kl - k)%Z j2 i
               /\ bc IB3 (kl - k)%Z j1 i = bc IB3 (kl - k)%Z j2 i) ->
              prim' IVX (kl - k)%Z j1 i = prim' IVX (kl - k)%Z j2 i))
         /\ (mhd = true ->
             ((jl <= j1 <= ju)%Z -> (jl <= j2 <= ju)%Z -> (il <= i <= iu + 1)%Z ->
              b_x1f b' (kl - k)%Z j1 i = b_x1f b' (kl - k)%Z j2 i)
             /\ ((jl <= j1 <= ju + 1)%Z -> (jl <= j2 <= ju + 1)%Z -> (il <= i <= iu)%Z ->
                 b_x2f b' (kl - k)%Z j1 i = b_x2f b' (kl - k)%Z j2 i)
             /\ ((jl <= j1 <= ju)%Z -> (jl <= j2 <= ju)%Z -> (il <= i <= iu)%Z ->
                 b_x3f b' (kl - k)%Z j1 i = b_x3f b' (kl - k)%Z j2 i)).
Proof.
  intros Hflat Hsolved.
  destruct (JetInnerX3_returns p mhd CCF fuel pco il iu jl ju kl ku ngh prim b Hsolved)
    as (prim' & b' & Hrun).
  exists prim', b'. split; [exact Hrun |]. intros k j1 j2 i Hk. split.
  - intros Hj1 Hj2 Hi.
    destruct (JetInnerX3_prim p mhd CCF fuel pco il iu jl ju kl ku ngh
                prim b prim' b' k j1 i Hrun Hk Hj1 Hi) as (r_0 & Er & H1).
    destruct (JetInnerX3_prim p mhd CCF fuel pco il iu jl ju kl ku ngh
                prim b prim' b' k j2 i Hrun Hk Hj2 Hi) as (r_0' & Er' & H2).
    rewrite Er in Er'. injection Er' as <-.
    assert (Hsame : forall n, cell_value p n r_0 (x3v pco (kl - k)) (x2v pco j1)
                              = cell_value p n r_0 (x3v pco (kl - k)) (x2v pco j2))
      by (intros n; apply cell_value_flat; exact Hflat).
    repeat split.
    + rewrite (H1 IDN), (H2 IDN), !vx_box_only_vx by discriminate. apply Hsame.
    + rewrite (H1 IPR), (H2 IPR), !vx_box_only_vx by discriminate. apply Hsame.
    + rewrite (H1 IVY), (H2 IVY), !vx_box_only_vx by discriminate. apply Hsame.
    + rewrite (H1 IVZ), (H2 IVZ), !vx_box_only_vx by discriminate. apply Hsame.
    + cbv zeta. intros Hbc. rewrite (H1 IVX), (H2 IVX). unfold vx_box, near_core.
      rewrite (cell_box_intro il iu jl ju kl ngh k j1 i Hk Hj1 Hi).
      rewrite (cell_box_intro il iu jl ju kl ngh k j2 i Hk Hj2 Hi).
      destruct mhd; [| apply Hsame].
      destruct (Rle_dec (x1v pco i) (r_jet p + dr_jet p)) as [Hcore | Hcore];
        [| apply Hsame].
      destruct (Hbc eq_refl Hcore) as [Hb1 Hb3]. cbn [andb]. cbv zeta.
      rewrite Hb1, Hb3, (Hsame IVZ). reflexivity.
  - intros Hmhd.
    pose proof (JetInnerX3_faces p mhd CCF fuel pco il iu jl ju kl ku ngh
                  prim b prim' b' Hrun Hmhd) as Hfaces.
    destruct (Hfaces k j1 i Hk) as (F1 & G1 & K1).
    destruct (Hfaces k j2 i Hk) as (F2 & G2 & K2).
    repeat split.
    + intros Hj1 Hj2 Hi. specialize (F1 Hj1 Hi). specialize (F2 Hj2 Hi).
      rewrite F1 in F2. injection F2 as F2. exact F2.
    + intros Hj1 Hj2 Hi. rewrite (G1 Hj1 Hi), (G2 Hj2 Hi). reflexivity.
    + intros Hj1 Hj2 Hi. specialize (K1 Hj1 Hi). specialize (K2 Hj2 Hi).
      rewrite K1 in K2. injection K2 as K2. exact K2.
Qed.

Lemma unperturbed_state_axisymmetric_witness :
  exists prim' b',
    JetInnerX3 flat_jet true sample_centred 1 sample_mesh
      sample_prim sample_faces 1 1 0 1 0 0 1 = Some (prim', b')
    /\ prim' IDN (0 - 1)%Z 0%Z 1%Z = prim' IDN (0 - 1)%Z 1%Z 1%Z
    /\ prim' IVX (0 - 1)%Z 0%Z 1%Z = prim' IVX (0 - 1)%Z 1%Z 1%Z
    /\ b_x3f b' (0 - 1)%Z 0%Z 1%Z = b_x3f b' (0 - 1)%Z 1%Z 1%Z.
Proof.
  destruct (unperturbed_state_axisymmetric flat_jet true sample_centred 1 sample_mesh
              sample_prim sample_faces 1 1 0 1 0 0 1) as (prim' & b' & Hrun & Hcells).
  - reflexivity.
  - apply straight_samples_solved; reflexivity.
  - exists prim', b'. split; [exact Hrun |].
    destruct (Hcells 1%Z 0%Z 1%Z 1%Z) as [Hprim Hface]; [lia |].
    destruct Hprim as (Hd & _ & _ & _ & Hvx); try lia.
    destruct (Hface eq_refl) as (_ & _ & H3).
    split; [exact Hd |]. split; [apply Hvx; intros _ _; split; reflexivity | apply H3; lia].
Defined.

(** ** Face fields *)

(** C8. With magnetic fields enabled, whenever the root-solves of the fill
    return, [JetInnerX3] returns a face field whose azimuthal component is
    exactly zero on every ghost-zone face of its azimuthal loop nest: rows
    [kl - k] for [1 <= k <= ngh], [jl <= j <= ju + 1], [il <= i <= iu]. *)
Theorem azimuthal_face_field_zero
    (p : Params)
    (CCF : FaceField -> Coordinates -> Z -> Z -> Z -> Z -> Z -> Z -> FieldArray)
    (fuel : nat) (pco : Coordinates) (prim : PrimArray) (b : FaceField)
    (il iu jl ju kl ku ngh : Z) :
  samples_solved p fuel pco true il iu kl ngh ->
  exists prim' b',
    JetInnerX3 p true CCF fuel pco prim b il iu jl ju kl ku ngh = Some (prim', b')
    /\ forall k j i,
         (1 <= k <= ngh)%Z -> (jl <= j <= ju + 1)%Z -> (il <= i <= iu)%Z ->
         b_x2f b' (kl - k)%Z j i = 0.
Proof.
  intros Hsolved.
  destruct (JetInnerX3_returns p true CCF fuel pco il iu jl ju kl ku ngh prim b Hsolved)
    as (prim' & b' & Hrun).
  exists prim', b'. split; [exact Hrun |]. intros k j i Hk Hj Hi.
  destruct (JetInnerX3_faces p true CCF fuel pco il iu jl ju kl ku ngh
              prim b prim' b' Hrun eq_refl k j i Hk) as (_ & H2 & _).
  apply H2; assumption.
Qed.

Lemma azimuthal_face_field_zero_witness :
  exists prim' b',
    JetInnerX3 straight_jet true sample_centred 1 sample_mesh
      sample_prim sample_faces 0 0 0 0 0 0 1 = Some (prim', b')
    /\ b_x2f b' (0 - 1)%Z 1%Z 0%Z = 0.
Proof.
  destruct (azimuthal_face_field_zero straight_jet sample_centred 1 sample_mesh
              sample_prim sample_faces 0 0 0 0 0 0 1) as (prim' & b' & Hrun & Hzero).
  - apply straight_samples_solved; reflexivity.
  - exists prim', b'. split; [exact Hrun |]. apply Hzero; lia.
Defined.

(** * Further properties of the code *)

(** ** SmoothStep and the flux function *)

(** X1. [SmoothStep] is point-symmetric about [(0, 1/2)]: the weight at [-x]
    and the weight at [x] add up to one, so jet and ambient shares swap
    under reflection of the argument. *)
Theorem SmoothStep_reflect (x : R) : SmoothStep (- x) = 1 - SmoothStep x.
Proof.
  rewrite !SmoothStep_clamp.
  assert (Hc : clamp (- x) = - clamp x).
  { unfold clamp, Rmax, Rmin.
    destruct (Rle_dec (- x) 1), (Rle_dec x 1);
      repeat match goal with |- context [Rle_dec ?u ?v] => destruct (Rle_dec u v) end;
      lra. }
  rewrite Hc. field.
Qed.

(** X2. [SmoothStep] changes by at most [3/4] of the change of its argument,
    so the blending weight moves by at most [3 / (4 dr_jet)] per unit of
    mapped radius. *)
Theorem SmoothStep_slope_bound (p : Params) (r r' : R) :
  0 < dr_jet p ->
  Rabs (SmoothStep ((r - r_jet p) / dr_jet p) - SmoothStep ((r' - r_jet p) / dr_jet p))
  <= 3 / (4 * dr_jet p) * Rabs (r - r').
Proof.
  intros Hdr.
  eapply Rle_trans; [apply SmoothStep_lipschitz |].
  replace ((r - r_jet p) / dr_jet p - (r' - r_jet p) / dr_jet p)
    with ((r - r') * / dr_jet p) by (field; lra).
  rewrite Rabs_mult, (Rabs_pos_eq (/ dr_jet p))
    by (apply Rlt_le, Rinv_0_lt_compat; exact Hdr).
  apply Req_le. field. lra.
Qed.

Lemma SmoothStep_slope_bound_witness :
  Rabs (SmoothStep ((1 - r_jet straight_jet) / dr_jet straight_jet)
        - SmoothStep ((2 - r_jet straight_jet) / dr_jet straight_jet))
  <= 3 / (4 * dr_jet straight_jet) * Rabs (1 - 2).
Proof.
  apply (SmoothStep_slope_bound straight_jet 1 2). simpl. lra.
Defined.

Section FluxEverywhere.

Variable p : Params.
Hypothesis wf : well_formed p.

(** Inside the transition band the Region B cubic is the smoothing weight. *)
Lemma blend_B_weight x :
  r_jet p - dr_jet p <= x <= r_jet p + dr_jet p -> blend_B p x = weight p x.
Proof.
  intros [H1 H2]. destruct wf as [_ Hdr].
  unfold weight. rewrite SmoothStep_clamp.
  assert (Hu : -1 <= (x - r_jet p) / dr_jet p <= 1).
  { split.
    - apply Rmult_le_reg_r with (dr_jet p); [exact Hdr |].
      replace ((x - r_jet p) / dr_jet p * dr_jet p) with (x - r_jet p) by (field; lra).
      lra.
    - apply Rmult_le_reg_r with (dr_jet p); [exact Hdr |].
      replace ((x - r_jet p) / dr_jet p * dr_jet p) with (x - r_jet p) by (field; lra).
      lra. }
  assert (Hc : clamp ((x - r_jet p) / dr_jet p) = (x - r_jet p) / dr_jet p).
  { unfold clamp, Rmax, Rmin.
    destruct (Rle_dec ((x - r_jet p) / dr_jet p) 1); [| lra].
    destruct (Rle_dec ((x - r_jet p) / dr_jet p) (-1)); lra. }
  rewrite Hc. unfold blend_B, d. field. lra.
Qed.

Lemma weight_core x : x <= r_jet p - dr_jet p -> weight p x = 1.
Proof.
  intros H. destruct wf as [_ Hdr]. apply SmoothStep_low.
  apply Rmult_le_reg_r with (dr_jet p); [exact Hdr |].
  replace ((x - r_jet p) / dr_jet p * dr_jet p) with (x - r_jet p) by (field; lra).
  lra.
Qed.

Lemma weight_ambient x : r_jet p + dr_jet p <= x -> weight p x = 0.
Proof.
  intros H. destruct wf as [_ Hdr]. apply SmoothStep_high.
  apply Rmult_le_reg_r with (dr_jet p); [exact Hdr |].
  replace ((x - r_jet p) / dr_jet p * dr_jet p) with (x - r_jet p) by (field; lra).
  lra.
Qed.

Lemma flux_intg_derivative x :
  derivable_pt_lim (flux_intg p) x (slope_A p x * weight p x).
Proof.
  destruct wf as [Hrj Hdr].
  destruct (Rtotal_order x (r_jet p - dr_jet p)) as [Hlt | [-> | Hgt]].
  - (* Region A *)
    apply (derivable_pt_lim_locally_ext (flux_A p) (flux_intg p) x
             (x - 1) (r_jet p - dr_jet p)).
    + lra.
    + intros z Hz. symmetry. apply flux_intg_A. lra.
    + rewrite weight_core by lra. rewrite Rmult_1_r. apply flux_A_derivative. exact wf.
  - rewrite weight_core by lra. rewrite Rmult_1_r.
    apply flux_intg_derivative_left. exact wf.
  - destruct (Rtotal_order x (r_jet p + dr_jet p)) as [Hlt | [-> | Hgt']].
    + (* Region B *)
      apply (derivable_pt_lim_locally_ext (flux_B p) (flux_intg p) x
               (r_jet p - dr_jet p) (r_jet p + dr_jet p)).
      * lra.
      * intros z Hz. symmetry. apply flux_intg_B. lra.
      * rewrite <- blend_B_weight by lra. apply flux_B_derivative. exact wf.
    + rewrite weight_ambient by lra. rewrite Rmult_0_r.
      apply flux_intg_derivative_right. exact wf.
    + (* Region C *)
      apply (derivable_pt_lim_locally_ext (fun _ => flux_C p) (flux_intg p) x
               (r_jet p + dr_jet p) (x + 1)).
      * lra.
      * intros z Hz. symmetry. apply flux_intg_C; [exact wf | lra].
      * rewrite weight_ambient by lra. rewrite Rmult_0_r. apply D_const.
Qed.

End FluxEverywhere.

(** X3. For positive jet radius and half-width, [flux_intg] is differentiable
    at every radius, with derivative the Region A field profile
    [b_0 a^2 x / (a^2 + x^2)] times the smoothing weight at [x]: the full
    profile in the core, its smooth cut-off across the transition band, and
    zero beyond it.  In particular [flux_intg] is continuous everywhere. *)
Theorem flux_intg_antiderivative (p : Params) :
  well_formed p ->
  forall x,
    derivable_pt_lim (flux_intg p) x
      (b_0 p * (a p * a p) * x / (a p * a p + x * x)
       * SmoothStep ((x - r_jet p) / dr_jet p))
    /\ continuity_pt (flux_intg p) x.
Proof.
  intros Hwf x.
  pose proof (flux_intg_derivative p Hwf x) as Hd.
  split; [exact Hd |].
  apply derivable_continuous_pt. eexists. exact Hd.
Qed.

Lemma flux_intg_antiderivative_witness :
  derivable_pt_lim (flux_intg straight_jet) 1
    (b_0 straight_jet * (a straight_jet * a straight_jet) * 1
     / (a straight_jet * a straight_jet + 1 * 1)
     * SmoothStep ((1 - r_jet straight_jet) / dr_jet straight_jet)).
Proof.
  destruct (flux_intg_antiderivative straight_jet straight_jet_well_formed 1) as [Hd _].
  exact Hd.
Defined.

(** ** Field-line solver *)



(** X5. What a returned source radius is worth: in the mapping regime with a
    sign-changing initial bracket, the radius [r0_r_z] returns either has a
    residual below [1e-5], or lies strictly inside a bracket of width at
    most [1e-4], contained in the initial one, across which the residual
    changes sign; and with [iter_bound] fuel such a radius is returned. *)
Theorem r0_r_z_accurate (p : Params) (x1 x3 : R) :
  x1min p < x1 < r_jet p + dr_jet p ->
  f p (x1min p) x1 x3 * f p (r_jet p + dr_jet p) x1 x3 < 0 ->
  (forall fuel r0,
     r0_r_z p fuel x1 x3 = Some r0 ->
     Rabs (f p r0 x1 x3) < 1 / 100000
     \/ exists r1 r2,
          x1min p <= r1 /\ r1 < r0 < r2 /\ r2 <= r_jet p + dr_jet p
          /\ r2 - r1 <= 1 / 10000
          /\ f p r1 x1 x3 * f p r2 x1 x3 < 0)
  /\ (well_formed p ->
      forall fuel, (iter_bound p x3 <= fuel)%nat ->
                   exists r0, r0_r_z p fuel x1 x3 = Some r0).
Proof.
  intros Hreg Hs. split.
  - intros fuel r0 E. exact (r0_r_z_accuracy p fuel x1 x3 r0 Hreg Hs E).
  - intros Hwf fuel Hfuel. apply r0_r_z_returns; assumption.
Qed.

Lemma r0_r_z_accurate_witness :
  Rabs (f straight_jet (1 / 2) (1 / 2) 0) < 1 / 100000
  \/ exists r1 r2,
       x1min straight_jet <= r1 /\ r1 < 1 / 2 < r2
       /\ r2 <= r_jet straight_jet + dr_jet straight_jet
       /\ r2 - r1 <= 1 / 10000
       /\ f straight_jet r1 (1 / 2) 0 * f straight_jet r2 (1 / 2) 0 < 0.
Proof.
  assert (Hreg : x1min straight_jet < 1 / 2 < r_jet straight_jet + dr_jet straight_jet)
    by (simpl; lra).
  destruct (r0_r_z_accurate straight_jet (1 / 2) 0 Hreg straight_jet_sign_change)
    as [Hacc _].
  apply (Hacc 1%nat (1 / 2)).
  destruct (r0_r_z_linear straight_jet 0 (1 / 2) 0) as (r0 & E & _ & Hexact).
  - intros r. apply f_straight; reflexivity.
  - exact Hreg.
  - rewrite E. f_equal. apply Hexact; unfold tol; simpl; lra.
Defined.

(** X6. Where field lines do not bend, the mapping is the identity up to the
    residual tolerance: for nonzero [vz_amb], [vz_jet], [r_jet], [dr_jet]
    and [z_0] (the divisors of the residual), at zero axial distance, or
    with no radial velocity in either the jet or the ambient medium, a query
    in the mapping regime returns within the first pass a radius less than
    [1e-5] away from the query radius, and the query radius itself unless a
    bracket end is that close. *)
Theorem r0_r_z_unbent (p : Params) (x1 x3 : R) (fuel : nat) :
  nonzero_divisors p ->
  x3 = 0 \/ (vx_jet p = 0 /\ vx_amb p = 0) ->
  x1min p < x1 < r_jet p + dr_jet p ->
  (1 <= fuel)%nat ->
  exists r0,
    r0_r_z p fuel x1 x3 = Some r0
    /\ Rabs (r0 - x1) < 1 / 100000
    /\ (1 / 100000 <= x1 - x1min p -> 1 / 100000 <= r_jet p + dr_jet p - x1 -> r0 = x1).
Proof.
  intros _ Hflat Hreg Hfuel.
  destruct fuel as [| n]; [lia |].
  apply r0_r_z_linear; [| exact Hreg].
  destruct Hflat as [-> | [Hj Ha]]; intros r.
  - apply f_at_origin.
  - apply f_straight; assumption.
Qed.

Lemma r0_r_z_unbent_witness :
  exists r0, r0_r_z straight_jet 1 (1 / 2) 0 = Some r0 /\ Rabs (r0 - 1 / 2) < 1 / 100000.
Proof.
  destruct (r0_r_z_unbent straight_jet (1 / 2) 0 1) as (r0 & E & Hclose & _).
  - unfold nonzero_divisors. simpl. repeat split; lra.
  - left. reflexivity.
  - simpl. lra.
  - apply Nat.le_refl.
  - exists r0. split; assumption.
Defined.

(** X15. Where the field lines cannot cross, the solver finds the one foot
    point.  For positive jet radius and half-width and an axial position at
    which the Lipschitz bound [lipschitz_f] of the residual stays below 2
    (the opening term changes more slowly than the radius itself), a root of
    the residual in the bracket is the only one, every radius [r0_r_z]
    returns in the mapping regime is within [1e-4] of it or within
    [1e-5 / (2 - lipschitz_f)], and with [iter_bound] fuel a radius is
    returned. *)
Theorem r0_r_z_near_unique_root (p : Params) (x1 x3 root : R) :
  well_formed p ->
  x1min p < x1 < r_jet p + dr_jet p ->
  lipschitz_f p x3 < 2 ->
  x1min p <= root <= r_jet p + dr_jet p ->
  f p root x1 x3 = 0 ->
  (forall r, x1min p <= r <= r_jet p + dr_jet p -> f p r x1 x3 = 0 -> r = root)
  /\ (forall fuel r0,
        r0_r_z p fuel x1 x3 = Some r0 ->
        Rabs (r0 - root) < 1 / 10000
        \/ (2 - lipschitz_f p x3) * Rabs (r0 - root) < 1 / 100000)
  /\ (forall fuel, (iter_bound p x3 <= fuel)%nat ->
                   exists r0, r0_r_z p fuel x1 x3 = Some r0).
Proof.
  intros Hwf Hreg HL Hroot E.
  destruct (root_sign_change p Hwf x1 x3 HL root Hreg Hroot E) as [Hneg Hpos].
  split; [| split].
  - intros r Hr Er. exact (f_root_unique p Hwf x1 x3 HL root r Hroot Hr E Er).
  - intros fuel r0 Er0.
    destruct (Req_dec (f p (r_jet p + dr_jet p) x1 x3) 0) as [Hz | Hnz].
    + right. destruct (r0_r_z_outer_root p x1 x3 fuel r0 Hreg Hz Er0) as [Hin Hsmall].
      exact (f_small_near_root p Hwf x1 x3 root r0 Hroot Hin E Hsmall).
    + assert (Hs : f p (x1min p) x1 x3 * f p (r_jet p + dr_jet p) x1 x3 < 0) by nra.
      destruct (r0_r_z_accuracy p fuel x1 x3 r0 Hreg Hs Er0)
        as [Hsmall | (r1 & r2 & H1 & H0 & H2 & Hwidth & Hs')].
      * right. pose proof (r0_r_z_bracketed p fuel x1 x3 r0 Hreg Hs Er0) as Hin.
        exact (f_small_near_root p Hwf x1 x3 root r0 Hroot Hin E Hsmall).
      * left. unfold eps in Hwidth.
        pose proof (f_root_between p Hwf x1 x3 HL r1 r2 root H1 ltac:(lra) H2 Hroot Hs' E).
        apply Rabs_def1; lra.
  - intros fuel Hfuel.
    destruct (Req_dec (f p (r_jet p + dr_jet p) x1 x3) 0) as [Hz | Hnz].
    + exact (r0_r_z_outer_root_returns p x1 x3 fuel Hreg Hz).
    + apply r0_r_z_returns; [assumption .. | nra | exact Hfuel].
Qed.

Lemma r0_r_z_near_unique_root_witness :
  exists r0,
    r0_r_z straight_jet (iter_bound straight_jet 0) (1 / 2) 0 = Some r0
    /\ (Rabs (r0 - 1 / 2) < 1 / 10000
        \/ (2 - lipschitz_f straight_jet 0) * Rabs (r0 - 1 / 2) < 1 / 100000).
Proof.
  destruct (r0_r_z_near_unique_root straight_jet (1 / 2) 0 (1 / 2)) as (_ & Hnear & Hret).
  - exact straight_jet_well_formed.
  - simpl. lra.
  - unfold lipschitz_f. simpl z_0.
    replace (- 0 / 1) with 0 by lra.
    rewrite exp_0, Rminus_diag, Rmult_0_r, Rabs_R0, Rmult_0_r. lra.
  - simpl. lra.
  - rewrite f_at_origin. lra.
  - destruct (Hret (iter_bound straight_jet 0) (Nat.le_refl _)) as [r0 E].
    exists r0. split; [exact E | exact (Hnear _ r0 E)].
Defined.

(** ** Boundary function *)

(** X7. [JetInnerX3] writes ghost zones only.  Whenever the root-solves of
    the fill return it returns, and every primitive outside the ghost box
    (rows [kl - ngh .. kl - 1], [jl .. ju], [il .. iu]) and every face value
    outside the box of its loop nest (one more radial face for [x1f], one
    more azimuthal face for [x2f]) is what it was on entry; in particular no
    row [kk >= kl] of the active zone is touched, and without magnetic
    fields the face field is returned as it came. *)
Theorem JetInnerX3_writes_ghost_zone_only
    (p : Params) (mhd : bool)
    (CCF : FaceField -> Coordinates -> Z -> Z -> Z -> Z -> Z -> Z -> FieldArray)
    (fuel : nat) (pco : Coordinates) (prim : PrimArray) (b : FaceField)
    (il iu jl ju kl ku ngh : Z) :
  samples_solved p fuel pco mhd il iu kl ngh ->
  exists prim' b',
    JetInnerX3 p mhd CCF fuel pco prim b il iu jl ju kl ku ngh = Some (prim', b')
    /\ (forall n kk j i,
          ~ ((kl - ngh <= kk <= kl - 1)%Z /\ (jl <= j <= ju)%Z /\ (il <= i <= iu)%Z) ->
          prim' n kk j i = prim n kk j i)
    /\ (forall kk j i,
          ~ ((kl - ngh <= kk <= kl - 1)%Z /\ (jl <= j <= ju)%Z /\ (il <= i <= iu + 1)%Z) ->
          b_x1f b' kk j i = b_x1f b kk j i)
    /\ (forall kk j i,
          ~ ((kl - ngh <= kk <= kl - 1)%Z /\ (jl <= j <= ju + 1)%Z /\ (il <= i <= iu)%Z) ->
          b_x2f b' kk j i = b_x2f b kk j i)
    /\ (forall kk j i,
          ~ ((kl - ngh <= kk <= kl - 1)%Z /\ (jl <= j <= ju)%Z /\ (il <= i <= iu)%Z) ->
          b_x3f b' kk j i = b_x3f b kk j i)
    /\ (mhd = false -> b' = b).
Proof.
  intros Hsolved.
  destruct (JetInnerX3_returns p mhd CCF fuel pco il iu jl ju kl ku ngh prim b Hsolved)
    as (prim' & b' & Hrun).
  exists prim', b'. split; [exact Hrun |].
  split.
  { intros n kk j i Hout.
    apply (JetInnerX3_prim_frame p mhd CCF fuel pco il iu jl ju kl ku ngh prim b prim' b');
      [exact Hrun | apply cell_box_outside; exact Hout]. }
  split.
  { intros kk j i Hout.
    destruct (JetInnerX3_face_frame p mhd CCF fuel pco il iu jl ju kl ku ngh
                prim b prim' b' kk j i Hrun) as (H1 & _ & _).
    apply H1. apply cell_box_outside. exact Hout. }
  split.
  { intros kk j i Hout.
    destruct (JetInnerX3_face_frame p mhd CCF fuel pco il iu jl ju kl ku ngh
                prim b prim' b' kk j i Hrun) as (_ & H2 & _).
    apply H2. apply cell_box_outside. exact Hout. }
  split.
  { intros kk j i Hout.
    destruct (JetInnerX3_face_frame p mhd CCF fuel pco il iu jl ju kl ku ngh
                prim b prim' b' kk j i Hrun) as (_ & _ & H3).
    apply H3. apply cell_box_outside. exact Hout. }
  intros Hm. eapply JetInnerX3_hydro_faces; eassumption.
Qed.

Lemma JetInnerX3_writes_ghost_zone_only_witness :
  exists prim' b',
    JetInnerX3 straight_jet true sample_centred 1 sample_mesh
      sample_prim sample_faces 0 0 0 0 0 0 1 = Some (prim', b')
    /\ prim' IDN 0%Z 0%Z 0%Z = sample_prim IDN 0%Z 0%Z 0%Z
    /\ b_x3f b' 0%Z 0%Z 0%Z = b_x3f sample_faces 0%Z 0%Z 0%Z.
Proof.
  destruct (JetInnerX3_writes_ghost_zone_only straight_jet true sample_centred 1
              sample_mesh sample_prim sample_faces 0 0 0 0 0 0 1)
    as (prim' & b' & Hrun & Hprim & _ & _ & H3 & _).
  - apply straight_samples_solved; reflexivity.
  - exists prim', b'. split; [exact Hrun |].
    split; [apply Hprim; lia | apply H3; lia].
Defined.

(** X8. With magnetic fields, in every ghost cell whose radius is at most
    [r_jet + dr_jet] the returned velocity is parallel to the framework's
    cell-centred field in the radial-axial plane: radial velocity times
    axial field equals axial velocity times radial field, wherever the axial
    field is not zero.  Farther out the radial velocity stays the one of the
    primitive fill, the axial velocity times the opening rate at the mapped
    radius. *)
Theorem JetInnerX3_velocity_along_field
    (p : Params)
    (CCF : FaceField -> Coordinates -> Z -> Z -> Z -> Z -> Z -> Z -> FieldArray)
    (fuel : nat) (pco : Coordinates) (prim : PrimArray) (b : FaceField)
    (il iu jl ju kl ku ngh : Z) :
  samples_solved p fuel pco true il iu kl ngh ->
  exists prim' b',
    JetInnerX3 p true CCF fuel pco prim b il iu jl ju kl ku ngh = Some (prim', b')
    /\ forall k j i,
         (1 <= k <= ngh)%Z -> (jl <= j <= ju)%Z -> (il <= i <= iu)%Z ->
         let bc := CCF b' pco il iu jl ju (kl - ngh)%Z ku in
         (x1v pco i <= r_jet p + dr_jet p ->
          bc IB3 (kl - k)%Z j i <> 0 ->
          prim' IVX (kl - k)%Z j i * bc IB3 (kl - k)%Z j i
          = prim' IVZ (kl - k)%Z j i * bc IB1 (kl - k)%Z j i)
         /\ (x1v pco i > r_jet p + dr_jet p ->
             exists r_0,
               r0_r_z p fuel (x1v pco i) (x3v pco (kl - k)) = Some r_0
               /\ prim' IVX (kl - k)%Z j i
                  = prim' IVZ (kl - k)%Z j i * rang p r_0
                    * exp (- x3v pco (kl - k) / z_0 p)).
Proof.
  intros Hsolved.
  destruct (JetInnerX3_returns p true CCF fuel pco il iu jl ju kl ku ngh prim b Hsolved)
    as (prim' & b' & Hrun).
  exists prim', b'. split; [exact Hrun |]. intros k j i Hk Hj Hi bc.
  destruct (JetInnerX3_prim p true CCF fuel pco il iu jl ju kl ku ngh
              prim b prim' b' k j i Hrun Hk Hj Hi) as (r_0 & Er & Hcell).
  pose proof (Hcell IVX) as Hvx. pose proof (Hcell IVZ) as Hvz.
  rewrite vx_box_only_vx in Hvz by discriminate.
  unfold vx_box, near_core in Hvx.
  rewrite (cell_box_intro il iu jl ju kl ngh k j i Hk Hj Hi) in Hvx.
  destruct (Rle_dec (x1v pco i) (r_jet p + dr_jet p)) as [Hcore | Hfar];
    cbn [andb] in Hvx; cbv zeta in Hvx; split.
  - intros _ Hb3. rewrite Hvx, Hvz. fold bc. field. exact Hb3.
  - intros Hgt. lra.
  - intros Hle. contradiction.
  - intros _. exists r_0. split; [exact Er |]. rewrite Hvx, Hvz. reflexivity.
Qed.

Lemma JetInnerX3_velocity_along_field_witness :
  exists prim' b',
    JetInnerX3 straight_jet true sample_centred 1 sample_mesh
      sample_prim sample_faces 0 0 0 0 0 0 1 = Some (prim', b')
    /\ prim' IVX (0 - 1)%Z 0%Z 0%Z
       * sample_centred b' sample_mesh 0 0 0 0 (0 - 1) 0 IB3 (0 - 1)%Z 0%Z 0%Z
       = prim' IVZ (0 - 1)%Z 0%Z 0%Z
         * sample_centred b' sample_mesh 0 0 0 0 (0 - 1) 0 IB1 (0 - 1)%Z 0%Z 0%Z.
Proof.
  destruct (JetInnerX3_velocity_along_field straight_jet sample_centred 1
              sample_mesh sample_prim sample_faces 0 0 0 0 0 0 1)
    as (prim' & b' & Hrun & Hcells).
  - apply straight_samples_solved; reflexivity.
  - exists prim', b'. split; [exact Hrun |].
    destruct (Hcells 1%Z 0%Z 0%Z) as [Hcore _]; try lia.
    apply Hcore.
    + simpl. lra.
    + unfold sample_centred. lra.
Defined.

(** X9. With magnetic fields and positive jet radius and half-width, the
    ghost-zone field vanishes outside the jet: a radial face value is zero on
    every face at a radius of at least [r_jet + dr_jet] (and not below the
    inner edge), and an axial face value is zero on every cell whose two
    radial faces both lie there, for non-degenerate cell sizes.  There the
    source radius is the radius itself for every axial position, so the
    potential is the frozen flux over the radius. *)
Theorem JetInnerX3_field_confined
    (p : Params)
    (CCF : FaceField -> Coordinates -> Z -> Z -> Z -> Z -> Z -> Z -> FieldArray)
    (fuel : nat) (pco : Coordinates) (prim : PrimArray) (b : FaceField)
    (il iu jl ju kl ku ngh : Z) :
  well_formed p ->
  samples_solved p fuel pco true il iu kl ngh ->
  exists prim' b',
    JetInnerX3 p true CCF fuel pco prim b il iu jl ju kl ku ngh = Some (prim', b')
    /\ forall k j i,
         (1 <= k <= ngh)%Z -> (jl <= j <= ju)%Z ->
         ((il <= i <= iu + 1)%Z ->
          r_jet p + dr_jet p <= x1f pco i -> x1min p <= x1f pco i ->
          x3v pco (k + 1) - x3v pco k <> 0 ->
          b_x1f b' (kl - k)%Z j i = 0)
         /\ ((il <= i <= iu)%Z ->
             r_jet p + dr_jet p <= x1f pco i -> x1min p <= x1f pco i ->
             r_jet p + dr_jet p <= x1f pco (i + 1) -> x1min p <= x1f pco (i + 1) ->
             SQR (x1f pco (i + 1)) - SQR (x1f pco i) <> 0 ->
             b_x3f b' (kl - k)%Z j i = 0).
Proof.
  intros Hwf Hsolved.
  destruct (JetInnerX3_returns p true CCF fuel pco il iu jl ju kl ku ngh prim b Hsolved)
    as (prim' & b' & Hrun).
  exists prim', b'. split; [exact Hrun |]. intros k j i Hk Hj.
  destruct (JetInnerX3_faces p true CCF fuel pco il iu jl ju kl ku ngh
              prim b prim' b' Hrun eq_refl k j i Hk) as (H1 & _ & H3).
  assert (Hpos : 0 < r_jet p + dr_jet p) by (destruct Hwf; lra).
  split.
  - intros Hi Hhi Hlo Hdz. specialize (H1 Hj Hi).
    apply x1f_value_plain in H1; [| lra].
    destruct H1 as (A & A' & EA & EA' & ->).
    rewrite (A2_outside p fuel _ _ Hwf Hhi Hlo) in EA.
    rewrite (A2_outside p fuel _ _ Hwf Hhi Hlo) in EA'.
    injection EA as <-. injection EA' as <-. field. split; [lra | exact Hdz].
  - intros Hi Hhi Hlo Hhi' Hlo' Hdr. specialize (H3 Hj Hi).
    apply x3f_value_plain in H3; [| lra].
    destruct H3 as (A_p1 & A & EA_p1 & EA & ->).
    rewrite (A2_outside p fuel _ _ Hwf Hhi' Hlo') in EA_p1.
    rewrite (A2_outside p fuel _ _ Hwf Hhi Hlo) in EA.
    injection EA_p1 as <-. injection EA as <-. field.
    repeat split; first [exact Hdr | lra].
Qed.

Lemma JetInnerX3_field_confined_witness :
  exists prim' b',
    JetInnerX3 straight_jet true sample_centred 1 sample_mesh
      sample_prim sample_faces 3 3 0 0 0 0 1 = Some (prim', b')
    /\ b_x1f b' (0 - 1)%Z 0%Z 3%Z = 0
    /\ b_x3f b' (0 - 1)%Z 0%Z 3%Z = 0.
Proof.
  destruct (JetInnerX3_field_confined straight_jet sample_centred 1
              sample_mesh sample_prim sample_faces 3 3 0 0 0 0 1)
    as (prim' & b' & Hrun & Hfaces).
  - exact straight_jet_well_formed.
  - apply straight_samples_solved; reflexivity.
  - exists prim', b'. split; [exact Hrun |].
    destruct (Hfaces 1%Z 0%Z 3%Z) as [H1 H3]; try lia.
    split.
    + apply H1; try lia; simpl; lra.
    + apply H3; try lia; simpl; unfold SQR; lra.
Defined.

(** X10. With magnetic fields and nonzero [vz_amb], [vz_jet], [r_jet],
    [dr_jet], [z_0], the ghost-zone face fields are divergence-free on every
    ghost cell that has both axial faces in the ghost zone (rows [kl - k],
    [2 <= k <= ngh]), no radial face below the inner edge and none on the
    axis (where the potential divides by a zero radius), provided the
    cell-centre spacing the radial faces are divided by,
    [x3v (k+1) - x3v k], is the axial extent of the cell: the net flux
    through its six faces, per unit azimuthal angle and for any area of the
    azimuthal faces, is zero.  Radial and axial face values are differences
    of the same potential, and the azimuthal face values are zero. *)
Theorem JetInnerX3_divergence_free
    (p : Params)
    (CCF : FaceField -> Coordinates -> Z -> Z -> Z -> Z -> Z -> Z -> FieldArray)
    (fuel : nat) (pco : Coordinates) (prim : PrimArray) (b : FaceField)
    (il iu jl ju kl ku ngh : Z) (area2 : R) :
  nonzero_divisors p ->
  samples_solved p fuel pco true il iu kl ngh ->
  exists prim' b',
    JetInnerX3 p true CCF fuel pco prim b il iu jl ju kl ku ngh = Some (prim', b')
    /\ forall k j i,
         (2 <= k <= ngh)%Z -> (jl <= j <= ju)%Z -> (il <= i <= iu)%Z ->
         x1min p <= x1f pco i -> x1min p <= x1f pco (i + 1) ->
         x1f pco i <> 0 -> x1f pco (i + 1) <> 0 ->
         let dz := x3f pco (kl - k + 1) - x3f pco (kl - k) in
         x3v pco (k + 1) - x3v pco k = dz -> dz <> 0 ->
         SQR (x1f pco (i + 1)) - SQR (x1f pco i) <> 0 ->
         x1f pco (i + 1) * dz * b_x1f b' (kl - k)%Z j (i + 1)%Z
         - x1f pco i * dz * b_x1f b' (kl - k)%Z j i
         + area2 * (b_x2f b' (kl - k)%Z (j + 1)%Z i - b_x2f b' (kl - k)%Z j i)
         + (SQR (x1f pco (i + 1)) - SQR (x1f pco i)) / 2
           * (b_x3f b' (kl - k + 1)%Z j i - b_x3f b' (kl - k)%Z j i)
         = 0.
Proof.
  intros _ Hsolved.
  destruct (JetInnerX3_returns p true CCF fuel pco il iu jl ju kl ku ngh prim b Hsolved)
    as (prim' & b' & Hrun).
  exists prim', b'. split; [exact Hrun |].
  intros k j i Hk Hj Hi Hlo Hlo' _ _ dz Hdz Hdz0 Hdr.
  pose proof (JetInnerX3_faces p true CCF fuel pco il iu jl ju kl ku ngh
                prim b prim' b' Hrun eq_refl) as Hfaces.
  destruct (Hfaces k j i ltac:(lia)) as (F1 & G & F3).
  destruct (Hfaces k j (i + 1)%Z ltac:(lia)) as (F1' & _ & _).
  destruct (Hfaces k (j + 1)%Z i ltac:(lia)) as (_ & G' & _).
  destruct (Hfaces (k - 1)%Z j i ltac:(lia)) as (_ & _ & F3').
  specialize (F1 Hj ltac:(lia)). specialize (F1' Hj ltac:(lia)).
  specialize (F3 Hj Hi). specialize (F3' Hj Hi).
  rewrite (G ltac:(lia) Hi), (G' ltac:(lia) Hi).
  replace (kl - (k - 1))%Z with (kl - k + 1)%Z in F3' by lia.
  apply x1f_value_plain in F1; [| lra]. apply x1f_value_plain in F1'; [| lra].
  apply x3f_value_plain in F3; [| lra]. apply x3f_value_plain in F3'; [| lra].
  destruct F1 as (A & A' & EA & EA' & ->).
  destruct F1' as (B & B' & EB & EB' & ->).
  destruct F3 as (B3 & A3 & EB3 & EA3 & ->).
  destruct F3' as (B3' & A3' & EB3' & EA3' & ->).
  replace (kl - (k - 1) )%Z with (kl - k + 1)%Z in * by lia.
  rewrite EB in EB3. injection EB3 as <-.
  rewrite EA in EA3. injection EA3 as <-.
  rewrite EB' in EB3'. injection EB3' as <-.
  rewrite EA' in EA3'. injection EA3' as <-.
  rewrite Hdz. fold dz. field. split; assumption.
Qed.

Lemma JetInnerX3_divergence_free_witness :
  exists prim' b',
    JetInnerX3 straight_jet true sample_centred 1 sample_mesh
      sample_prim sample_faces 1 1 0 0 0 0 2 = Some (prim', b')
    /\ x1f sample_mesh 2 * (1 / 10) * b_x1f b' (0 - 2)%Z 0%Z 2%Z
       - x1f sample_mesh 1 * (1 / 10) * b_x1f b' (0 - 2)%Z 0%Z 1%Z
       + 1 * (b_x2f b' (0 - 2)%Z 1%Z 1%Z - b_x2f b' (0 - 2)%Z 0%Z 1%Z)
       + (SQR (x1f sample_mesh 2) - SQR (x1f sample_mesh 1)) / 2
         * (b_x3f b' (0 - 2 + 1)%Z 0%Z 1%Z - b_x3f b' (0 - 2)%Z 0%Z 1%Z)
       = 0.
Proof.
  destruct (JetInnerX3_divergence_free straight_jet sample_centred 1
              sample_mesh sample_prim sample_faces 1 1 0 0 0 0 2 1)
    as (prim' & b' & Hrun & Hdiv).
  - unfold nonzero_divisors. simpl. repeat split; lra.
  - apply straight_samples_solved; reflexivity.
  - exists prim', b'. split; [exact Hrun |].
    assert (Hdz : x3f sample_mesh (0 - 2 + 1) - x3f sample_mesh (0 - 2) = 1 / 10)
      by (simpl; lra).
    rewrite <- Hdz.
    apply (Hdiv 2%Z 0%Z 1%Z); try lia; simpl; unfold SQR; lra.
Defined.

(** ** Synthesized state at the two ends of the blend *)

Section CellLimits.

Variable p : Params.
Hypothesis wf : well_formed p.
Hypothesis pressure_pos : 0 < gad p / (gad p - 1) * p_amb p.

Lemma r0_r_z_outside fuel x1 x3 :
  r_jet p + dr_jet p <= x1 -> x1min p <= x1 -> r0_r_z p fuel x1 x3 = Some x1.
Proof.
  intros Hhi Hlo. unfold r0_r_z.
  destruct (Rlt_dec x1 (r_jet p + dr_jet p)); [lra |].
  destruct (Rle_dec x1 (x1min p)); [f_equal; lra | reflexivity].
Qed.

Lemma perturbed_radius_code r_0 phi :
  perturbed_radius p r_0 phi = r_0 * (1 + dang p * cos (phi * mang p)).
Proof. unfold perturbed_radius. rewrite (Rmult_comm (mang p) phi). reflexivity. Qed.

Lemma cell_ambient r_0 z phi :
  0 < d_amb p ->
  r_jet p + dr_jet p <= r_0 ->
  r_jet p + dr_jet p <= r_0 * (1 + dang p * cos (phi * mang p)) ->
  cell_value p IDN r_0 z phi = d_amb p
  /\ (vx_amb p = 0 -> vy_amb p = 0 -> 0 <= vz_amb p ->
      cell_value p IVZ r_0 z phi = vz_amb p /\ cell_value p IVY r_0 z phi = 0).
Proof.
  intros Hd Hr Hpert.
  assert (Hw : weight p r_0 = 0) by (apply weight_ambient; assumption).
  split.
  - rewrite cell_density, (weight_ambient p wf) by (rewrite perturbed_radius_code; exact Hpert).
    apply density_of_ambient; assumption.
  - intros Hvx Hvy Hvz.
    assert (Hrang : rang p r_0 = 0).
    { unfold rang. fold (weight p r_0). rewrite Hw. unfold rang_amb. rewrite Hvx.
      unfold Rdiv. ring. }
    assert (Haz : azimuthalRatio p r_0 = 0).
    { unfold azimuthalRatio. rewrite Hw, blend_amb. unfold phang_amb. rewrite Hvy.
      unfold Rdiv. ring. }
    assert (Hz : vz_of p r_0 z = vz_amb p).
    { apply (vz_of_axial p r_0 z (vz_amb p) (vz_amb p)); try assumption; [| reflexivity].
      rewrite Hw, (lorentz_of_ambient p pressure_pos Hd).
      unfold gamma_amb. rewrite Hvx, Hvy. reflexivity. }
    split.
    + rewrite cell_vz. exact Hz.
    + rewrite cell_vy. unfold vy_of. rewrite Haz. ring.
Qed.

Lemma cell_core r_0 z phi :
  b_0 p = 0 -> 0 < d_jet p ->
  r_0 <= r_jet p - dr_jet p ->
  r_0 * (1 + dang p * cos (phi * mang p)) <= r_jet p - dr_jet p ->
  cell_value p IDN r_0 z phi = d_jet p
  /\ (vx_jet p = 0 -> vy_jet p = 0 -> 0 <= vz_jet p ->
      cell_value p IVZ r_0 z phi = vz_jet p /\ cell_value p IVY r_0 z phi = 0).
Proof.
  intros Hb Hd Hr Hpert.
  assert (Hw : weight p r_0 = 1) by (apply weight_core; assumption).
  split.
  - rewrite cell_density, (weight_core p wf) by (rewrite perturbed_radius_code; exact Hpert).
    apply density_of_core; assumption.
  - intros Hvx Hvy Hvz.
    assert (Hrang : rang p r_0 = 0).
    { unfold rang. fold (weight p r_0). rewrite Hw. unfold rang_jet. rewrite Hvx.
      unfold Rdiv. ring. }
    assert (Haz : azimuthalRatio p r_0 = 0).
    { unfold azimuthalRatio. rewrite Hw, blend_jet. unfold phang_jet. rewrite Hvy.
      unfold Rdiv. ring. }
    assert (Hz : vz_of p r_0 z = vz_jet p).
    { apply (vz_of_axial p r_0 z (vz_jet p) (vz_jet p)); try assumption; [| reflexivity].
      rewrite Hw, (lorentz_of_core p pressure_pos Hb Hd).
      unfold gamma_jet. rewrite Hvx, Hvy. reflexivity. }
    split.
    + rewrite cell_vz. exact Hz.
    + rewrite cell_vy. unfold vy_of. rewrite Haz. ring.
Qed.

End CellLimits.

(** X11. Outside the jet the ghost cells carry the ambient state.  For
    positive jet radius, half-width, ambient density and [k p_amb]
    ([k = gad / (gad - 1)]) and nonzero divisors ([vz_amb], [vz_jet], [z_0],
    [d_jet], [gad - 1]), every ghost cell whose radius and perturbed
    radius are both at least [r_jet + dr_jet] gets density [d_amb] and
    pressure [p_amb]; and for an ambient medium moving along the axis only
    ([vx_amb = vy_amb = 0 < vz_amb]) axial velocity [vz_amb] and no azimuthal
    velocity.  The closed-form inversion returns the ambient Lorentz factor
    there. *)
Theorem JetInnerX3_ambient_outside_jet
    (p : Params) (mhd : bool)
    (CCF : FaceField -> Coordinates -> Z -> Z -> Z -> Z -> Z -> Z -> FieldArray)
    (fuel : nat) (pco : Coordinates) (prim : PrimArray) (b : FaceField)
    (il iu jl ju kl ku ngh : Z) :
  well_formed p ->
  nonzero_divisors p ->
  0 < d_amb p ->
  d_jet p <> 0 ->
  gad p <> 1 ->
  0 < gad p / (gad p - 1) * p_amb p ->
  samples_solved p fuel pco mhd il iu kl ngh ->
  exists prim' b',
    JetInnerX3 p mhd CCF fuel pco prim b il iu jl ju kl ku ngh = Some (prim', b')
    /\ forall k j i,
         (1 <= k <= ngh)%Z -> (jl <= j <= ju)%Z -> (il <= i <= iu)%Z ->
         r_jet p + dr_jet p <= x1v pco i -> x1min p <= x1v pco i ->
         r_jet p + dr_jet p <= x1v pco i * (1 + dang p * cos (x2v pco j * mang p)) ->
         prim' IDN (kl - k)%Z j i = d_amb p
         /\ prim' IPR (kl - k)%Z j i = p_amb p
         /\ (vx_amb p = 0 -> vy_amb p = 0 -> 0 < vz_amb p ->
             prim' IVZ (kl - k)%Z j i = vz_amb p
             /\ prim' IVY (kl - k)%Z j i = 0).
Proof.
  intros Hwf _ Hd _ _ Hkp Hsolved.
  destruct (JetInnerX3_returns p mhd CCF fuel pco il iu jl ju kl ku ngh prim b Hsolved)
    as (prim' & b' & Hrun).
  exists prim', b'. split; [exact Hrun |]. intros k j i Hk Hj Hi Hhi Hlo Hpert.
  destruct (JetInnerX3_prim p mhd CCF fuel pco il iu jl ju kl ku ngh
              prim b prim' b' k j i Hrun Hk Hj Hi) as (r_0 & Er & Hcell).
  rewrite (r0_r_z_outside p fuel _ _ Hhi Hlo) in Er. injection Er as <-.
  destruct (cell_ambient p Hwf Hkp (x1v pco i) (x3v pco (kl - k)) (x2v pco j)
              Hd Hhi Hpert) as [Hrho Hvel].
  split; [rewrite (Hcell IDN), vx_box_only_vx by discriminate; exact Hrho |].
  split; [rewrite (Hcell IPR), vx_box_only_vx by discriminate; reflexivity |].
  intros Hvx Hvy Hvz. destruct (Hvel Hvx Hvy (Rlt_le _ _ Hvz)) as [Hz Hy].
  split.
  - rewrite (Hcell IVZ), vx_box_only_vx by discriminate. exact Hz.
  - rewrite (Hcell IVY), vx_box_only_vx by discriminate. exact Hy.
Qed.

Lemma JetInnerX3_ambient_outside_jet_witness :
  exists prim' b',
    JetInnerX3 flat_jet true sample_centred 1 sample_mesh
      sample_prim sample_faces 3 3 0 0 0 0 1 = Some (prim', b')
    /\ prim' IDN (0 - 1)%Z 0%Z 3%Z = d_amb flat_jet
    /\ prim' IVZ (0 - 1)%Z 0%Z 3%Z = vz_amb flat_jet.
Proof.
  destruct (JetInnerX3_ambient_outside_jet flat_jet true sample_centred 1
              sample_mesh sample_prim sample_faces 3 3 0 0 0 0 1)
    as (prim' & b' & Hrun & Hcells).
  - unfold well_formed. simpl. lra.
  - unfold nonzero_divisors. simpl. repeat split; lra.
  - simpl. lra.
  - simpl. lra.
  - simpl. lra.
  - simpl. lra.
  - apply straight_samples_solved; reflexivity.
  - exists prim', b'. split; [exact Hrun |].
    destruct (Hcells 1%Z 0%Z 3%Z) as (Hrho & _ & Hvel); try lia; try (simpl; lra).
    split; [exact Hrho |].
    destruct Hvel as [Hz _]; try reflexivity; [simpl; lra | exact Hz].
Defined.

(** X12. In the jet core a jet without azimuthal field amplitude ([b_0 = 0])
    is reproduced.  For positive jet radius, half-width, jet density and
    [k p_amb] and nonzero divisors ([vz_amb], [vz_jet], [z_0], [d_amb],
    [gad - 1]), every ghost cell whose mapped radius and perturbed mapped
    radius are both at most [r_jet - dr_jet] gets density [d_jet] and
    pressure [p_amb]; and for a jet moving along the axis only
    ([vx_jet = vy_jet = 0 < vz_jet]) axial velocity [vz_jet] and no azimuthal
    velocity. *)
Theorem JetInnerX3_jet_in_core
    (p : Params) (mhd : bool)
    (CCF : FaceField -> Coordinates -> Z -> Z -> Z -> Z -> Z -> Z -> FieldArray)
    (fuel : nat) (pco : Coordinates) (prim : PrimArray) (b : FaceField)
    (il iu jl ju kl ku ngh : Z) :
  well_formed p ->
  nonzero_divisors p ->
  b_0 p = 0 ->
  0 < d_jet p ->
  d_amb p <> 0 ->
  gad p <> 1 ->
  0 < gad p / (gad p - 1) * p_amb p ->
  samples_solved p fuel pco mhd il iu kl ngh ->
  exists prim' b',
    JetInnerX3 p mhd CCF fuel pco prim b il iu jl ju kl ku ngh = Some (prim', b')
    /\ forall k j i,
         (1 <= k <= ngh)%Z -> (jl <= j <= ju)%Z -> (il <= i <= iu)%Z ->
         exists r_0,
           r0_r_z p fuel (x1v pco i) (x3v pco (kl - k)) = Some r_0
           /\ (r_0 <= r_jet p - dr_jet p ->
               r_0 * (1 + dang p * cos (x2v pco j * mang p)) <= r_jet p - dr_jet p ->
               prim' IDN (kl - k)%Z j i = d_jet p
               /\ prim' IPR (kl - k)%Z j i = p_amb p
               /\ (vx_jet p = 0 -> vy_jet p = 0 -> 0 < vz_jet p ->
                   prim' IVZ (kl - k)%Z j i = vz_jet p
                   /\ prim' IVY (kl - k)%Z j i = 0)).
Proof.
  intros Hwf _ Hb Hd _ _ Hkp Hsolved.
  destruct (JetInnerX3_returns p mhd CCF fuel pco il iu jl ju kl ku ngh prim b Hsolved)
    as (prim' & b' & Hrun).
  exists prim', b'. split; [exact Hrun |]. intros k j i Hk Hj Hi.
  destruct (JetInnerX3_prim p mhd CCF fuel pco il iu jl ju kl ku ngh
              prim b prim' b' k j i Hrun Hk Hj Hi) as (r_0 & Er & Hcell).
  exists r_0. split; [exact Er |]. intros Hcore Hpert.
  destruct (cell_core p Hwf Hkp r_0 (x3v pco (kl - k)) (x2v pco j)
              Hb Hd Hcore Hpert) as [Hrho Hvel].
  split; [rewrite (Hcell IDN), vx_box_only_vx by discriminate; exact Hrho |].
  split; [rewrite (Hcell IPR), vx_box_only_vx by discriminate; reflexivity |].
  intros Hvx Hvy Hvz. destruct (Hvel Hvx Hvy (Rlt_le _ _ Hvz)) as [Hz Hy].
  split.
  - rewrite (Hcell IVZ), vx_box_only_vx by discriminate. exact Hz.
  - rewrite (Hcell IVY), vx_box_only_vx by discriminate. exact Hy.
Qed.

Lemma JetInnerX3_jet_in_core_witness :
  exists prim' b',
    JetInnerX3 hydro_jet true sample_centred 1 sample_mesh
      sample_prim sample_faces 1 1 0 0 0 0 1 = Some (prim', b')
    /\ prim' IDN (0 - 1)%Z 0%Z 1%Z = d_jet hydro_jet
    /\ prim' IVZ (0 - 1)%Z 0%Z 1%Z = vz_jet hydro_jet.
Proof.
  destruct (JetInnerX3_jet_in_core hydro_jet true sample_centred 1
              sample_mesh sample_prim sample_faces 1 1 0 0 0 0 1)
    as (prim' & b' & Hrun & Hcells).
  - unfold well_formed. simpl. lra.
  - unfold nonzero_divisors. simpl. repeat split; lra.
  - reflexivity.
  - simpl. lra.
  - simpl. lra.
  - simpl. lra.
  - simpl. lra.
  - apply straight_samples_solved; reflexivity.
  - exists prim', b'. split; [exact Hrun |].
    destruct (Hcells 1%Z 0%Z 1%Z) as (r_0 & Er & Hcell); try lia.
    destruct (r0_r_z_linear hydro_jet 0 (x1v sample_mesh 1) (x3v sample_mesh (0 - 1)))
      as (r0 & E & _ & Hval).
    + intros r. apply f_straight; reflexivity.
    + simpl. lra.
    + rewrite E in Er. injection Er as <-.
      assert (Hr : r0 = 3 / 4).
      { rewrite Hval; unfold tol; simpl; lra. }
      subst r0.
      destruct Hcell as (Hrho & _ & Hvel); try (simpl; lra).
      split; [exact Hrho |].
      destruct Hvel as [Hz _]; try reflexivity; [simpl; lra | exact Hz].
Defined.

(** ** Refinement condition *)

(** X13. [RefinementCondition] flags a block for refinement exactly when
    the magnetisation [|B|^2 / rho] of one of its cells exceeds [0.01]: it
    returns [1] and such a cell exists, or it returns [0] and no cell of the
    block exceeds the threshold.  It never asks for derefinement. *)
Theorem RefinementCondition_flags_magnetisation (pmb : MeshBlock) :
  (RefinementCondition pmb = 1%Z
   /\ exists k j i, in_block pmb k j i = true /\ 1 / 100 < magnetisation pmb k j i)
  \/ (RefinementCondition pmb = 0%Z
      /\ forall k j i, in_block pmb k j i = true -> magnetisation pmb k j i <= 1 / 100).
Proof.
  rewrite RefinementCondition_unfold.
  destruct (block_max_spec pmb) as (_ & Hub & Hhit).
  destruct (Rgt_dec (block_max pmb 0) (1 / 100)) as [Hgt | Hle].
  - left. split; [reflexivity |].
    destruct Hhit as [E | (k & j & i & Hin & E)]; [lra |].
    exists k, j, i. split; [exact Hin | lra].
  - right. split; [reflexivity |].
    intros k j i Hin. specialize (Hub k j i Hin). lra.
Qed.

(** X14. With positive densities in the block the flag compares field
    energy to rest mass: [RefinementCondition] returns [1] if and only if
    [|B|^2 > 0.01 rho] in some cell of the block, and in particular returns
    [0] on a block without magnetic field. *)
Theorem RefinementCondition_field_energy (pmb : MeshBlock) :
  (forall k j i, in_block pmb k j i = true -> 0 < phydro_w pmb IDN k j i) ->
  (RefinementCondition pmb = 1%Z <->
   exists k j i,
     in_block pmb k j i = true
     /\ phydro_w pmb IDN k j i / 100
        < pfield_bcc pmb IB1 k j i * pfield_bcc pmb IB1 k j i
          + pfield_bcc pmb IB2 k j i * pfield_bcc pmb IB2 k j i
          + pfield_bcc pmb IB3 k j i * pfield_bcc pmb IB3 k j i)
  /\ ((forall c k j i, in_block pmb k j i = true -> pfield_bcc pmb c k j i = 0) ->
      RefinementCondition pmb = 0%Z).
Proof.
  intros Hrho.
  assert (Hsig : forall k j i, in_block pmb k j i = true ->
            (1 / 100 < magnetisation pmb k j i <->
             phydro_w pmb IDN k j i / 100
             < pfield_bcc pmb IB1 k j i * pfield_bcc pmb IB1 k j i
               + pfield_bcc pmb IB2 k j i * pfield_bcc pmb IB2 k j i
               + pfield_bcc pmb IB3 k j i * pfield_bcc pmb IB3 k j i)).
  { intros k j i Hin. specialize (Hrho k j i Hin). unfold magnetisation.
    set (B2 := _ + _ + _) in *. set (rho := phydro_w pmb IDN k j i) in *.
    split; intros H.
    - apply Rmult_lt_compat_r with (r := rho) in H; [| exact Hrho].
      replace (B2 / rho * rho) with B2 in H by (field; lra). lra.
    - apply Rmult_lt_reg_r with rho; [exact Hrho |].
      replace (B2 / rho * rho) with B2 by (field; lra). lra. }
  rewrite RefinementCondition_unfold.
  destruct (block_max_spec pmb) as (_ & Hub & Hhit).
  destruct (Rgt_dec (block_max pmb 0) (1 / 100)) as [Hgt | Hle].
  - destruct Hhit as [E | (k & j & i & Hin & E)]; [lra |].
    split; [split; [intros _ | reflexivity] |].
    + exists k, j, i. split; [exact Hin |]. apply Hsig; [exact Hin | lra].
    + intros Hzero. exfalso.
      assert (magnetisation pmb k j i = 0).
      { unfold magnetisation. rewrite !(Hzero _ k j i Hin). unfold Rdiv. ring. }
      lra.
  - split; [split; [discriminate |] | reflexivity].
    intros (k & j & i & Hin & H). exfalso.
    apply (Hsig k j i Hin) in H. specialize (Hub k j i Hin). lra.
Qed.

Lemma RefinementCondition_field_energy_witness :
  RefinementCondition (sample_block 1) = 1%Z /\ RefinementCondition (sample_block 0) = 0%Z.
Proof.
  split.
  - apply (RefinementCondition_field_energy (sample_block 1)).
    + intros k j i _. simpl. lra.
    + exists 0%Z, 0%Z, 0%Z. split; [reflexivity | simpl; lra].
  - apply (RefinementCondition_field_energy (sample_block 0)).
    + intros k j i _. simpl. lra.
    + intros c k j i _. destruct c; reflexivity.
Defined.

(** ** Problem generator *)

(** X16. [ProblemGenerator] fills the block, extended by its ghost zones,
    with the uniform ambient state.  When every call of [A2] it makes
    returns (none is made without magnetic fields) it returns, with [gad]
    replaced by the adiabatic index of the equation of state and no other
    parameter changed; both primitive arrays [w] and [w1] hold
    [d_amb, vx_amb, vy_amb, vz_amb, p_amb] in every cell of the index box and
    are unchanged outside it, whatever the coordinate system; and without
    magnetic fields the conserved variables and the field arrays are left
    as they were. *)
Theorem ProblemGenerator_uniform_ambient
    (p : Params) (by_amb : R) (mhd : bool) (NGHOST : Z) (cylindrical : bool)
    (GetGamma : R)
    (Face1Area Edge2Length Face3Area : Coordinates -> Z -> Z -> Z -> R)
    (CCF : FaceField -> FieldArray -> Coordinates -> Z -> Z -> Z -> Z -> Z -> Z
           -> FieldArray)
    (P2C : PrimArray -> FieldArray -> PrimArray -> Coordinates
           -> Z -> Z -> Z -> Z -> Z -> Z -> PrimArray)
    (fuel : nat) (pmb : MeshBlock) (il iu jl ju kl ku : Z) :
  generator_bounds NGHOST pmb = (il, iu, jl, ju, kl, ku) ->
  generator_solved p fuel (pcoord pmb) mhd il iu kl ku ->
  exists pmb',
    ProblemGenerator p by_amb mhd NGHOST cylindrical GetGamma
      Face1Area Edge2Length Face3Area CCF P2C fuel pmb
    = Some (set_gad p GetGamma, pmb')
    /\ (forall n k j i,
          phydro_w pmb' n k j i
          = (if block_box il iu jl ju kl ku k j i then ambient_value p n
             else phydro_w pmb n k j i)
          /\ phydro_w1 pmb' n k j i
             = (if block_box il iu jl ju kl ku k j i then ambient_value p n
                else phydro_w1 pmb n k j i))
    /\ (mhd = false ->
        phydro_u pmb' = phydro_u pmb
        /\ pfield_b pmb' = pfield_b pmb
        /\ pfield_bcc pmb' = pfield_bcc pmb).
Proof.
  intros Hb Hsolved.
  destruct (ambient_fill_returns (set_gad p GetGamma) cylindrical il iu jl ju kl ku
              (phydro_w pmb, phydro_w1 pmb)) as [[w w1] Ea].
  assert (Hprim : forall n k j i,
            w n k j i = (if block_box il iu jl ju kl ku k j i then ambient_value p n
                         else phydro_w pmb n k j i)
            /\ w1 n k j i = (if block_box il iu jl ju kl ku k j i then ambient_value p n
                             else phydro_w1 pmb n k j i)).
  { intros n k j i.
    destruct (ambient_fill_writes _ _ _ _ _ _ _ _ _ _ Ea) as [_ Hw].
    pose proof (Hw ((true, n), k, j, i)) as H1.
    pose proof (Hw ((false, n), k, j, i)) as H2.
    simpl in H1, H2. rewrite ambient_value_set_gad in H1, H2.
    destruct (block_box il iu jl ju kl ku k j i); split; assumption. }
  destruct mhd eqn:Em.
  - specialize (Hsolved eq_refl).
    destruct (init_x1f_returns (set_gad p GetGamma) Face1Area Edge2Length fuel
                (pcoord pmb) il iu jl ju kl ku Hsolved (pfield_b pmb)) as [b1 E1].
    destruct (init_x2f_returns by_amb il iu jl ju kl ku b1) as [b2 E2].
    destruct (init_x3f_returns (set_gad p GetGamma) Edge2Length Face3Area fuel
                (pcoord pmb) il iu jl ju kl ku Hsolved b2) as [b3 E3].
    eexists. split; [| split].
    + apply (ProblemGenerator_mhd p by_amb true NGHOST cylindrical GetGamma
               Face1Area Edge2Length Face3Area CCF P2C fuel pmb il iu jl ju kl ku
               Hb w w1 b1 b2 b3 eq_refl Ea E1 E2 E3).
    + exact Hprim.
    + discriminate.
  - eexists. split; [| split].
    + apply (ProblemGenerator_hydro p by_amb false NGHOST cylindrical GetGamma
               Face1Area Edge2Length Face3Area CCF P2C fuel pmb il iu jl ju kl ku
               Hb w w1 eq_refl Ea).
    + exact Hprim.
    + intros _. repeat split.
Qed.

Lemma ProblemGenerator_uniform_ambient_witness :
  exists pmb',
    ProblemGenerator straight_jet 0 false 2 true (5 / 3)
      (fun _ _ _ _ => 1) (fun _ _ _ _ => 1) (fun _ _ _ _ => 1)
      (fun _ bcc _ _ _ _ _ _ _ => bcc) (fun _ _ u _ _ _ _ _ _ _ => u)
      1 (sample_block 0)
    = Some (set_gad straight_jet (5 / 3), pmb')
    /\ phydro_w pmb' IDN 3%Z 0%Z (-2)%Z = d_amb straight_jet
    /\ phydro_w pmb' IDN 4%Z 0%Z 0%Z = 1.
Proof.
  destruct (ProblemGenerator_uniform_ambient straight_jet 0 false 2 true (5 / 3)
              (fun _ _ _ _ => 1) (fun _ _ _ _ => 1) (fun _ _ _ _ => 1)
              (fun _ bcc _ _ _ _ _ _ _ => bcc) (fun _ _ u _ _ _ _ _ _ _ => u)
              1 (sample_block 0) (-2) 3 0 0 (-2) 3)
    as (pmb' & Hrun & Hprim & _).
  - reflexivity.
  - intros H. discriminate H.
  - exists pmb'. split; [exact Hrun |]. split.
    + destruct (Hprim IDN 3%Z 0%Z (-2)%Z) as [H _]. exact H.
    + destruct (Hprim IDN 4%Z 0%Z 0%Z) as [H _]. exact H.
Defined.

(** X17. The initial face field is divergence-free by construction, for any
    geometry.  With magnetic fields and nonzero [vz_amb], [vz_jet], [r_jet],
    [dr_jet], [z_0], when every call of [A2] returns, [ProblemGenerator]
    returns face arrays in which every cell of the index box has [by_amb] on
    both azimuthal faces and, where neither radial face lies on the axis
    (the potential divides by the radius) and its radial and axial face
    areas are nonzero, zero net flux [area * b] through its radial and axial
    faces. *)
Theorem ProblemGenerator_divergence_free
    (p : Params) (by_amb : R) (NGHOST : Z) (cylindrical : bool) (GetGamma : R)
    (Face1Area Edge2Length Face3Area : Coordinates -> Z -> Z -> Z -> R)
    (CCF : FaceField -> FieldArray -> Coordinates -> Z -> Z -> Z -> Z -> Z -> Z
           -> FieldArray)
    (P2C : PrimArray -> FieldArray -> PrimArray -> Coordinates
           -> Z -> Z -> Z -> Z -> Z -> Z -> PrimArray)
    (fuel : nat) (pmb : MeshBlock) (il iu jl ju kl ku : Z) :
  nonzero_divisors p ->
  generator_bounds NGHOST pmb = (il, iu, jl, ju, kl, ku) ->
  generator_solved p fuel (pcoord pmb) true il iu kl ku ->
  exists pmb',
    ProblemGenerator p by_amb true NGHOST cylindrical GetGamma
      Face1Area Edge2Length Face3Area CCF P2C fuel pmb
    = Some (set_gad p GetGamma, pmb')
    /\ forall k j i,
         block_box il iu jl ju kl ku k j i = true ->
         b_x2f (pfield_b pmb') k j i = by_amb
         /\ b_x2f (pfield_b pmb') k (j + 1)%Z i = by_amb
         /\ (x1f (pcoord pmb) i <> 0 -> x1f (pcoord pmb) (i + 1) <> 0 ->
             Face1Area (pcoord pmb) k j i <> 0 ->
             Face1Area (pcoord pmb) k j (i + 1)%Z <> 0 ->
             Face3Area (pcoord pmb) k j i <> 0 ->
             Face3Area (pcoord pmb) (k + 1)%Z j i <> 0 ->
             Face1Area (pcoord pmb) k j (i + 1)%Z * b_x1f (pfield_b pmb') k j (i + 1)%Z
             - Face1Area (pcoord pmb) k j i * b_x1f (pfield_b pmb') k j i
             + Face3Area (pcoord pmb) (k + 1)%Z j i * b_x3f (pfield_b pmb') (k + 1)%Z j i
             - Face3Area (pcoord pmb) k j i * b_x3f (pfield_b pmb') k j i
             = 0).
Proof.
  intros _ Hb Hsolved. specialize (Hsolved eq_refl).
  destruct (ambient_fill_returns (set_gad p GetGamma) cylindrical il iu jl ju kl ku
              (phydro_w pmb, phydro_w1 pmb)) as [[w w1] Ea].
  destruct (init_x1f_returns (set_gad p GetGamma) Face1Area Edge2Length fuel
              (pcoord pmb) il iu jl ju kl ku Hsolved (pfield_b pmb)) as [b1 E1].
  destruct (init_x2f_returns by_amb il iu jl ju kl ku b1) as [b2 E2].
  destruct (init_x3f_returns (set_gad p GetGamma) Edge2Length Face3Area fuel
              (pcoord pmb) il iu jl ju kl ku Hsolved b2) as [b3 E3].
  eexists. split.
  - apply (ProblemGenerator_mhd p by_amb true NGHOST cylindrical GetGamma
             Face1Area Edge2Length Face3Area CCF P2C fuel pmb il iu jl ju kl ku
             Hb w w1 b1 b2 b3 eq_refl Ea E1 E2 E3).
  - cbn [pfield_b]. intros k j i Hin.
    apply block_box_spec in Hin. destruct Hin as (Hk & Hj & Hi).
    pose proof (generator_faces (set_gad p GetGamma) by_amb Face1Area Edge2Length
                  Face3Area fuel pmb il iu jl ju kl ku (pfield_b pmb) b1 b2 b3 E1 E2 E3)
      as Hf.
    assert (Hbox : forall il0 iu0 jl0 ju0 kl0 ku0 k0 j0 i0,
              (kl0 <= k0 <= ku0)%Z -> (jl0 <= j0 <= ju0)%Z -> (il0 <= i0 <= iu0)%Z ->
              block_box il0 iu0 jl0 ju0 kl0 ku0 k0 j0 i0 = true).
    { intros. apply block_box_spec. repeat split; lia. }
    destruct (Hf k j i) as (F1 & F2 & F3).
    destruct (Hf k j (i + 1)%Z) as (F1' & _ & _).
    destruct (Hf k (j + 1)%Z i) as (_ & F2' & _).
    destruct (Hf (k + 1)%Z j i) as (_ & _ & F3').
    rewrite Hbox in F1, F2, F3, F1', F2', F3' by lia.
    split; [exact F2 |]. split; [exact F2' |].
    intros _ _ Ha1 Ha1' Ha3 Ha3'.
    unfold init_x1f_value, init_x3f_value in F1, F1', F3, F3'.
    rewrite !A2_set_gad in F1, F1', F3, F3'.
    destruct (A2 p fuel (x1f (pcoord pmb) i) (x3f (pcoord pmb) k)) as [A00 |],
             (A2 p fuel (x1f (pcoord pmb) i) (x3f (pcoord pmb) (k + 1))) as [A01 |],
             (A2 p fuel (x1f (pcoord pmb) (i + 1)) (x3f (pcoord pmb) k)) as [A10 |],
             (A2 p fuel (x1f (pcoord pmb) (i + 1)) (x3f (pcoord pmb) (k + 1))) as [A11 |];
      try discriminate.
    injection F1 as <-. injection F1' as <-. injection F3 as <-. injection F3' as <-.
    field. repeat split; assumption.
Qed.

Lemma ProblemGenerator_divergence_free_witness :
  exists pmb',
    ProblemGenerator straight_jet (1 / 2) true 2 true (5 / 3)
      (fun _ _ _ _ => 1) (fun _ _ _ _ => 1) (fun _ _ _ _ => 1)
      (fun _ bcc _ _ _ _ _ _ _ => bcc) (fun _ _ u _ _ _ _ _ _ _ => u)
      1 offset_block
    = Some (set_gad straight_jet (5 / 3), pmb')
    /\ b_x2f (pfield_b pmb') 0%Z 0%Z 0%Z = 1 / 2
    /\ 1 * b_x1f (pfield_b pmb') 0%Z 0%Z (0 + 1)%Z
       - 1 * b_x1f (pfield_b pmb') 0%Z 0%Z 0%Z
       + 1 * b_x3f (pfield_b pmb') (0 + 1)%Z 0%Z 0%Z
       - 1 * b_x3f (pfield_b pmb') 0%Z 0%Z 0%Z
       = 0.
Proof.
  destruct (ProblemGenerator_divergence_free straight_jet (1 / 2) 2 true (5 / 3)
              (fun _ _ _ _ => 1) (fun _ _ _ _ => 1) (fun _ _ _ _ => 1)
              (fun _ bcc _ _ _ _ _ _ _ => bcc) (fun _ _ u _ _ _ _ _ _ _ => u)
              1 offset_block (-2) 3 0 0 (-2) 3)
    as (pmb' & Hrun & Hcells).
  - unfold nonzero_divisors. simpl. repeat split; lra.
  - reflexivity.
  - intros _ k i _ _.
    destruct (A2_straight straight_jet eq_refl eq_refl 0
                (x1f (pcoord offset_block) i) (x3f (pcoord offset_block) k))
      as [v ->].
    discriminate.
  - exists pmb'. split; [exact Hrun |].
    destruct (Hcells 0%Z 0%Z 0%Z eq_refl) as (H2 & _ & Hdiv).
    split; [exact H2 |]. apply Hdiv; simpl; lra.
Defined.

(** X18. On a uniform cylindrical mesh the boundary function reproduces
    the generator's poloidal field.  Let the edge lengths and face areas be
    those of cylindrical coordinates ([x1f dphi], [x1f dphi dz] and
    [(x1f(i+1)^2 - x1f(i)^2) / 2 dphi]) and let the cell-centre spacing the
    boundary function divides by equal the face spacing of the ghost row.
    When the calls of [A2] and the root-solves return, [ProblemGenerator]
    followed by [JetInnerX3] returns, and at the ghost faces that lie in the
    generator's index box at or outside the inner radial edge, with nonzero
    area, [JetInnerX3] leaves the radial and axial face field of the
    generator as it is.  The azimuthal face field it sets to zero, which
    is the generator's value exactly when [by_amb = 0]. *)
Theorem JetInnerX3_keeps_initial_field
    (p : Params) (by_amb : R) (NGHOST : Z) (cylindrical : bool) (GetGamma : R)
    (Face1Area Edge2Length Face3Area : Coordinates -> Z -> Z -> Z -> R)
    (CCFg : FaceField -> FieldArray -> Coordinates -> Z -> Z -> Z -> Z -> Z -> Z
            -> FieldArray)
    (P2C : PrimArray -> FieldArray -> PrimArray -> Coordinates
           -> Z -> Z -> Z -> Z -> Z -> Z -> PrimArray)
    (CCF : FaceField -> Coordinates -> Z -> Z -> Z -> Z -> Z -> Z -> FieldArray)
    (fuel : nat) (pmb : MeshBlock) (gil giu gjl gju gkl gku : Z)
    (prim : PrimArray) (il iu jl ju kl ku ngh : Z) (dphi : Z -> R) :
  generator_bounds NGHOST pmb = (gil, giu, gjl, gju, gkl, gku) ->
  (forall k j i, Edge2Length (pcoord pmb) k j i = x1f (pcoord pmb) i * dphi j) ->
  (forall k j i,
     Face1Area (pcoord pmb) k j i
     = x1f (pcoord pmb) i * dphi j * (x3f (pcoord pmb) (k + 1) - x3f (pcoord pmb) k)) ->
  (forall k j i,
     Face3Area (pcoord pmb) k j i
     = (SQR (x1f (pcoord pmb) (i + 1)) - SQR (x1f (pcoord pmb) i)) / 2 * dphi j) ->
  (forall k, (1 <= k <= ngh)%Z ->
             x3v (pcoord pmb) (k + 1) - x3v (pcoord pmb) k
             = x3f (pcoord pmb) (kl - k + 1) - x3f (pcoord pmb) (kl - k)) ->
  generator_solved p fuel (pcoord pmb) true gil giu gkl gku ->
  samples_solved p fuel (pcoord pmb) true il iu kl ngh ->
  exists pmb' prim' b',
    ProblemGenerator p by_amb true NGHOST cylindrical GetGamma
      Face1Area Edge2Length Face3Area CCFg P2C fuel pmb
    = Some (set_gad p GetGamma, pmb')
    /\ JetInnerX3 (set_gad p GetGamma) true CCF fuel (pcoord pmb) prim (pfield_b pmb')
         il iu jl ju kl ku ngh = Some (prim', b')
    /\ forall k j i,
         (1 <= k <= ngh)%Z ->
         x1min p <= x1f (pcoord pmb) i ->
         dphi j <> 0 ->
         ((jl <= j <= ju)%Z -> (il <= i <= iu + 1)%Z ->
          block_box gil (giu + 1) gjl gju gkl gku (kl - k) j i = true ->
          x1f (pcoord pmb) i <> 0 ->
          x3f (pcoord pmb) (kl - k + 1) - x3f (pcoord pmb) (kl - k) <> 0 ->
          b_x1f b' (kl - k)%Z j i = b_x1f (pfield_b pmb') (kl - k)%Z j i)
         /\ ((jl <= j <= ju)%Z -> (il <= i <= iu)%Z ->
             block_box gil giu gjl gju gkl (gku + 1) (kl - k) j i = true ->
             SQR (x1f (pcoord pmb) (i + 1)) - SQR (x1f (pcoord pmb) i) <> 0 ->
             b_x3f b' (kl - k)%Z j i = b_x3f (pfield_b pmb') (kl - k)%Z j i)
         /\ ((jl <= j <= ju + 1)%Z -> (il <= i <= iu)%Z ->
             block_box gil giu gjl (gju + 1) gkl gku (kl - k) j i = true ->
             (b_x2f b' (kl - k)%Z j i = b_x2f (pfield_b pmb') (kl - k)%Z j i
              <-> by_amb = 0)).
Proof.
  intros Hb Hedge Hface1 Hface3 Huni Hgen Hsolved.
  destruct (ProblemGenerator_mhd_returns p by_amb NGHOST cylindrical GetGamma
              Face1Area Edge2Length Face3Area CCFg P2C fuel pmb
              gil giu gjl gju gkl gku Hb Hgen) as (pmb' & b1 & b2 & Hrun & E1 & E2 & E3).
  destruct (JetInnerX3_returns (set_gad p GetGamma) true CCF fuel (pcoord pmb)
              il iu jl ju kl ku ngh prim (pfield_b pmb') Hsolved)
    as (prim' & b' & Hjet).
  exists pmb', prim', b'. split; [exact Hrun |]. split; [exact Hjet |].
  intros k j i Hk Hin Hphi.
  destruct (JetInnerX3_faces (set_gad p GetGamma) true CCF fuel (pcoord pmb)
              il iu jl ju kl ku ngh prim (pfield_b pmb') prim' b' Hjet eq_refl k j i Hk)
    as (J1 & J2 & J3).
  destruct (generator_faces p by_amb Face1Area Edge2Length Face3Area fuel pmb
              gil giu gjl gju gkl gku (pfield_b pmb) b1 b2 (pfield_b pmb') E1 E2 E3
              (kl - k)%Z j i) as (G1 & G2 & G3).
  split; [| split].
  - intros Hj Hi Hbox Hr Hdz. rewrite Hbox in G1. specialize (J1 Hj Hi).
    rewrite (init_x1f_value_cylindrical p Face1Area Edge2Length fuel
               (pcoord pmb) dphi Hedge Hface1 kl k j i Hin Hr Hphi Hdz (Huni k Hk)) in G1.
    change (x1f_value p fuel (pcoord pmb) kl k i = Some (b_x1f b' (kl - k)%Z j i)) in J1.
    congruence.
  - intros Hj Hi Hbox Hsq. rewrite Hbox in G3. specialize (J3 Hj Hi).
    rewrite (init_x3f_value_cylindrical p Edge2Length Face3Area fuel
               (pcoord pmb) dphi Hedge Hface3 il kl k j i Hin Hphi Hsq) in G3.
    change (x3f_value p fuel (pcoord pmb) il kl k i = Some (b_x3f b' (kl - k)%Z j i)) in J3.
    congruence.
  - intros Hj Hi Hbox. rewrite Hbox in G2. rewrite (J2 Hj Hi), G2.
    split; intros H; congruence.
Qed.

Lemma JetInnerX3_keeps_initial_field_witness :
  exists pmb' prim' b',
    ProblemGenerator straight_jet (1 / 2) true 2 true (5 / 3)
      (fun pco k j i => x1f pco i * 1 * (x3f pco (k + 1) - x3f pco k))
      (fun pco k j i => x1f pco i * 1)
      (fun pco k j i => (SQR (x1f pco (i + 1)) - SQR (x1f pco i)) / 2 * 1)
      (fun _ bcc _ _ _ _ _ _ _ => bcc) (fun _ _ u _ _ _ _ _ _ _ => u)
      1 (sample_block 0)
    = Some (set_gad straight_jet (5 / 3), pmb')
    /\ JetInnerX3 (set_gad straight_jet (5 / 3)) true sample_centred 1 sample_mesh
         sample_prim (pfield_b pmb') 0 1 0 0 0 1 2 = Some (prim', b')
    /\ b_x1f b' (0 - 1)%Z 0%Z 1%Z = b_x1f (pfield_b pmb') (0 - 1)%Z 0%Z 1%Z.
Proof.
  destruct (JetInnerX3_keeps_initial_field straight_jet (1 / 2) 2 true (5 / 3)
              (fun pco k j i => x1f pco i * 1 * (x3f pco (k + 1) - x3f pco k))
              (fun pco k j i => x1f pco i * 1)
              (fun pco k j i => (SQR (x1f pco (i + 1)) - SQR (x1f pco i)) / 2 * 1)
              (fun _ bcc _ _ _ _ _ _ _ => bcc) (fun _ _ u _ _ _ _ _ _ _ => u)
              sample_centred 1 (sample_block 0) (-2) 3 0 0 (-2) 3
              sample_prim 0 1 0 0 0 1 2 (fun _ => 1))
    as (pmb' & prim' & b' & Hrun & Hjet & Hfaces).
  - reflexivity.
  - intros k j i. reflexivity.
  - intros k j i. reflexivity.
  - intros k j i. reflexivity.
  - intros k _. cbn [sample_block pcoord sample_mesh x3v x3f].
    rewrite !plus_IZR, !minus_IZR. lra.
  - intros _ k i _ _.
    destruct (A2_straight straight_jet eq_refl eq_refl 0
                (x1f (pcoord (sample_block 0)) i) (x3f (pcoord (sample_block 0)) k))
      as [v ->].
    discriminate.
  - apply straight_samples_solved; reflexivity.
  - exists pmb', prim', b'. split; [exact Hrun |]. split; [exact Hjet |].
    destruct (Hfaces 1%Z 0%Z 1%Z) as (H1 & _ & _); try lia; try (simpl; lra).
    apply H1; try lia; try reflexivity; simpl; lra.
Defined.

(** X19. The initial poloidal field is confined to the jet.  With magnetic
    fields, positive jet radius and half-width, and every call of [A2]
    returning, [ProblemGenerator] returns face arrays whose radial and axial
    components vanish, on faces of nonzero area, at the faces of its index
    box that lie at or inside the inner radial edge and off the axis (the
    potential is zero there, provided the edge is inside the jet core),
    whatever the edge lengths; and at the faces at a radius of at least
    [r_jet + dr_jet], a radial face provided its two azimuthal edges have the
    same length and an axial face provided the edge length is proportional
    to the radius. *)
Theorem ProblemGenerator_field_confined
    (p : Params) (by_amb : R) (NGHOST : Z) (cylindrical : bool) (GetGamma : R)
    (Face1Area Edge2Length Face3Area : Coordinates -> Z -> Z -> Z -> R)
    (CCF : FaceField -> FieldArray -> Coordinates -> Z -> Z -> Z -> Z -> Z -> Z
           -> FieldArray)
    (P2C : PrimArray -> FieldArray -> PrimArray -> Coordinates
           -> Z -> Z -> Z -> Z -> Z -> Z -> PrimArray)
    (fuel : nat) (pmb : MeshBlock) (il iu jl ju kl ku : Z) :
  well_formed p ->
  generator_bounds NGHOST pmb = (il, iu, jl, ju, kl, ku) ->
  generator_solved p fuel (pcoord pmb) true il iu kl ku ->
  exists pmb',
    ProblemGenerator p by_amb true NGHOST cylindrical GetGamma
      Face1Area Edge2Length Face3Area CCF P2C fuel pmb
    = Some (set_gad p GetGamma, pmb')
    /\ forall k j i,
         (block_box il (iu + 1) jl ju kl ku k j i = true ->
          Face1Area (pcoord pmb) k j i <> 0 ->
          (x1f (pcoord pmb) i <= x1min p -> x1f (pcoord pmb) i <> 0 ->
           x1min p < r_jet p - dr_jet p ->
           b_x1f (pfield_b pmb') k j i = 0)
          /\ (r_jet p + dr_jet p <= x1f (pcoord pmb) i -> x1min p <= x1f (pcoord pmb) i ->
              Edge2Length (pcoord pmb) (k + 1)%Z j i = Edge2Length (pcoord pmb) k j i ->
              b_x1f (pfield_b pmb') k j i = 0))
         /\ (block_box il iu jl ju kl (ku + 1) k j i = true ->
             Face3Area (pcoord pmb) k j i <> 0 ->
             (x1f (pcoord pmb) (i + 1) <= x1min p -> x1f (pcoord pmb) i <= x1min p ->
              x1f (pcoord pmb) (i + 1) <> 0 -> x1f (pcoord pmb) i <> 0 ->
              x1min p < r_jet p - dr_jet p ->
              b_x3f (pfield_b pmb') k j i = 0)
             /\ (r_jet p + dr_jet p <= x1f (pcoord pmb) i ->
                 x1min p <= x1f (pcoord pmb) i ->
                 r_jet p + dr_jet p <= x1f (pcoord pmb) (i + 1) ->
                 x1min p <= x1f (pcoord pmb) (i + 1) ->
                 Edge2Length (pcoord pmb) k j (i + 1)%Z / x1f (pcoord pmb) (i + 1)
                 = Edge2Length (pcoord pmb) k j i / x1f (pcoord pmb) i ->
                 b_x3f (pfield_b pmb') k j i = 0)).
Proof.
  intros Hwf Hb Hgen.
  destruct (ProblemGenerator_mhd_returns p by_amb NGHOST cylindrical GetGamma
              Face1Area Edge2Length Face3Area CCF P2C fuel pmb
              il iu jl ju kl ku Hb Hgen) as (pmb' & b1 & b2 & Hrun & E1 & E2 & E3).
  exists pmb'. split; [exact Hrun |]. intros k j i.
  destruct (generator_faces p by_amb Face1Area Edge2Length Face3Area fuel pmb
              il iu jl ju kl ku (pfield_b pmb) b1 b2 (pfield_b pmb') E1 E2 E3 k j i)
    as (G1 & _ & G3).
  split; intros Hbox _.
  - rewrite Hbox in G1. unfold init_x1f_value in G1. split.
    + intros Hin _ Hedge.
      rewrite !(A2_inside p fuel _ _ Hin Hedge) in G1. injection G1 as <-.
      unfold Rdiv. ring.
    + intros Hhi Hlo Hlen.
      rewrite !(A2_outside p fuel _ _ Hwf Hhi Hlo), Hlen in G1. injection G1 as <-.
      unfold Rdiv. ring.
  - rewrite Hbox in G3. unfold init_x3f_value in G3. split.
    + intros Hin' Hin _ _ Hedge.
      rewrite (A2_inside p fuel _ _ Hin Hedge), (A2_inside p fuel _ _ Hin' Hedge) in G3.
      injection G3 as <-. unfold Rdiv. ring.
    + intros Hhi Hlo Hhi' Hlo' Hlen.
      rewrite (A2_outside p fuel _ _ Hwf Hhi Hlo),
              (A2_outside p fuel _ _ Hwf Hhi' Hlo') in G3.
      injection G3 as <-.
      replace (Edge2Length (pcoord pmb) k j (i + 1)%Z
               * (flux_C p / x1f (pcoord pmb) (i + 1)))
        with (flux_C p * (Edge2Length (pcoord pmb) k j (i + 1)%Z
                          / x1f (pcoord pmb) (i + 1)))
        by (unfold Rdiv; ring).
      rewrite Hlen. unfold Rdiv. ring.
Qed.

Lemma ProblemGenerator_field_confined_witness :
  exists pmb',
    ProblemGenerator straight_jet (1 / 2) true 2 true (5 / 3)
      (fun _ _ _ _ => 1) (fun _ _ _ _ => 1) (fun _ _ _ _ => 1)
      (fun _ bcc _ _ _ _ _ _ _ => bcc) (fun _ _ u _ _ _ _ _ _ _ => u)
      1 offset_block
    = Some (set_gad straight_jet (5 / 3), pmb')
    /\ b_x1f (pfield_b pmb') 0%Z 0%Z (-1)%Z = 0
    /\ b_x1f (pfield_b pmb') 0%Z 0%Z 3%Z = 0.
Proof.
  destruct (ProblemGenerator_field_confined straight_jet (1 / 2) 2 true (5 / 3)
              (fun _ _ _ _ => 1) (fun _ _ _ _ => 1) (fun _ _ _ _ => 1)
              (fun _ bcc _ _ _ _ _ _ _ => bcc) (fun _ _ u _ _ _ _ _ _ _ => u)
              1 offset_block (-2) 3 0 0 (-2) 3)
    as (pmb' & Hrun & Hfaces).
  - exact straight_jet_well_formed.
  - reflexivity.
  - intros _ k i _ _.
    destruct (A2_straight straight_jet eq_refl eq_refl 0
                (x1f (pcoord offset_block) i) (x3f (pcoord offset_block) k))
      as [v ->].
    discriminate.
  - exists pmb'. split; [exact Hrun |]. split.
    + destruct (Hfaces 0%Z 0%Z (-1)%Z) as [[H _] _]; [reflexivity | lra |].
      apply H; simpl; lra.
    + destruct (Hfaces 0%Z 0%Z 3%Z) as [[_ H] _]; [reflexivity | lra |].
      apply H; [simpl; lra | simpl; lra | reflexivity].
Defined.

(** ** Inputs on which two claims of the specification fail *)

Section RippleExample.

Local Abbreviation p := ripple_jet.

Lemma sqrt_25_16 : sqrt (1 + 0 * 0 + 0 * 0 + 3 / 4 * (3 / 4)) = 5 / 4.
Proof.
  replace (1 + 0 * 0 + 0 * 0 + 3 / 4 * (3 / 4)) with (Rsqr (5 / 4)) by (unfold Rsqr; lra).
  apply sqrt_Rsqr. lra.
Qed.

Lemma gamma_amb_ripple : gamma_amb p = 5 / 4.
Proof. unfold gamma_amb. simpl. exact sqrt_25_16. Qed.

Lemma gamma_jet_ripple : gamma_jet p = 5 / 4.
Proof. unfold gamma_jet. simpl. exact sqrt_25_16. Qed.

Lemma ripple_wf : well_formed p.
Proof. unfold well_formed. simpl. lra. Qed.

Lemma ripple_radius : perturbed_radius p (5 / 4) (x2v ripple_mesh 1) = 5 / 8.
Proof.
  unfold perturbed_radius. simpl. rewrite !Rmult_1_l, cos_PI. lra.
Qed.

Lemma ripple_weight_plain : weight p (5 / 4) = 0.
Proof. apply (weight_ambient p ripple_wf). simpl. lra. Qed.

Lemma ripple_weight_perturbed :
  weight p (perturbed_radius p (5 / 4) (x2v ripple_mesh 1)) = 1.
Proof. rewrite ripple_radius. apply (weight_core p ripple_wf). simpl. lra. Qed.

Lemma atwood_amb_ripple : atwood_amb p = 75 / 4.
Proof. unfold atwood_amb, adiabatic_ratio. rewrite gamma_amb_ripple. simpl. lra. Qed.

Lemma atwood_jet_ripple : atwood_jet p = 75 / 32.
Proof. unfold atwood_jet, adiabatic_ratio. rewrite gamma_jet_ripple. simpl. lra. Qed.

Lemma bernoulli_jet_ripple : bernoulli_jet p = 15 / 4.
Proof.
  unfold bernoulli_jet, adiabatic_ratio, a. rewrite gamma_jet_ripple. simpl.
  set (w := weight p 0). field.
Qed.

Lemma Bphi_ripple w : Bphi p w = 2 / 5 * w.
Proof. unfold Bphi, a. simpl. field. Qed.

Lemma sqrt_4 : sqrt 4 = 2.
Proof.
  replace 4 with (Rsqr 2) by (unfold Rsqr; lra). apply sqrt_Rsqr. lra.
Qed.

(** The density the code stores: Atwood blend and azimuthal field of the
    ambient side, Bernoulli blend of the jet side. *)
Lemma density_of_ripple : density_of p (5 / 4) 1 = 2.
Proof.
  unfold density_of, lorentz_of, lorentz_factor, Psi_of, bernoulli_invariant.
  rewrite ripple_weight_plain. unfold atwoodMixed, bernoulliMixed.
  rewrite blend_amb, blend_jet, atwood_amb_ripple, bernoulli_jet_ripple, Bphi_ripple.
  unfold adiabatic_ratio. simpl.
  match goal with |- context [sqrt ?X] => replace X with 4 by field end.
  rewrite sqrt_4. field.
Qed.

(** The density of the claim: every blend on the jet side. *)
Lemma density_perturbed_ripple :
  density_perturbed p (5 / 4) (x2v ripple_mesh 1) <> 2.
Proof.
  unfold density_perturbed. rewrite ripple_weight_perturbed.
  unfold lorentz_of, lorentz_factor, Psi_of, bernoulli_invariant.
  unfold atwoodMixed, bernoulliMixed.
  rewrite !blend_jet, atwood_jet_ripple, bernoulli_jet_ripple, Bphi_ripple.
  unfold adiabatic_ratio. simpl.
  match goal with |- context [sqrt ?Y] => set (X := Y) end.
  assert (HX : 16 < X) by (unfold X; field_simplify; lra).
  assert (HS : 4 < sqrt X).
  { replace 4 with (sqrt 16).
    - apply sqrt_lt_1; lra.
    - replace 16 with (Rsqr 4) by (unfold Rsqr; lra). apply sqrt_Rsqr. lra. }
  match goal with |- ?P / (?P / ?q * _) <> 2 => set (Psi := P); set (kp := q) end.
  assert (HP : 0 < Psi) by (unfold Psi; lra).
  assert (Hq : kp = 2) by (unfold kp; field).
  rewrite Hq. intros E.
  assert (E' : Psi = 2 * (Psi / 2 * (sqrt X - 1))).
  { rewrite <- E at 1. field. split; lra. }
  nra.
Qed.

End RippleExample.

(** A residual that is affine in the source radius is solved by the first
    secant point, whatever its slope. *)
Lemma r0_r_z_affine (p : Params) (n : nat) (x1 x3 m : R) :
  (forall r, f p r x1 x3 = m * r - x1) ->
  0 < m ->
  x1min p < x1 < r_jet p + dr_jet p ->
  tol <= x1 - m * x1min p ->
  tol <= m * (r_jet p + dr_jet p) - x1 ->
  r0_r_z p (S n) x1 x3 = Some (x1 / m).
Proof.
  intros Hlin Hm [H1 H2] Hlo Hhi. pose proof tol_pos as Htol. unfold r0_r_z.
  destruct (Rlt_dec x1 (r_jet p + dr_jet p)); [| lra].
  destruct (Rgt_dec x1 (x1min p)); [| lra].
  cbv zeta. rewrite !Hlin.
  destruct (Rlt_dec (Rabs (m * x1min p - x1)) tol) as [Ha | _].
  { rewrite Rabs_left in Ha by lra. lra. }
  destruct (Rlt_dec (Rabs (m * (r_jet p + dr_jet p) - x1)) tol) as [Hb | _].
  { rewrite Rabs_pos_eq in Hb by lra. lra. }
  simpl. pose proof eps_lt_1. destruct (Rgt_dec 1 eps); [| lra].
  unfold loop_body. simpl.
  assert (Hs : secant p (x1min p) (r_jet p + dr_jet p) x1 x3 = x1 / m).
  { unfold secant. rewrite !Hlin. field. split; lra. }
  rewrite Hs, Hlin.
  replace (m * (x1 / m) - x1) with 0 by (field; lra).
  rewrite Rabs_R0.
  destruct (Rlt_dec 0 tol); [reflexivity | lra].
Qed.

Section BentExample.

Local Abbreviation p := bent_jet.
Local Abbreviation pco := wide_mesh.

(** Slope of the residual at the lower face of the ghost row. *)
Local Abbreviation slope := (1 + (1 - exp (1 / 10)) / 10).

Lemma bent_wf : well_formed p.
Proof. unfold well_formed. simpl. lra. Qed.

Lemma rang_bent r : rang p r = r / 10.
Proof. unfold rang, rang_jet, rang_amb. simpl. field. Qed.

Lemma f_bent r x1 x3 : f p r x1 x3 = (1 + (1 - exp (- x3 / 1)) / 10) * r - x1.
Proof. unfold f. rewrite rang_bent. simpl. field. Qed.

Lemma slope_range : 4 / 5 < slope < 1.
Proof.
  pose proof (exp_ineq1 (1 / 10) ltac:(lra)) as Hlow.
  assert (Hup : exp (1 / 10) < 3).
  { apply Rlt_le_trans with (exp 1); [apply exp_increasing; lra | exact exp_le_3]. }
  lra.
Qed.

(** The source radii of the inner radial face, at the lower and at the
    upper axial face of the ghost row. *)
Lemma r0_bent_lower : r0_r_z p 1 (1 / 2) (- 1 / 10) = Some (1 / 2 / slope).
Proof.
  pose proof slope_range as Hs.
  apply r0_r_z_affine.
  - intros r. rewrite f_bent. replace (- (- 1 / 10) / 1) with (1 / 10) by lra. reflexivity.
  - lra.
  - simpl. lra.
  - unfold tol. simpl. lra.
  - unfold tol. simpl. lra.
Qed.

Lemma r0_bent_upper : r0_r_z p 1 (1 / 2) 0 = Some (1 / 2).
Proof.
  destruct (r0_r_z_linear p 0 (1 / 2) 0) as (r0 & E & _ & Hval).
  - intros r. apply f_at_origin.
  - simpl. lra.
  - rewrite E. f_equal. apply Hval; unfold tol; simpl; lra.
Qed.

Lemma flux_bent_core r :
  0 <= r < 3 / 4 -> flux_intg p r = 1 / 8 * (ln (1 / 4 + r * r) - ln (1 / 4)).
Proof.
  intros Hr. unfold flux_intg. simpl.
  destruct (Rlt_dec r (1 - 1 / 4)); [| lra].
  unfold flux_A, fintg1, a. simpl.
  replace (1 / 2 * (1 / 2) + r * r) with (1 / 4 + r * r) by lra.
  replace (1 / 2 * (1 / 2) + 0 * 0) with (1 / 4) by lra.
  lra.
Qed.

Lemma flux_bent_differs : flux_intg p (1 / 2 / slope) <> flux_intg p (1 / 2).
Proof.
  pose proof slope_range as Hs.
  assert (Hr : 1 / 2 < 1 / 2 / slope < 3 / 4).
  { split.
    - apply Rmult_lt_reg_r with slope; [lra |].
      replace (1 / 2 / slope * slope) with (1 / 2) by (field; lra). lra.
    - apply Rmult_lt_reg_r with slope; [lra |].
      replace (1 / 2 / slope * slope) with (1 / 2) by (field; lra). lra. }
  rewrite !flux_bent_core by lra.
  assert (Hln : ln (1 / 4 + 1 / 2 * (1 / 2))
                < ln (1 / 4 + 1 / 2 / slope * (1 / 2 / slope))).
  { apply ln_increasing; [lra |]. nra. }
  lra.
Qed.

Lemma A2_bent_lower :
  A2 p 1 (1 / 2) (- 1 / 10) = Some (flux_intg p (1 / 2 / slope) / (1 / 2)).
Proof. unfold A2. rewrite r0_bent_lower. reflexivity. Qed.

Lemma A2_bent_upper : A2 p 1 (1 / 2) 0 = Some (flux_intg p (1 / 2) / (1 / 2)).
Proof. unfold A2. rewrite r0_bent_upper. reflexivity. Qed.

Lemma A2_bent_outer x3 : A2 p 1 2 x3 = Some (flux_C p / 2).
Proof. apply A2_outside; [exact bent_wf | simpl; lra | simpl; lra]. Qed.

Lemma mesh_inner_face : x1f pco 0 = 1 / 2.
Proof. simpl. lra. Qed.

Lemma mesh_outer_face : x1f pco 1 = 2.
Proof. simpl. lra. Qed.

Lemma mesh_lower_face : x3f pco (0 - 1) = - 1 / 10.
Proof. simpl. lra. Qed.

Lemma mesh_upper_face : x3f pco (0 - 1 + 1) = 0.
Proof. simpl. lra. Qed.

(** The radial face field of the ghost row: nonzero on the inner face, where
    the field lines bend, zero on the outer face. *)
Lemma bent_x1f_inner :
  exists beta, x1f_value p 1 pco 0 1 0 = Some beta /\ beta <> 0.
Proof.
  unfold x1f_value. cbv zeta.
  rewrite mesh_inner_face, mesh_lower_face, mesh_upper_face.
  destruct (Rlt_dec (1 / 2) (x1min p)) as [H | _]; [simpl in H; lra |].
  rewrite A2_bent_lower, A2_bent_upper. eexists. split; [reflexivity |].
  pose proof flux_bent_differs as Hd.
  assert (Hdz : x3v pco (1 + 1) - x3v pco 1 = 1 / 10) by (simpl; lra).
  rewrite Hdz. intros E. apply Hd.
  apply Rmult_eq_reg_r with (/ (1 / 2) * / (1 / 10)); [| lra].
  unfold Rdiv in E. lra.
Qed.

Lemma bent_x1f_outer : x1f_value p 1 pco 0 1 1 = Some 0.
Proof.
  unfold x1f_value. cbv zeta. rewrite mesh_outer_face.
  destruct (Rlt_dec 2 (x1min p)) as [H | _]; [simpl in H; lra |].
  rewrite !A2_bent_outer. f_equal. unfold Rdiv. ring.
Qed.

Lemma bent_x3f : exists v, x3f_value p 1 pco 0 0 1 0 = Some v.
Proof.
  unfold x3f_value. cbv zeta. change (0 + 1)%Z with 1%Z.
  rewrite mesh_inner_face, mesh_outer_face, mesh_lower_face.
  destruct (Rlt_dec (1 / 2) (x1min p)) as [H | _]; [simpl in H; lra |].
  rewrite A2_bent_outer, A2_bent_lower. eauto.
Qed.

Lemma bent_cell_radius x3 : r0_r_z p 1 (x1v pco 0) x3 = Some (x1v pco 0).
Proof. apply r0_r_z_outside; simpl; lra. Qed.

Lemma bent_samples_solved : samples_solved p 1 pco true 0 0 0 1.
Proof.
  split; [| intros _; split]; intros k i Hk Hi; assert (k = 1%Z) by lia; subst k.
  - assert (i = 0%Z) by lia. subst i. rewrite bent_cell_radius. discriminate.
  - assert (Hi' : i = 0%Z \/ i = 1%Z) by lia. destruct Hi' as [-> | ->].
    + destruct bent_x1f_inner as (beta & E & _). rewrite E. discriminate.
    + rewrite bent_x1f_outer. discriminate.
  - assert (i = 0%Z) by lia. subst i.
    destruct bent_x3f as [v E]. rewrite E. discriminate.
Qed.

(** The axial velocity of the ghost cell, which sits at the outer end of the
    transition band, is the ambient one and not zero. *)
Lemma bent_vz_pos z phi : 0 < cell_value p IVZ (x1v pco 0) z phi.
Proof.
  rewrite cell_vz. unfold vz_of.
  assert (Hw : weight p (x1v pco 0) = 0)
    by (apply (weight_ambient p bent_wf); simpl; lra).
  rewrite Hw, lorentz_of_ambient by (simpl; lra).
  apply sqrt_lt_R0. apply Rdiv_lt_0_compat.
  - replace (gamma_amb p ^ 2) with (gamma_amb p * gamma_amb p) by ring.
    unfold gamma_amb. rewrite sqrt_sqrt; simpl; lra.
  - pose proof (exp_pos (-2 * z / z_0 p)) as He.
    pose proof (pow2_ge_0 (rang p (x1v pco 0))) as H1.
    pose proof (pow2_ge_0 (azimuthalRatio p (x1v pco 0))) as H2.
    assert (0 <= rang p (x1v pco 0) ^ 2 * exp (-2 * z / z_0 p))
      by (apply Rmult_le_pos; lra).
    lra.
Qed.

End BentExample.

(** The radial velocity [JetInnerX3] leaves in the near-core ghost cell of
    the bent jet, at either azimuthal index: the axial velocity times the
    ratio of the averaged radial to the averaged axial face field, the
    latter reading the axial face of the active zone. *)
Lemma bent_radial_velocity prim' b' :
  JetInnerX3 bent_jet true face_average 1 wide_mesh sample_prim skewed_faces
    0 0 0 1 0 0 1 = Some (prim', b') ->
  exists vz beta v,
    0 < vz /\ beta <> 0
    /\ forall j, (0 <= j <= 1)%Z ->
         prim' IVX (0 - 1)%Z j 0%Z
         = vz * ((beta + 0) / 2) / ((v + (IZR j + 1)) / 2).
Proof.
  intros Hrun.
  destruct bent_x1f_inner as (beta & Ebeta & Hbeta).
  destruct bent_x3f as [v Ev].
  exists (cell_value bent_jet IVZ (x1v wide_mesh 0) (x3v wide_mesh (0 - 1)) (x2v wide_mesh 0)),
         beta, v.
  split; [apply bent_vz_pos |]. split; [exact Hbeta |].
  intros j Hj.
  destruct (JetInnerX3_prim bent_jet true face_average 1 wide_mesh 0 0 0 1 0 0 1
              sample_prim skewed_faces prim' b' 1 j 0 Hrun ltac:(lia) Hj ltac:(lia))
    as (r_0 & Er & Hcell).
  rewrite bent_cell_radius in Er. injection Er as <-.
  pose proof (JetInnerX3_faces bent_jet true face_average 1 wide_mesh 0 0 0 1 0 0 1
                sample_prim skewed_faces prim' b' Hrun eq_refl) as Hfaces.
  destruct (Hfaces 1%Z j 0%Z ltac:(lia)) as (F1 & _ & F3).
  destruct (Hfaces 1%Z j 1%Z ltac:(lia)) as (F1' & _ & _).
  specialize (F1 Hj ltac:(lia)). specialize (F3 Hj ltac:(lia)).
  specialize (F1' Hj ltac:(lia)).
  rewrite Ebeta in F1. injection F1 as F1.
  rewrite Ev in F3. injection F3 as F3.
  rewrite bent_x1f_outer in F1'.
  injection F1' as F1'.
  destruct (JetInnerX3_face_frame bent_jet true face_average 1 wide_mesh 0 0 0 1 0 0 1
              sample_prim skewed_faces prim' b' (0 - 1 + 1)%Z j 0%Z Hrun)
    as (_ & _ & Hframe).
  assert (Hrow : b_x3f b' (0 - 1 + 1)%Z j 0%Z = IZR j + 1).
  { rewrite Hframe; [reflexivity |]. unfold cell_box, ghost_row. reflexivity. }
  rewrite (Hcell IVX).
  assert (Hbox : vx_box bent_jet wide_mesh 0 0 0 1 0 1 (IVX, (0 - 1)%Z, j, 0%Z) = true).
  { unfold vx_box.
    rewrite (cell_box_intro 0 0 0 1 0 1 1 j 0 ltac:(lia) Hj ltac:(lia)).
    unfold near_core.
    destruct (Rle_dec (x1v wide_mesh 0) (r_jet bent_jet + dr_jet bent_jet)) as [_ | H];
      [reflexivity | simpl in H; lra]. }
  rewrite Hbox. cbn [andb]. cbv zeta.
  rewrite (cell_value_flat bent_jet IVZ _ _ (x2v wide_mesh j) (x2v wide_mesh 0) eq_refl).
  unfold face_average.
  rewrite Hrow. change (0 - 1)%Z with (-1)%Z. change (0 + 1)%Z with 1%Z.
  rewrite <- F1, <- F3, <- F1'. reflexivity.
Qed.

(** C7, counterexample.  With [dang = 0] and magnetic fields, the radial
    velocity of a near-core ghost cell is rebuilt from the cell-centred
    field, whose axial component in the ghost row next to the active zone
    averages in the axial face of the active zone.  On the bent jet, with an
    active-zone axial field of 1 at azimuthal index 0 and 2 at index 1, the
    two ghost cells of the same row and radial index get different radial
    velocities. *)
Lemma unperturbed_radial_velocity_counterexample :
  dang bent_jet = 0
  /\ exists prim' b',
       JetInnerX3 bent_jet true face_average 1 wide_mesh sample_prim skewed_faces
         0 0 0 1 0 0 1 = Some (prim', b')
       /\ prim' IVX (0 - 1)%Z 0%Z 0%Z <> prim' IVX (0 - 1)%Z 1%Z 0%Z.
Proof.
  split; [reflexivity |].
  destruct (JetInnerX3_returns bent_jet true face_average 1 wide_mesh 0 0 0 1 0 0 1
              sample_prim skewed_faces bent_samples_solved) as (prim' & b' & Hrun).
  exists prim', b'. split; [exact Hrun |].
  destruct (bent_radial_velocity prim' b' Hrun) as (vz & beta & v & Hvz & Hbeta & Hvx).
  rewrite (Hvx 0%Z), (Hvx 1%Z) by lia. simpl IZR. intros E.
  assert (Hc : vz * ((beta + 0) / 2) <> 0).
  { apply Rmult_integral_contrapositive. split; lra. }
  unfold Rdiv at 1 3 in E.
  apply Rmult_eq_reg_l in E; [| exact Hc].
  apply (f_equal Rinv) in E. rewrite !Rinv_inv in E. lra.
Qed.

(** C6, counterexample.  On the rippled jet, in the ghost cell of radius
    [5/4] at azimuth [PI], the mapped radius is the radius itself, outside
    the transition band, while the perturbed radius [5/8] is inside the
    core.  The code stores the density 2: it takes the Bernoulli blend on the
    jet side and the Atwood blend and azimuthal field on the ambient side.
    The density with the weight at the perturbed radius in every blend is a
    different number. *)
Lemma density_weight_counterexample :
  exists prim' b',
    JetInnerX3 ripple_jet true sample_centred 1 ripple_mesh sample_prim sample_faces
      2 2 1 1 0 0 1 = Some (prim', b')
    /\ r0_r_z ripple_jet 1 (x1v ripple_mesh 2) (x3v ripple_mesh (0 - 1)) = Some (5 / 4)
    /\ prim' IDN (0 - 1)%Z 1%Z 2%Z = 2
    /\ prim' IDN (0 - 1)%Z 1%Z 2%Z
       <> density_perturbed ripple_jet (5 / 4) (x2v ripple_mesh 1).
Proof.
  assert (Hsolved : samples_solved ripple_jet 1 ripple_mesh true 2 2 0 1)
    by (apply straight_samples_solved; reflexivity).
  destruct (JetInnerX3_returns ripple_jet true sample_centred 1 ripple_mesh 2 2 1 1 0 0 1
              sample_prim sample_faces Hsolved) as (prim' & b' & Hrun).
  exists prim', b'. split; [exact Hrun |].
  assert (Er0 : r0_r_z ripple_jet 1 (x1v ripple_mesh 2) (x3v ripple_mesh (0 - 1))
                = Some (5 / 4)).
  { rewrite r0_r_z_outside by (simpl; lra). f_equal. simpl. lra. }
  split; [exact Er0 |].
  destruct (JetInnerX3_prim ripple_jet true sample_centred 1 ripple_mesh 2 2 1 1 0 0 1
              sample_prim sample_faces prim' b' 1 1 2 Hrun ltac:(lia) ltac:(lia) ltac:(lia))
    as (r_0 & Er & Hcell).
  rewrite Er0 in Er. injection Er as <-.
  assert (Hrho : prim' IDN (0 - 1)%Z 1%Z 2%Z = 2).
  { rewrite (Hcell IDN), vx_box_only_vx by discriminate.
    rewrite cell_density, ripple_weight_perturbed. exact density_of_ripple. }
  split; [exact Hrho |].
  rewrite Hrho. intros E. exact (density_perturbed_ripple (eq_sym E)).
Qed.
End Jet.
